(** * pydism: the streaming output parser and progress interpreter

    A shallow embedding of [pydism.py]: the two runners
    [run_dism_command] and [run_sfc], the text functions they call and
    the child process they drive, and the menu of [main] around them,
    followed by the properties of the progress extractor, the progress
    interpreter, the result classifier, the chunk decoder, the error
    handling and the menu. *)

From Stdlib Require Import String Ascii Bool Arith NArith ZArith QArith Lia List.
Import ListNotations.

Set Implicit Arguments.

Close Scope Q_scope.
Close Scope string_scope.
Open Scope nat_scope.

(* ================================================================= *)
(** ** Text *)

(** A Python [str] is a sequence of Unicode code points. *)
Definition char := N.
Definition str := list char.

(** A [bytes] object. *)
Definition bytes := list Byte.byte.

(** The code points of an ASCII literal of the source. *)
Definition lit (s : string) : str :=
  map N_of_ascii (list_ascii_of_string s).

Arguments lit s%_string.

Definition NL : str := [10%N].
Definition CR : str := [13%N].

Definition char_eqb (a b : char) : bool := N.eqb a b.

Fixpoint str_eqb (a b : str) : bool :=
  match a, b with
  | [], [] => true
  | x :: a', y :: b' => char_eqb x y && str_eqb a' b'
  | _, _ => false
  end.

Fixpoint starts_with (p s : str) : bool :=
  match p, s with
  | [], _ => true
  | x :: p', y :: s' => char_eqb x y && starts_with p' s'
  | _ :: _, [] => false
  end.

(** [p in s] on strings: [p] occurs in [s] as a contiguous run. *)
Fixpoint contains (p s : str) : bool :=
  starts_with p s ||
  match s with
  | [] => false
  | _ :: s' => contains p s'
  end.

Definition in_range (lo hi c : N) : bool := (lo <=? c)%N && (c <=? hi)%N.

(** [str.lower()], one code point at a time.  The table holds every
    code point whose lower case lies (in part) below U+0100: the ASCII
    and Latin-1 capitals and the five outside letters U+0130, U+0178,
    U+1E9E, U+212A and U+212B.  Any other code point is kept as it is:
    its lower case is again above U+00FF, so no test
    [phrase in text.lower()] against a Latin-1 phrase, the only use the
    source makes of [lower()], can tell the difference. *)
Definition lower_char (c : char) : str :=
  if in_range 65 90 c then [(c + 32)%N]
  else if in_range 192 222 c && negb (c =? 215)%N then [(c + 32)%N]
  else if (c =? 304)%N then [105; 775]%N
  else if (c =? 376)%N then [255%N]
  else if (c =? 7838)%N then [223%N]
  else if (c =? 8490)%N then [107%N]
  else if (c =? 8491)%N then [229%N]
  else [c].

Definition lower (s : str) : str := flat_map lower_char s.

(** [str.isspace()] of one code point, which is also the class [\s] of
    [re] on a [str] pattern. *)
Definition isspace (c : char) : bool :=
  in_range 9 13 c || in_range 28 32 c || (c =? 133)%N || (c =? 160)%N
  || (c =? 5760)%N || in_range 8192 8202 c || (c =? 8232)%N
  || (c =? 8233)%N || (c =? 8239)%N || (c =? 8287)%N || (c =? 12288)%N.

(** The decimal digits (category Nd, Unicode 14): each listed code
    point is the zero of a run of ten digits. *)
Definition decimal_zeros : list N :=
  [48; 1632; 1776; 1984; 2406; 2534; 2662; 2790; 2918; 3046; 3174; 3302;
   3430; 3558; 3664; 3792; 3872; 4160; 4240; 6112; 6160; 6470; 6608; 6784;
   6800; 6992; 7088; 7232; 7248; 42528; 43216; 43264; 43472; 43504; 43600;
   44016; 65296; 66720; 68912; 69734; 69872; 69942; 70096; 70384; 70736;
   70864; 71248; 71360; 71472; 71904; 72016; 72784; 73040; 73120; 92768;
   92864; 93008; 120782; 120792; 120802; 120812; 120822; 123200; 123632;
   125264; 130032]%N.

Fixpoint digit_in (zeros : list N) (c : char) : option N :=
  match zeros with
  | [] => None
  | z :: zeros' =>
      if in_range z (z + 9) c then Some (c - z)%N else digit_in zeros' c
  end.

Definition digit_value (c : char) : option N := digit_in decimal_zeros c.

(** The class [\d] of [re] on a [str] pattern. *)
Definition isdecimal (c : char) : bool :=
  match digit_value c with Some _ => true | None => false end.

Fixpoint lstrip (s : str) : str :=
  match s with
  | c :: s' => if isspace c then lstrip s' else s
  | [] => []
  end.

Definition rstrip (s : str) : str := rev (lstrip (rev s)).

(** [str.strip()] *)
Definition strip (s : str) : str := rstrip (lstrip s).

(** [sep.join(parts)] *)
Fixpoint join (sep : str) (parts : list str) : str :=
  match parts with
  | [] => []
  | [p] => p
  | p :: rest => p ++ sep ++ join sep rest
  end.

(** [s.split('\n')]: the pieces between line feeds, at least one. *)
Fixpoint split_lines_acc (cur : str) (s : str) : list str :=
  match s with
  | [] => [rev cur]
  | c :: s' =>
      if (c =? 10)%N then rev cur :: split_lines_acc [] s'
      else split_lines_acc (c :: cur) s'
  end.

Definition split_lines (s : str) : list str := split_lines_acc [] s.

(** [s.replace('\x00', '')] *)
Definition remove_nulls (s : str) : str :=
  filter (fun c => negb (c =? 0)%N) s.

(** [str(n)] of a non-negative integer, by repeated division. *)
Fixpoint decimal_acc (fuel : nat) (n : N) (acc : str) : str :=
  match fuel with
  | O => acc
  | S fuel' =>
      let acc' := (48 + n mod 10)%N :: acc in
      if (n <? 10)%N then acc' else decimal_acc fuel' (n / 10)%N acc'
  end.

Definition str_of_N (n : N) : str := decimal_acc (S (N.to_nat (N.log2 n))) n [].

(** [str(z)] of an integer. *)
Definition str_of_Z (z : Z) : str :=
  match z with
  | Zneg p => 45%N :: str_of_N (Npos p)
  | _ => str_of_N (Z.to_N z)
  end.

(** [c * n] for a one-character string [c]. *)
Definition repeat_char (c : char) (n : nat) : str := repeat c n.

(** [f"{n:3d}"]: right-aligned in a field of width three. *)
Definition pad3 (n : N) : str :=
  let d := str_of_N n in
  repeat_char 32%N (3 - length d) ++ d.

(* ================================================================= *)
(** ** Regular expressions

    The two patterns of the source are sequences of quantified
    character classes, matched as [re] does: greedily, giving back one
    character at a time when the rest of the pattern fails. *)

Inductive quant := One | Opt | Star | Plus.

Record item := Item { cls : char -> bool; qt : quant }.

(** A greedy run of [cl]: the longest first, then shorter ones.  The
    result is the text the run took and the captures of the rest. *)
Fixpoint greedy (cl : char -> bool) (k : str -> option (list str)) (s : str)
  : option (str * list str) :=
  let stop := option_map (pair []) (k s) in
  match s with
  | c :: s' =>
      if cl c then
        match greedy cl k s' with
        | Some (m, r) => Some (c :: m, r)
        | None => stop
        end
      else stop
  | [] => stop
  end.

Definition take_one (cl : char -> bool) (k : str -> option (list str)) (s : str)
  : option (list str) :=
  match s with
  | c :: s' => if cl c then option_map (cons [c]) (k s') else None
  | [] => None
  end.

(** Match the items at the start of [s]: the text each item took. *)
Fixpoint match_items (p : list item) (s : str) {struct p} : option (list str) :=
  match p with
  | [] => Some []
  | it :: p' =>
      match qt it with
      | One => take_one (cls it) (match_items p') s
      | Opt =>
          match take_one (cls it) (match_items p') s with
          | Some r => Some r
          | None => option_map (cons []) (match_items p' s)
          end
      | Star =>
          option_map (fun mr => fst mr :: snd mr) (greedy (cls it) (match_items p') s)
      | Plus =>
          match s with
          | c :: s' =>
              if cls it c then
                option_map (fun mr => (c :: fst mr) :: snd mr)
                           (greedy (cls it) (match_items p') s')
              else None
          | [] => None
          end
      end
  end.

(** [re.search]: the match at the least start position, with that
    position. *)
Fixpoint search_from (p : list item) (i : nat) (s : str) : option (nat * list str) :=
  match match_items p s with
  | Some caps => Some (i, caps)
  | None =>
      match s with
      | [] => None
      | _ :: s' => search_from p (S i) s'
      end
  end.

Definition re_search (p : list item) (s : str) : option (nat * list str) :=
  search_from p 0 s.

Definition is_char (c : N) : char -> bool := fun x => (x =? c)%N.

Definition PERCENT : char := 37%N.
Definition DOT : char := 46%N.

(** The pattern of [run_dism_command]: one or more digits, an optional
    point, any number of digits (these three are group 1), then a
    percent sign. *)
Definition dism_pattern : list item :=
  [Item isdecimal Plus; Item (is_char DOT) Opt; Item isdecimal Star;
   Item (is_char PERCENT) One].

(** The pattern of [run_sfc]: one or more digits (group 1), any number
    of white-space characters, then a percent sign. *)
Definition sfc_pattern : list item :=
  [Item isdecimal Plus; Item isspace Star; Item (is_char PERCENT) One].

(** The text of a group made of the first [n] items. *)
Definition group (n : nat) (caps : list str) : str := concat (firstn n caps).

(* ================================================================= *)
(** ** Numbers *)

(** [int(s)] on a run of decimal digits. *)
Definition int_of_digits (s : str) : N :=
  fold_left (fun acc c =>
               (acc * 10 + match digit_value c with Some d => d | None => 0 end)%N)
            s 0%N.

Fixpoint split_dot (s : str) : str * str :=
  match s with
  | [] => ([], [])
  | c :: s' =>
      if (c =? DOT)%N then ([], s')
      else let (a, b) := split_dot s' in (c :: a, b)
  end.

(** A binary64 number is held as the rational number it is, in lowest
    terms; [inf64], which is 2^1024 and the first number above the
    finite ones, stands for [inf].  The program only compares its
    floats and cuts them to integers. *)
Definition inf64 : Q := Qmake (2 ^ 1024) 1.

(** The exponent [e] of a positive rational [n/d]: 2^e <= n/d < 2^(e+1). *)
Definition binade (n d : Z) : Z :=
  let e := (Z.log2 n - Z.log2 d)%Z in
  if (if 0 <=? e then n <? d * 2 ^ e else n * 2 ^ (- e) <? d)%Z
  then (e - 1)%Z else e.

(** The integer nearest to [num/den], the even one of two that are
    equally near. *)
Definition round_half_even (num den : Z) : Z :=
  let m := (num / den)%Z in
  let r := (num mod den)%Z in
  match (2 * r ?= den)%Z with
  | Lt => m
  | Gt => (m + 1)%Z
  | Eq => if Z.even m then m else (m + 1)%Z
  end.

(** The binary64 number nearest to a rational that is not negative,
    ties to the even significand: 53 bits of significand above
    2^(-1022), multiples of 2^(-1074) below, [inf64] from
    2^1024 - 2^970 on. *)
Definition round_binary64 (q : Q) : Q :=
  let n := Qnum q in
  let d := Zpos (Qden q) in
  if (n <=? 0)%Z then 0%Q
  else
    let k := Z.max (binade n d - 52) (-1074) in
    let x := if (0 <=? k)%Z
             then Qmake (round_half_even n (d * 2 ^ k) * 2 ^ k) 1
             else Qred (Qmake (round_half_even (n * 2 ^ (- k)) d) (Z.to_pos (2 ^ (- k)))) in
    if Qle_bool inf64 x then inf64 else x.

(** [float(s)] on digits with at most one decimal point: the binary64
    number nearest to the number the digits denote. *)
Definition float_of_decimal (s : str) : Q :=
  let (ip, fp) := split_dot s in
  round_binary64 (Qmake (Z.of_N (int_of_digits (ip ++ fp)))
                        (Z.to_pos (10 ^ Z.of_nat (length fp)))).

(* ================================================================= *)
(** ** Effects, exceptions and the clock *)

(** What a run does to the outside, in order. *)
Inductive effect :=
| Stdout (s : str)          (* text written to standard output *)
| LogInfo (s : str)         (* logger.info *)
| LogError (s : str)        (* logger.error *)
| Exec (argv : list str).   (* subprocess.Popen *)

(** [print(s)]; standard output is taken to accept every text. *)
Definition print (s : str) : effect := Stdout (s ++ NL).

(** The exceptions a run can meet.  [KeyboardInterrupt] stands for the
    exceptions that do not derive from [Exception]. *)
Inductive exn :=
| TimeoutExpired (cmd : list str) (timeout : nat)
| OSError (msg : str)
| KeyboardInterrupt.

Definition is_Exception (e : exn) : bool :=
  match e with
  | KeyboardInterrupt => false
  | _ => true
  end.

(** [repr] of a list of strings that hold no quote, backslash or
    control character. *)
Definition repr_list (l : list str) : str :=
  lit "[" ++ join (lit ", ") (map (fun a => [39%N] ++ a ++ [39%N]) l) ++ lit "]".

(** [str(e)] *)
Definition exn_str (e : exn) : str :=
  match e with
  | TimeoutExpired cmd t =>
      lit "Command '" ++ repr_list cmd ++ lit "' timed out after "
          ++ str_of_N (N.of_nat t) ++ lit " seconds"
  | OSError msg => msg
  | KeyboardInterrupt => []
  end.

Inductive res (A : Type) :=
| Ok (a : A)
| Raise (e : exn).

Arguments Raise {A} e.

(** A computation starts at a time of the wall clock (in seconds) and
    yields a value or an exception, the effects it had and the time at
    which it ends. *)
Record result (A : Type) := Result {
  outcome : res A;
  trace : list effect;
  clock : nat
}.

Definition io (A : Type) := nat -> result A.

Definition ret {A} (a : A) : io A := fun t => Result (Ok a) [] t.

Definition raise {A} (e : exn) : io A := fun t => Result (Raise e) [] t.

Definition bind {A B} (m : io A) (f : A -> io B) : io B := fun t =>
  let r := m t in
  match outcome r with
  | Ok a =>
      let r' := f a (clock r) in
      Result (outcome r') (trace r ++ trace r') (clock r')
  | Raise e => Result (Raise e) (trace r) (clock r)
  end.

Definition emit (es : list effect) : io unit := fun t => Result (Ok tt) es t.

(** The wall clock advances while a call blocks. *)
Definition sleep (d : nat) : io unit := fun t => Result (Ok tt) [] (t + d).

Definition now : io nat := fun t => Result (Ok t) [] t.

(** [try: m except ...: h]: the handler tells which exceptions it takes. *)
Definition try_except {A} (m : io A) (h : exn -> option (io A)) : io A := fun t =>
  let r := m t in
  match outcome r with
  | Ok _ => r
  | Raise e =>
      match h e with
      | Some n =>
          let r' := n (clock r) in
          Result (outcome r') (trace r ++ trace r') (clock r')
      | None => r
      end
  end.

Declare Scope io_scope.
Delimit Scope io_scope with io.
Notation "x <- m ;; k" := (bind m (fun x => k))
  (at level 61, m at next level, right associativity) : io_scope.
Notation "m ;; k" := (bind m (fun _ => k))
  (at level 61, right associativity) : io_scope.

(* ================================================================= *)
(** ** The child process *)

(** One read of the child's pipe: it blocks for some seconds and then
    returns data or raises. *)
Inductive read_event (A : Type) :=
| Data (blocked : nat) (d : A)
| Fault (blocked : nat) (e : exn).

Arguments Fault {A} blocked e.

(** What a spawned child does: the reads its pipe serves before the end
    of the stream, the seconds it lives and its exit code. *)
Record child (A : Type) := Child {
  output : list (read_event A);
  lifetime : nat;
  exit_code : Z
}.

(** What the operating system answers to a spawn. *)
Inductive spawn (A : Type) :=
| SpawnFails (e : exn)
| Spawns (c : child A).

Arguments SpawnFails {A} e.

(** A [Popen] object. *)
Record process (A : Type) := Process {
  args : list str;
  stdout : option (list (read_event A));
  started : nat;
  running : child A
}.

(** [subprocess.Popen(argv, stdout=PIPE, stderr=STDOUT, ...)]: with
    [stdout=PIPE] the object always has a stream. *)
Definition Popen {A} (argv : list str) (os : spawn A) : io (process A) :=
  (emit [Exec argv] ;;
   match os with
   | SpawnFails e => raise e
   | Spawns c =>
       t <- now ;;
       ret (Process argv (Some (output c)) t c)
   end)%io.

Definition has_exited {A} (p : process A) (t : nat) : bool :=
  started p + lifetime (running p) <=? t.

(** [process.poll()]: [None] while the child runs. *)
Definition poll {A} (p : process A) : io (option Z) :=
  (t <- now ;;
   ret (if has_exited p t then Some (exit_code (running p)) else None))%io.

(** [process.wait(timeout)] on a process whose [returncode] is [rc]:
    it returns at once when the exit code is known, and otherwise
    blocks until the child exits or the timeout has passed. *)
Definition wait {A} (p : process A) (rc : option Z) (timeout : nat) : io Z :=
  match rc with
  | Some code => ret code
  | None =>
      (t <- now ;;
       let ends := started p + lifetime (running p) in
       if ends <=? t + timeout
       then sleep (ends - t) ;; ret (exit_code (running p))
       else sleep timeout ;; raise (TimeoutExpired (args p) timeout))%io
  end.

(* ================================================================= *)
(** ** The progress interpreter of [run_dism_command] *)

Record ProgressState := {
  last_progress : option Q;
  pause_notified : bool
}.

(** [last_progress = None] and [pause_notified = False] *)
Definition initial_state : ProgressState :=
  {| last_progress := None; pause_notified := false |}.

(** The three notifications of the loop. *)
Inductive milestone := PauseExplained | Passed65 | NearlyComplete.

Definition Qltb (x y : Q) : bool := negb (Qle_bool y x).

(** The test [last_progress and last_progress < t]: [None] and [0.0]
    are false. *)
Definition seen_below (last : option Q) (t : Q) : bool :=
  match last with
  | None => false
  | Some l => negb (Qeq_bool l 0%Q) && Qltb l t
  end.

(** The branch the [if]/[elif] chain takes for a progress value. *)
Definition branch (st : ProgressState) (progress : Q) : option milestone :=
  if Qle_bool 62%Q progress && Qle_bool progress 63%Q && negb (pause_notified st)
  then Some PauseExplained
  else if Qle_bool 65%Q progress && seen_below (last_progress st) 65%Q
  then Some Passed65
  else if Qle_bool 90%Q progress && seen_below (last_progress st) 90%Q
  then Some NearlyComplete
  else None.

(** One progress value: the notification and the state afterwards. *)
Definition interpret (st : ProgressState) (progress : Q)
  : ProgressState * option milestone :=
  let m := branch st progress in
  ({| last_progress := Some progress;
      pause_notified :=
        match m with
        | Some PauseExplained => true
        | _ => pause_notified st
        end |}, m).

(** A sequence of progress values: the notification of each update. *)
Fixpoint feed (st : ProgressState) (ps : list Q) : list (option milestone) :=
  match ps with
  | [] => []
  | p :: ps' => snd (interpret st p) :: feed (fst (interpret st p)) ps'
  end.

Definition rule55 : str := repeat_char 61%N 55.
Definition rule50 : str := repeat_char 45%N 50.

Definition pause_log : str := lit "DISM 62.3% component store analysis phase".
Definition passed65_log : str := lit "DISM passed 65%".
Definition at90_log : str := lit "DISM at 90%".

(** What each notification prints and logs. *)
Definition milestone_effects (m : milestone) : list effect :=
  match m with
  | PauseExplained =>
      [ print (NL ++ rule55);
        print (lit "  [NORMAL] Component Store Analysis Phase");
        print (lit "  DISM is checking thousands of system files.");
        print (lit "  This typically takes 10-20 minutes.");
        print (lit "  DO NOT interrupt - progress will resume.");
        print (rule55 ++ NL);
        LogInfo pause_log ]
  | Passed65 =>
      [ print (lit "[PROGRESS] Component check complete - continuing...");
        LogInfo passed65_log ]
  | NearlyComplete =>
      [ print (lit "[PROGRESS] Nearly complete...");
        LogInfo at90_log ]
  end.

Definition notify (m : option milestone) : list effect :=
  match m with
  | Some m => milestone_effects m
  | None => []
  end.

(** The progress of a line of the repair tool: the number of the
    leftmost match of the pattern. *)
Definition dism_progress (line : str) : option Q :=
  match re_search dism_pattern line with
  | Some (_, caps) => Some (float_of_decimal (group 3 caps))
  | None => None
  end.

(** The body of [if is_restore and "%" in line]. *)
Definition monitor (is_restore : bool) (st : ProgressState) (line : str)
  : ProgressState * list effect :=
  if is_restore && contains [PERCENT] line then
    match dism_progress line with
    | Some progress =>
        let (st', m) := interpret st progress in (st', notify m)
    | None => (st, [])
    end
  else (st, []).

(* ================================================================= *)
(** ** The result classifier of [run_dism_command] *)

Inductive dism_category :=
| Healthy
| RepairableCorruptionFound
| CompletedSuccessfully
| Unclassified.

(** The [if]/[elif] chain over the accumulated output. *)
Definition classify_dism (output_text : str) : dism_category :=
  if contains (lit "No component store corruption detected") output_text
  then Healthy
  else if contains (lit "repairable") (lower output_text)
  then RepairableCorruptionFound
  else if contains (lit "successfully repaired") (lower output_text)
          || contains (lit "completed successfully") (lower output_text)
  then CompletedSuccessfully
  else Unclassified.

(** The line each branch of the chain logs. *)
Definition log_dism_result (c : dism_category) : list effect :=
  match c with
  | Healthy => [LogInfo (lit "Result: System is healthy - no corruption detected")]
  | RepairableCorruptionFound =>
      [LogInfo (lit "Result: Component store has repairable corruption")]
  | CompletedSuccessfully => [LogInfo (lit "Result: Operation completed successfully")]
  | Unclassified => []
  end.

(* ================================================================= *)
(** ** [run_dism_command] *)

Definition is_empty {A} (l : list A) : bool :=
  match l with
  | [] => true
  | _ :: _ => false
  end.

(** The locals of the read loop when it ends; [returncode] is the
    attribute of the process object, which [poll] sets. *)
Record dism_locals := DismLocals {
  progress_state : ProgressState;
  output_lines : list str;
  returncode : option Z
}.

(** The [while True] loop over [process.stdout.readline()].  At the end
    of the stream [readline] returns the empty string at once, again
    and again, until [poll] reports the exit: these turns have no
    effect and are taken in one step. *)
Fixpoint dism_loop (is_restore : bool) (p : process str)
         (stream : list (read_event str))
         (st : ProgressState) (lines : list str) {struct stream}
  : io dism_locals :=
  match stream with
  | [] =>
      (t <- now ;;
       sleep (started p + lifetime (running p) - t) ;;
       code <- poll p ;;
       ret (DismLocals st lines code))%io
  | Fault blocked e :: _ => (sleep blocked ;; raise e)%io
  | Data blocked line :: rest =>
      (sleep blocked ;;
       code <- (if is_empty line then poll p else ret None) ;;
       match code with
       | Some _ => ret (DismLocals st lines code)
       | None =>
           if is_empty line then dism_loop is_restore p rest st lines
           else
             let line := strip line in
             emit [print line] ;;
             emit (snd (monitor is_restore st line)) ;;
             dism_loop is_restore p rest
                       (fst (monitor is_restore st line)) (lines ++ [line])
       end)%io
  end.

(** What [run_dism_command] returns: the flag, with the text when
    [capture_output] is set. *)
Inductive dism_return :=
| Flag (success : bool)
| FlagText (success : bool) (text : str).

Definition returned (capture_output : bool) (success : bool) (text : str)
  : dism_return :=
  if capture_output then FlagText success text else Flag success.

Definition restore_guide : list effect :=
  [ print (NL ++ rule55);
    print (lit "  DISM RestoreHealth Progress Guide");
    print rule55;
    print (lit "  0-60%:   Initial scan and analysis");
    print (lit "  62.3%:   Component store check (may pause 10-20 min)");
    print (lit "  65-100%: Repair and cleanup operations");
    print [];
    print (lit "  The pause at 62.3% is NORMAL - please be patient!");
    print rule55;
    LogInfo (lit "DISM RestoreHealth started - 62.3% pause is normal") ].

(** The body of the [try].  [dism_path] is the path of [dism.exe],
    which the source joins from the environment variable SystemRoot. *)
Definition dism_body (dism_path : str) (command_args : list str)
           (is_restore capture_output : bool) (os : spawn str)
  : io dism_return :=
  let full_command := dism_path :: command_args in
  (emit [ print (NL ++ lit "Executing: " ++ join (lit " ") full_command);
          LogInfo (lit "DISM Command: " ++ join (lit " ") full_command) ] ;;
   emit (if is_restore then restore_guide else []) ;;
   p <- Popen full_command os ;;
   emit [ print (NL ++ lit "DISM Output:"); print rule50 ] ;;
   locals <- match stdout p with
             | Some stream => dism_loop is_restore p stream initial_state []
             | None => ret (DismLocals initial_state [] None)
             end ;;
   return_code <- wait p (returncode locals) 3600 ;;
   emit [ print rule50;
          print (lit "Completed with return code: " ++ str_of_Z return_code);
          LogInfo (lit "DISM completed with return code: " ++ str_of_Z return_code) ] ;;
   let output_text := join NL (output_lines locals) in
   emit (log_dism_result (classify_dism output_text)) ;;
   ret (returned capture_output (return_code =? 0)%Z output_text))%io.

(** The two [except] clauses. *)
Definition dism_handler (capture_output : bool) (e : exn)
  : option (io dism_return) :=
  match e with
  | TimeoutExpired _ _ =>
      Some (emit [ print (lit "[ERROR] Operation timed out after 1 hour");
                   LogError (lit "DISM timed out") ] ;;
            ret (returned capture_output false (lit "Timeout")))%io
  | _ =>
      if is_Exception e then
        Some (emit [ print (lit "[ERROR] " ++ exn_str e);
                     LogError (lit "DISM failed: " ++ exn_str e) ] ;;
              ret (returned capture_output false (exn_str e)))%io
      else None
  end.

Definition run_dism_command (dism_path : str) (command_args : list str)
           (is_restore capture_output : bool) (os : spawn str)
  : io dism_return :=
  try_except (dism_body dism_path command_args is_restore capture_output os)
             (dism_handler capture_output).

Definition scan_health (dism_path : str) (os : spawn str) : io dism_return :=
  (emit [ print (NL ++ lit "[SCAN] Scanning Windows System Health...");
          print (lit "This checks for corruption but does not repair.") ] ;;
   run_dism_command dism_path
     [lit "/Online"; lit "/Cleanup-Image"; lit "/ScanHealth"] false true os)%io.

Definition restore_health (dism_path : str) (os : spawn str) : io dism_return :=
  (emit [ print (NL ++ lit "[REPAIR] Repairing Windows System Health...");
          print (lit "This will scan AND repair any corruption found.") ] ;;
   run_dism_command dism_path
     [lit "/Online"; lit "/Cleanup-Image"; lit "/RestoreHealth"] true false os)%io.

(* ================================================================= *)
(** ** The chunk reader of [run_sfc] *)

(** The 16-bit unit of two bytes, low byte first. *)
Definition unit16 (lo hi : Byte.byte) : N := (Byte.to_N lo + 256 * Byte.to_N hi)%N.

Definition is_high_surrogate (u : N) : bool := in_range 55296 56319 u.
Definition is_low_surrogate (u : N) : bool := in_range 56320 57343 u.

Definition join_surrogates (hi lo : N) : char :=
  (65536 + (hi - 55296) * 1024 + (lo - 56320))%N.

(** The codec [utf-16-le] with [errors='ignore']: a low surrogate on
    its own and a high surrogate that no low surrogate follows are
    dropped, and so are a last odd byte and a high surrogate at the end
    of the data. *)
Fixpoint utf16le_ignore (b : bytes) : str :=
  match b with
  | lo :: hi :: rest =>
      let u := unit16 lo hi in
      if is_high_surrogate u then
        match rest with
        | lo2 :: hi2 :: rest2 =>
            if is_low_surrogate (unit16 lo2 hi2)
            then join_surrogates u (unit16 lo2 hi2) :: utf16le_ignore rest2
            else utf16le_ignore rest
        | _ => []
        end
      else if is_low_surrogate u then utf16le_ignore rest
      else u :: utf16le_ignore rest
  | _ => []
  end.

(** [chunk.decode('utf-16-le', errors='ignore')]: with this error
    handler the codec returns a text for every chunk. *)
Definition decode_utf16le (chunk : bytes) : res str := Ok (utf16le_ignore chunk).

(** The [try]/[except] around the decoding, then the removal of the
    null characters.  [utf8_ignore] is the codec of the fallback,
    [chunk.decode('utf-8', errors='ignore')]. *)
Definition read_text (utf8_ignore : bytes -> str) (chunk : bytes) : str :=
  remove_nulls
    match decode_utf16le chunk with
    | Ok text => text
    | Raise _ => utf8_ignore chunk
    end.

(** The byte of a number below 256. *)
Definition byte_of_N (n : N) : Byte.byte :=
  match Byte.of_N (n mod 256) with
  | Some b => b
  | None => Byte.x00
  end.

(** A code point that a text can hold and UTF-16 can encode. *)
Definition is_scalar (c : char) : bool :=
  (c <? 1114112)%N && negb (in_range 55296 57343 c).

(** The UTF-16LE bytes of a text: what a chunk that represents this
    text holds. *)
Fixpoint utf16le_encode (s : str) : bytes :=
  match s with
  | [] => []
  | c :: s' =>
      if (c <? 65536)%N
      then byte_of_N c :: byte_of_N (c / 256) :: utf16le_encode s'
      else
        let v := (c - 65536)%N in
        let hi := (55296 + v / 1024)%N in
        let lo := (56320 + v mod 1024)%N in
        byte_of_N hi :: byte_of_N (hi / 256)
          :: byte_of_N lo :: byte_of_N (lo / 256) :: utf16le_encode s'
  end.

(* ================================================================= *)
(** ** [run_sfc] *)

(** The percentage of a decoded chunk: the number of the leftmost match
    of the pattern.  A read returns at most 1024 bytes, so that the
    numeral has at most 512 digits, which [int] takes in every version
    of the interpreter. *)
Definition sfc_progress (text : str) : option N :=
  match re_search sfc_pattern text with
  | Some (_, caps) => Some (int_of_digits (group 1 caps))
  | None => None
  end.

(** What the interpreter can hold: [sys.maxsize], and the length of the
    longest string it can build before its memory runs out. *)
Record limits := Limits { maxsize : N; memory : N }.

(** The errors of the arithmetic of the bar.  As of [OSError], the
    program sees of them that they are [Exception]s, and their
    messages; the message of [MemoryError] is empty. *)
Definition OverflowError (msg : str) : exn := OSError msg.
Definition MemoryError : exn := OSError [].

(** [a / b] on integers, [a] not negative and [b] positive: the
    binary64 number nearest to the quotient. *)
Definition true_divide (a b : Z) : res Q :=
  let x := round_binary64 (Qmake a (Z.to_pos b)) in
  if Qle_bool inf64 x
  then Raise (OverflowError (lit "integer division result too large for a float"))
  else Ok x.

(** [int(x)] on a float that is not negative. *)
Definition int_of_float (x : Q) : Z := (Qnum x / Zpos (Qden x))%Z.

(** [c * n] on a string of one character.  The memory is taken to run
    out here only, where the text read sets the length. *)
Definition str_times (lim : limits) (c : char) (n : Z) : res str :=
  if (n <=? 0)%Z then Ok []
  else if (Z.of_N (maxsize lim) <? n)%Z
  then Raise (OverflowError (lit "cannot fit 'int' into an index-sized integer"))
  else if (Z.of_N (memory lim) <? n)%Z then Raise MemoryError
  else Ok (repeat_char c (Z.to_nat n)).

(** The progress bar: [bar_width * percent / 100] cut to an integer, as
    many equal signs, the rest of the fifty columns blank.  The
    division and the building of the signs raise on a percentage that
    is large enough. *)
Definition progress_bar (lim : limits) (percent : N) : res str :=
  let bar_width := 50%Z in
  match true_divide (bar_width * Z.of_N percent) 100 with
  | Raise e => Raise e
  | Ok x =>
      let filled := int_of_float x in
      match str_times lim 61%N filled with
      | Raise e => Raise e
      | Ok signs =>
          match str_times lim 32%N (bar_width - filled) with
          | Raise e => Raise e
          | Ok blanks =>
              Ok (CR ++ lit "[" ++ (signs ++ blanks) ++ lit "] "
                     ++ pad3 percent ++ lit "%")
          end
      end
  end.

Record sfc_locals := SfcLocals {
  last_percent : Z;
  result_buffer : str;
  sfc_returncode : option Z
}.

(** What the loop does with the text of one chunk: the percentage seen
    last, the buffer and what is written, or the exception of the
    bar. *)
Definition sfc_chunk (lim : limits) (last : Z) (buffer : str) (text : str)
  : res (Z * str * list effect) :=
  if contains [PERCENT] text then
    match sfc_progress text with
    | Some percent =>
        if negb (Z.of_N percent =? last)%Z
        then match progress_bar lim percent with
             | Ok bar => Ok (Z.of_N percent, buffer, [Stdout bar])
             | Raise e => Raise e
             end
        else Ok (last, buffer, [])
    | None => Ok (last, buffer, [])
    end
  else Ok (last, buffer ++ text, []).

(** The [while True] loop over [process.stdout.read(1024)]; the end of
    the stream is taken as in [dism_loop]. *)
Fixpoint sfc_loop (lim : limits) (utf8_ignore : bytes -> str) (p : process bytes)
         (stream : list (read_event bytes))
         (last : Z) (buffer : str) {struct stream}
  : io sfc_locals :=
  match stream with
  | [] =>
      (t <- now ;;
       sleep (started p + lifetime (running p) - t) ;;
       code <- poll p ;;
       ret (SfcLocals last buffer code))%io
  | Fault blocked e :: _ => (sleep blocked ;; raise e)%io
  | Data blocked chunk :: rest =>
      (sleep blocked ;;
       code <- (if is_empty chunk then poll p else ret None) ;;
       match code with
       | Some _ => ret (SfcLocals last buffer code)
       | None =>
           if is_empty chunk then sfc_loop lim utf8_ignore p rest last buffer
           else
             match sfc_chunk lim last buffer (read_text utf8_ignore chunk) with
             | Raise e => raise e
             | Ok step =>
                 emit (snd step) ;;
                 sfc_loop lim utf8_ignore p rest (fst (fst step)) (snd (fst step))
             end
       end)%io
  end.

(** The lines of the buffer that are printed and kept. *)
Definition keep_line (line : str) : bool :=
  negb (is_empty line)
  && negb (contains (lit "verification") (lower line))
  && negb (contains (lit "complete") (lower line)).

Definition kept_lines (buffer : str) : list str :=
  if is_empty buffer then []
  else filter keep_line (map strip (split_lines buffer)).

(** [final_result]: each kept line followed by a blank. *)
Definition final_result_of (buffer : str) : str :=
  concat (map (fun line => line ++ lit " ") (kept_lines buffer)).

Inductive sfc_category :=
| NoViolations
| RepairedCorruptFiles
| UnrepairedCorruptFiles
| UnclassifiedText (sample : str)
| NoResultText.

(** The [if]/[elif] chain over [final_result]. *)
Definition classify_sfc (final_result : str) : sfc_category :=
  if contains (lit "did not find any integrity violations") (lower final_result)
  then NoViolations
  else if contains (lit "found corrupt files and successfully repaired")
                   (lower final_result)
  then RepairedCorruptFiles
  else if contains (lit "found corrupt files but was unable to fix")
                   (lower final_result)
  then UnrepairedCorruptFiles
  else if negb (is_empty (strip final_result))
  then UnclassifiedText (firstn 200 (strip final_result))
  else NoResultText.

Definition log_sfc_result (c : sfc_category) : list effect :=
  match c with
  | NoViolations => [LogInfo (lit "SFC Result: No integrity violations found")]
  | RepairedCorruptFiles =>
      [LogInfo (lit "SFC Result: Found and repaired corrupt files")]
  | UnrepairedCorruptFiles =>
      [LogInfo (lit "SFC Result: Found corrupt files but could not repair")]
  | UnclassifiedText sample => [LogInfo (lit "SFC Result: " ++ sample)]
  | NoResultText => []
  end.

Definition sfc_command : list str := [lit "sfc"; lit "/scannow"].

(** The body of the [try]. *)
Definition sfc_body (lim : limits) (utf8_ignore : bytes -> str) (os : spawn bytes)
  : io bool :=
  (p <- Popen sfc_command os ;;
   emit [ print (NL ++ lit "SFC Output:"); print rule50 ] ;;
   locals <- match stdout p with
             | Some stream => sfc_loop lim utf8_ignore p stream (-1)%Z []
             | None => ret (SfcLocals (-1)%Z [] None)
             end ;;
   emit [ print [] ] ;;
   emit (map print (kept_lines (result_buffer locals))) ;;
   let final_result := final_result_of (result_buffer locals) in
   return_code <- wait p (sfc_returncode locals) 1800 ;;
   emit [ print rule50;
          print (lit "Completed with return code: " ++ str_of_Z return_code);
          LogInfo (lit "SFC completed with return code: " ++ str_of_Z return_code) ] ;;
   emit (log_sfc_result (classify_sfc final_result)) ;;
   ret (return_code =? 0)%Z)%io.

(** The [except Exception] clause. *)
Definition sfc_handler (e : exn) : option (io bool) :=
  if is_Exception e then
    Some (emit [ print (lit "[ERROR] " ++ exn_str e);
                 LogError (lit "SFC failed: " ++ exn_str e) ] ;;
          ret false)%io
  else None.

Definition run_sfc (lim : limits) (utf8_ignore : bytes -> str) (os : spawn bytes)
  : io bool :=
  (emit [ print (NL ++ lit "[SFC] Running System File Checker...");
          print (lit "This verifies and repairs protected system files.");
          LogInfo (lit "Starting SFC /scannow") ] ;;
   try_except (sfc_body lim utf8_ignore os) sfc_handler)%io.

(* ================================================================= *)
(** ** The vocabulary of the properties *)

Definition milestone_eqb (a b : milestone) : bool :=
  match a, b with
  | PauseExplained, PauseExplained => true
  | Passed65, Passed65 => true
  | NearlyComplete, NearlyComplete => true
  | _, _ => false
  end.

Definition is_fired (m : milestone) (x : option milestone) : bool :=
  match x with
  | Some m' => milestone_eqb m m'
  | None => false
  end.

(** How many updates of a run of the interpreter fired [m]. *)
Definition count_fired (m : milestone) (l : list (option milestone)) : nat :=
  length (filter (is_fired m) l).

(** The notifications of the updates, in order. *)
Fixpoint fired (l : list (option milestone)) : list milestone :=
  match l with
  | [] => []
  | Some m :: l' => m :: fired l'
  | None :: l' => fired l'
  end.

(** The test of the pause branch on the value alone. *)
Definition in_pause_range (p : Q) : bool := Qle_bool 62%Q p && Qle_bool p 63%Q.

(** Consecutive values do not decrease. *)
Fixpoint nondecreasing (ps : list Q) : Prop :=
  match ps with
  | p :: ((q :: _) as rest) => (p <= q)%Q /\ nondecreasing rest
  | _ => True
  end.

(** The notification an effect belongs to: each one ends with a log
    line of its own. *)
Definition milestone_of_effect (e : effect) : option milestone :=
  match e with
  | LogInfo s =>
      if str_eqb s pause_log then Some PauseExplained
      else if str_eqb s passed65_log then Some Passed65
      else if str_eqb s at90_log then Some NearlyComplete
      else None
  | _ => None
  end.

(** The notifications of a trace, in order. *)
Definition notifications (tr : list effect) : list milestone :=
  fired (map milestone_of_effect tr).

(** How many processes a trace spawns. *)
Definition count_exec (tr : list effect) : nat :=
  length (filter (fun e => match e with Exec _ => true | _ => false end) tr).

(** [p] occurs in [s]. *)
Definition occurs (p s : str) : Prop := exists pre post, s = pre ++ p ++ post.

(** [u] is [phrase] in some letter case: each character of [u] has the
    matching character of [phrase] as its lower case. *)
Definition case_variant (u phrase : str) : Prop :=
  Forall2 (fun a b => lower_char a = [b]) u phrase.

Definition healthy_phrase : str := lit "No component store corruption detected".

(** The texts an item of a pattern can take. *)
Definition takes (it : item) (m : str) : Prop :=
  Forall (fun c => cls it c = true) m /\
  match qt it with
  | One => length m = 1
  | Opt => length m <= 1
  | Star => True
  | Plus => 1 <= length m
  end.

(** The pattern matches at the start of [s], its items taking [caps]. *)
Definition matches (p : list item) (s : str) (caps : list str) : Prop :=
  Forall2 takes p caps /\ exists rest, s = concat caps ++ rest.

Definition all_decimal (s : str) : Prop := Forall (fun c => isdecimal c = true) s.

(** Digits, at most one point after them, and digits again. *)
Definition dism_numeral (g : str) : Prop :=
  exists a d b,
    g = a ++ d ++ b /\ a <> [] /\ all_decimal a /\ (d = [] \/ d = [DOT]) /\ all_decimal b.

(** At position [i] of [line] stands the numeral [g] and then a percent
    sign. *)
Definition numeral_percent_at (line : str) (i : nat) (g : str) : Prop :=
  exists pre post,
    line = pre ++ g ++ PERCENT :: post /\ length pre = i /\ dism_numeral g.

(** At position [i] of [text] stand the digits [g], then white space
    (possibly none) and a percent sign. *)
Definition integer_percent_at (text : str) (i : nat) (g : str) : Prop :=
  exists pre ws post,
    text = pre ++ g ++ ws ++ PERCENT :: post /\ length pre = i /\
    g <> [] /\ all_decimal g /\ Forall (fun c => isspace c = true) ws.

(** Every read of the stream returns data that is not empty. *)
Definition all_data {A} (stream : list (read_event (list A))) : Prop :=
  Forall (fun ev => match ev with
                    | Data _ d => d <> []
                    | Fault _ _ => False
                    end) stream.

(** No read of the stream raises. *)
Definition no_fault {A} (stream : list (read_event A)) : Prop :=
  Forall (fun ev => match ev with
                    | Data _ _ => True
                    | Fault _ _ => False
                    end) stream.

(** The lines a stream of data hands to the loop, stripped. *)
Fixpoint lines_of (stream : list (read_event str)) : list str :=
  match stream with
  | [] => []
  | Data _ line :: rest => strip line :: lines_of rest
  | Fault _ _ :: rest => lines_of rest
  end.

(** The progress values the repair run finds in its lines. *)
Fixpoint progress_values (lines : list str) : list Q :=
  match lines with
  | [] => []
  | line :: rest =>
      match (if contains [PERCENT] line then dism_progress line else None) with
      | Some p => p :: progress_values rest
      | None => progress_values rest
      end
  end.

(** The scenario of the specification: the progress values, and a child
    whose lines carry them. *)
Definition scenario : list Q := [10; 40; 125 # 2; 64; 66; 91]%Q.

Definition scenario_child : child str :=
  Child (map (fun line => Data 1 (line ++ NL))
             [ lit "[====       10.0%                  ]";
               lit "[=======    40.0%                  ]";
               lit "[========== 62.5%                  ]";
               lit "[========== 64.0%                  ]";
               lit "[========== 66.0%                  ]";
               lit "[========== 91.0% =========        ]" ])
        6 0%Z.

(** A run of the repair tool prints and logs, in this order: an
    introduction that ends with the spawn, the heading of the output,
    what the loop does, and a footer with the exit code and the result. *)
Definition dism_intro (dism_path : str) (command_args : list str) (is_restore : bool)
  : list effect :=
  let full_command := dism_path :: command_args in
  [ print (NL ++ lit "Executing: " ++ join (lit " ") full_command);
    LogInfo (lit "DISM Command: " ++ join (lit " ") full_command) ]
  ++ (if is_restore then restore_guide else [])
  ++ [ Exec full_command ].

Definition dism_header (dism_path : str) (command_args : list str) (is_restore : bool)
  : list effect :=
  dism_intro dism_path command_args is_restore
  ++ [ print (NL ++ lit "DISM Output:"); print rule50 ].

Definition dism_footer (return_code : Z) (lines : list str) : list effect :=
  [ print rule50;
    print (lit "Completed with return code: " ++ str_of_Z return_code);
    LogInfo (lit "DISM completed with return code: " ++ str_of_Z return_code) ]
  ++ log_dism_result (classify_dism (join NL lines)).

(** What the general handler of [run_dism_command] prints and logs. *)
Definition dism_failure (e : exn) : list effect :=
  [ print (lit "[ERROR] " ++ exn_str e); LogError (lit "DISM failed: " ++ exn_str e) ].

(** The process object of a child spawned at time [t]. *)
Definition spawned {A} (argv : list str) (c : child A) (t : nat) : process A :=
  Process argv (Some (output c)) t c.



(** The result [r] after the effects [es]. *)
Definition prepend {A} (es : list effect) (r : result A) : result A :=
  Result (outcome r) (es ++ trace r) (clock r).

(** A run of the file checker prints and logs, in this order: an
    introduction, the spawn and the heading of the output, what the loop
    does, and a footer with the kept lines, the exit code and the
    result. *)
Definition sfc_intro : list effect :=
  [ print (NL ++ lit "[SFC] Running System File Checker...");
    print (lit "This verifies and repairs protected system files.");
    LogInfo (lit "Starting SFC /scannow") ].

Definition sfc_header : list effect :=
  [ Exec sfc_command; print (NL ++ lit "SFC Output:"); print rule50 ].

Definition sfc_footer (return_code : Z) (buffer : str) : list effect :=
  [ print [] ] ++ map print (kept_lines buffer)
  ++ [ print rule50;
       print (lit "Completed with return code: " ++ str_of_Z return_code);
       LogInfo (lit "SFC completed with return code: " ++ str_of_Z return_code) ]
  ++ log_sfc_result (classify_sfc (final_result_of buffer)).

(** What the handler of [run_sfc] prints and logs. *)
Definition sfc_failure (e : exn) : list effect :=
  [ print (lit "[ERROR] " ++ exn_str e); LogError (lit "SFC failed: " ++ exn_str e) ].

(** The log lines of a trace. *)
Definition logged (tr : list effect) : list effect :=
  filter (fun e => match e with
                   | LogInfo _ | LogError _ => true
                   | _ => false
                   end) tr.

(** The arguments of the repair. *)
Definition restore_args : list str :=
  [lit "/Online"; lit "/Cleanup-Image"; lit "/RestoreHealth"].

(** A repair that streams for 4000 seconds, more than the hour of its
    timeout, and exits with code 0. *)
Definition overrun_child : child str :=
  Child [ Data 4000 (lit "[==========================100.0%==========================]" ++ NL);
          Data 0 (lit "The operation completed successfully." ++ NL) ]
        4000 0%Z.

(** A file check that streams for 2000 seconds, more than the thirty
    minutes of its timeout, and exits with code 0. *)
Definition overrun_sfc_child : child bytes :=
  Child [ Data 2000 (utf16le_encode (lit "Verification 100% complete." ++ NL)) ]
        2000 0%Z.

(** A file check that exits with code 0 and says only that it could not
    fix what it found. *)
Definition unrepaired_child : child bytes :=
  Child [ Data 1 (utf16le_encode (lit "found corrupt files but was unable to fix")) ]
        1 0%Z.

(** A file check that finds nothing and exits with code 1. *)
Definition clean_but_failed_child : child bytes :=
  Child [ Data 1 (utf16le_encode (lit "did not find any integrity violations")) ]
        1 1%Z.

(** A child whose second read fails. *)
Definition failing_child (A : Type) (first : A) (msg : str) : child A :=
  Child [ Data 1 first; Fault 1 (OSError msg); Data 1 first ] 3 0%Z.

(** A line of the file checker with null filler between its words. *)
Definition padded_line : str :=
  lit "Verification" ++ [0%N] ++ lit " 12% complete." ++ [0%N; 0%N].

(** Every character of [m] is in the class [cl]. *)
Definition holds (cl : char -> bool) (m : str) : Prop := Forall (fun c => cl c = true) m.

(** The notifications in the order of the thresholds they belong to. *)
Definition rank (m : milestone) : nat :=
  match m with
  | PauseExplained => 0
  | Passed65 => 1
  | NearlyComplete => 2
  end.

(** Each notification belongs to a higher threshold than the one
    before it. *)
Fixpoint ascending (l : list milestone) : Prop :=
  match l with
  | a :: ((b :: _) as rest) => rank a < rank b /\ ascending rest
  | _ => True
  end.

(** The seconds the reads of a stream block, all together. *)
Fixpoint blocked_total {A} (stream : list (read_event A)) : nat :=
  match stream with
  | [] => 0
  | Data blocked _ :: rest => blocked + blocked_total rest
  | Fault blocked _ :: rest => blocked + blocked_total rest
  end.

(** The block that explains the pause, as it is printed and logged. *)
Definition explanatory_block : list effect :=
  [ print (NL ++ repeat_char 61%N 55);
    print (lit "  [NORMAL] Component Store Analysis Phase");
    print (lit "  DISM is checking thousands of system files.");
    print (lit "  This typically takes 10-20 minutes.");
    print (lit "  DO NOT interrupt - progress will resume.");
    print (repeat_char 61%N 55 ++ NL);
    LogInfo (lit "DISM 62.3% component store analysis phase") ].

(** How often a trace logs the notification [m]. *)
Definition count_notified (m : milestone) (tr : list effect) : nat :=
  length (filter (milestone_eqb m) (notifications tr)).

(** A 64-bit interpreter that can build strings of up to 2^32
    characters. *)
Definition host64 : limits := Limits (2 ^ 63 - 1) (2 ^ 32).

(** No chunk of the stream shows a percentage whose bar cannot be
    drawn. *)
Definition bars_drawn (lim : limits) (utf8_ignore : bytes -> str)
           (stream : list (read_event bytes)) : Prop :=
  Forall (fun ev => match ev with
                    | Data _ chunk =>
                        forall percent,
                          sfc_progress (read_text utf8_ignore chunk) = Some percent ->
                          exists bar, progress_bar lim percent = Ok bar
                    | Fault _ _ => True
                    end) stream.

(** A file check that shows a percentage of twenty digits and exits
    with the code 0. *)
Definition overflowing_child : child bytes :=
  Child [ Data 1 (utf16le_encode (lit "Beginning system scan."));
          Data 1 (utf16le_encode (lit "Verification 99999999999999999999% complete."));
          Data 1 (utf16le_encode
                    (lit "Windows Resource Protection did not find any integrity violations.")) ]
        3 0%Z.

(** The text a stream of chunks leaves in the result buffer: the
    decoded chunks that hold no percent sign, one after the other. *)
Fixpoint result_text (utf8_ignore : bytes -> str) (stream : list (read_event bytes))
  : str :=
  match stream with
  | [] => []
  | Data _ chunk :: rest =>
      (if contains [PERCENT] (read_text utf8_ignore chunk)
       then []
       else read_text utf8_ignore chunk)
      ++ result_text utf8_ignore rest
  | Fault _ _ :: rest => result_text utf8_ignore rest
  end.

(** A file check whose result arrives in the chunk of the last
    percentage. *)
Definition result_with_progress_child : child bytes :=
  Child [ Data 1 (utf16le_encode
                    (lit "Verification 100% complete." ++ NL
                     ++ lit "Windows Resource Protection found corrupt files but was unable to fix some of them.")) ]
        1 0%Z.

(* ================================================================= *)
(** ** The menu: [is_admin], [run_as_admin], [show_menu] and [main] *)

(** What the program does to the outside at the level of the menu: the
    effects of the runs and of [print] and [logger.info], and beside
    them the warnings of the logger and the request for an elevated
    copy of the program. *)
Inductive console :=
| Tool (e : effect)
| LogWarning (s : str)      (* logger.warning *)
| Relaunch.                 (* ShellExecuteW(None, "runas", ...) *)

(** A computation of the menu: as [result], with the warnings. *)
Record session (A : Type) := Session {
  ending : res A;
  history : list console;
  finish : nat
}.

Definition menu (A : Type) := nat -> session A.

Definition mret {A} (a : A) : menu A := fun t => Session (Ok a) [] t.

Definition mraise {A} (e : exn) : menu A := fun t => Session (Raise e) [] t.

Definition mbind {A B} (m : menu A) (f : A -> menu B) : menu B := fun t =>
  let r := m t in
  match ending r with
  | Ok a =>
      let r' := f a (finish r) in
      Session (ending r') (history r ++ history r') (finish r')
  | Raise e => Session (Raise e) (history r) (finish r)
  end.

(** The prints and the info lines of the menu. *)
Definition say (es : list effect) : menu unit := fun t =>
  Session (Ok tt) (map Tool es) t.

(** [logger.warning(s)] *)
Definition warn (s : str) : menu unit := fun t => Session (Ok tt) [LogWarning s] t.

(** A run, seen from the menu. *)
Definition perform {A} (m : io A) : menu A := fun t =>
  let r := m t in Session (outcome r) (map Tool (trace r)) (clock r).

(** A call whose answer the surroundings give. *)
Definition asked {A} (answer : res A) : menu A := fun t => Session answer [] t.

(** [try: m except ...: h] at the level of the menu. *)
Definition mtry {A} (m : menu A) (h : exn -> option (menu A)) : menu A := fun t =>
  let r := m t in
  match ending r with
  | Ok _ => r
  | Raise e =>
      match h e with
      | Some n =>
          let r' := n (finish r) in
          Session (ending r') (history r ++ history r') (finish r')
      | None => r
      end
  end.

Declare Scope menu_scope.
Delimit Scope menu_scope with menu.
Notation "x <- m ;; k" := (mbind m (fun x => k))
  (at level 61, m at next level, right associativity) : menu_scope.
Notation "m ;; k" := (mbind m (fun _ => k))
  (at level 61, right associativity) : menu_scope.

(** What the user does at a prompt: a line and the enter key, or an
    interrupt.  At the end of the list the input is closed. *)
Inductive typed :=
| Line (s : str)
| Interrupt.

(** [EOFError], as its message. *)
Definition EOFError : exn := OSError (lit "EOF when reading a line").

(** [input(prompt)]: the prompt is written, a line is read and handed,
    with what is left of the input, to what follows. *)
Definition input {A} (prompt : str) (keys : list typed)
           (k : str -> list typed -> menu A) : menu A :=
  (say [Stdout prompt] ;;
   match keys with
   | [] => mraise EOFError
   | Interrupt :: _ => mraise KeyboardInterrupt
   | Line s :: rest => k s rest
   end)%menu.

(** [is_admin()]: the answer of [IsUserAnAdmin], and [False], which is
    0, when the call raises anything. *)
Definition is_admin (answer : res Z) : Z :=
  match answer with
  | Ok z => z
  | Raise _ => 0%Z
  end.

(** [not n] on an integer *)
Definition not_Z (z : Z) : bool := (z =? 0)%Z.

(** [ShellExecuteW(None, "runas", ...)]: the request, and the answer of
    the shell. *)
Definition ShellExecuteW (launch : res Z) : menu Z := fun t =>
  Session launch [Relaunch] t.

(** [run_as_admin()].  [sys.exit(code)] is the value [Some code]: it
    raises [SystemExit], which is no [Exception], so that no clause of
    this program takes it, and nothing follows the call in [main]. *)
Definition run_as_admin (answer launch : res Z) (keys : list typed)
  : menu (option Z) :=
  mtry
    (if not_Z (is_admin answer) then
       result <- ShellExecuteW launch ;;
       if (32 <? result)%Z then mret (Some 0%Z)
       else
         say [ print (lit "Failed to get admin privileges.");
               print (lit "Please right-click and 'Run as Administrator'") ] ;;
         input (lit "Press Enter to exit...") keys (fun _ _ => mret (Some 1%Z))
     else mret None)%menu
    (fun e =>
       if is_Exception e
       then Some (say [print (lit "Error: " ++ exn_str e)] ;; mret (Some 1%Z))%menu
       else None).

(** [show_menu()] *)
Definition show_menu : list effect :=
  [ print (NL ++ rule55);
    print (lit "    pydism - Windows DISM Repair Tool");
    print rule55;
    print [];
    print (lit "  1. [SCAN]   Scan Health (check for issues)");
    print (lit "  2. [REPAIR] Restore Health (scan and repair)");
    print (lit "  3. [SFC]    System File Checker");
    print (lit "  4. [FULL]   Full Repair (DISM + SFC)");
    print [];
    print (lit "  0. [EXIT]   Exit");
    print [];
    print (repeat_char 45%N 55) ].

(** The truth of what [run_dism_command] returns: a tuple is true. *)
Definition truth (r : dism_return) : bool :=
  match r with
  | Flag b => b
  | FlagText _ _ => true
  end.

(** [str(b)] *)
Definition str_of_bool (b : bool) : str := if b then lit "True" else lit "False".

(** The four messages of the scan, chosen by the text first and by the
    flag after it. *)
Definition scan_report (success : bool) (output : str) : menu unit :=
  (if contains (lit "No component store corruption detected") output then
     say [ print (NL ++ lit "[SUCCESS] Scan complete - system is healthy!");
           LogInfo (lit "User action: Scan Health - system is healthy") ]
   else if contains (lit "repairable") (lower output) then
     say [ print (NL ++ lit "[NOTICE] Scan complete - minor issues found");
           print (lit "The component store has repairable corruption.");
           print (lit "Run option 2 (Restore Health) to fix it.");
           LogInfo (lit "User action: Scan Health - repairable issues found") ]
   else if success then
     say [ print (NL ++ lit "[SUCCESS] Scan complete");
           LogInfo (lit "User action: Scan Health completed") ]
   else
     say [ print (NL ++ lit "[WARNING] Scan completed with errors") ] ;;
     warn (lit "User action: Scan Health completed with errors"))%menu.

(** Option 1, up to the prompt that ends it. *)
Definition option_scan (dism_path : str) (os : spawn str) : menu unit :=
  (r <- perform (scan_health dism_path os) ;;
   match r with
   | FlagText success output => scan_report success output
   | Flag _ => mraise (OSError (lit "cannot unpack non-iterable bool object"))
   end)%menu.

(** Option 2, up to the prompt that ends it. *)
Definition option_restore (dism_path : str) (os : spawn str) : menu unit :=
  (success <- perform (restore_health dism_path os) ;;
   if truth success then
     say [ print (NL ++ lit "[SUCCESS] Repair complete!");
           print (lit "Consider running option 3 (SFC) as a follow-up");
           LogInfo (lit "User action: Restore Health completed successfully") ]
   else
     say [ print (NL ++ lit "[WARNING] Repair completed with issues");
           print (lit "Check the log file for details") ] ;;
     warn (lit "User action: Restore Health completed with issues"))%menu.

(** Option 3, up to the prompt that ends it. *)
Definition option_sfc (lim : limits) (utf8_ignore : bytes -> str) (os : spawn bytes)
  : menu unit :=
  (success <- perform (run_sfc lim utf8_ignore os) ;;
   if success then
     say [ print (NL ++ lit "[SUCCESS] SFC complete!");
           LogInfo (lit "User action: SFC completed successfully") ]
   else
     say [ print (NL ++ lit "[WARNING] SFC completed with issues") ] ;;
     warn (lit "User action: SFC completed with issues"))%menu.

Definition verdict (success : bool) : str :=
  if success then lit "SUCCESS" else lit "ISSUES".

(** Option 4, up to the prompt that ends it.  The flag of the repair is
    a truth value here, as [restore_health] does not capture the
    output. *)
Definition option_full (lim : limits) (dism_path : str) (utf8_ignore : bytes -> str)
           (os : spawn str) (os' : spawn bytes) : menu unit :=
  (say [ print (NL ++ lit "[FULL] Running Full Repair Sequence...");
         LogInfo (lit "User action: Starting Full Repair (DISM + SFC)");
         print (lit "Step 1/2: DISM Restore Health") ] ;;
   dism_success <- perform (restore_health dism_path os) ;;
   say [ print (NL ++ lit "Step 2/2: System File Checker") ] ;;
   sfc_success <- perform (run_sfc lim utf8_ignore os') ;;
   say [ print (NL ++ rule55);
         print (lit "  Full Repair Summary");
         print rule55;
         print (lit "  DISM Restore Health: " ++ verdict (truth dism_success));
         print (lit "  System File Checker: " ++ verdict sfc_success);
         print rule55 ] ;;
   if truth dism_success && sfc_success then
     say [ print (NL ++ lit "[SUCCESS] Full repair completed successfully!");
           print (lit "A restart is recommended.");
           LogInfo (lit "User action: Full Repair completed successfully") ]
   else
     say [ print (NL ++ lit "[WARNING] Repair completed with some issues");
           print (lit "Check the log file for details") ] ;;
     warn (lit "User action: Full Repair completed - DISM: "
             ++ str_of_bool (truth dism_success)
             ++ lit ", SFC: " ++ str_of_bool sfc_success))%menu.

(** The [while True] loop of [main].  [dism_runs n] and [sfc_runs n]
    are what the operating system answers to the spawn number [n] of
    each tool; [nd] and [ns] count the spawns so far. *)
Fixpoint menu_loop (lim : limits) (dism_path : str) (utf8_ignore : bytes -> str)
         (dism_runs : nat -> spawn str) (sfc_runs : nat -> spawn bytes)
         (keys : list typed) (nd ns : nat) {struct keys} : menu unit :=
  (say show_menu ;;
   input (lit "Select option: ") keys (fun answer keys1 =>
       let choice := strip answer in
       let continue (m : menu unit) (nd' ns' : nat) : menu unit :=
           (m ;;
            input (NL ++ lit "Press Enter to continue...") keys1 (fun _ keys2 =>
              menu_loop lim dism_path utf8_ignore dism_runs sfc_runs keys2 nd' ns'))%menu in
       if str_eqb choice (lit "0") then
         say [ print (NL ++ lit "Exiting pydism...");
               LogInfo (lit "pydism session ended") ]
       else if str_eqb choice (lit "1") then
         continue (option_scan dism_path (dism_runs nd)) (S nd) ns
       else if str_eqb choice (lit "2") then
         continue (option_restore dism_path (dism_runs nd)) (S nd) ns
       else if str_eqb choice (lit "3") then
         continue (option_sfc lim utf8_ignore (sfc_runs ns)) nd (S ns)
       else if str_eqb choice (lit "4") then
         continue (option_full lim dism_path utf8_ignore (dism_runs nd) (sfc_runs ns))
                  (S nd) (S ns)
       else
         say [ print (NL ++ lit "Invalid option. Please try again.") ] ;;
         menu_loop lim dism_path utf8_ignore dism_runs sfc_runs keys1 nd ns))%menu.

(** What the program finds around it. *)
Record surroundings := {
  admin_answer : res Z;              (* IsUserAnAdmin(), asked by main *)
  admin_again : res Z;               (* IsUserAnAdmin(), asked by run_as_admin *)
  launch_answer : res Z;             (* ShellExecuteW(..., "runas", ...) *)
  log_file : res str;                (* setup_logging(): the path, or the error *)
  keys_typed : list typed;           (* the standard input *)
  dism_spawns : nat -> spawn str;
  sfc_spawns : nat -> spawn bytes
}.

(** [main()].  It returns [None], or [Some code] when [sys.exit] ends
    the program. *)
Definition main (lim : limits) (dism_path : str) (utf8_ignore : bytes -> str)
           (env : surroundings) : menu (option Z) :=
  (say [ print (lit "pydism - Windows DISM Repair Tool");
         print (lit "Checking privileges...") ] ;;
   if not_Z (is_admin (admin_answer env)) then
     say [ print (lit "Requesting admin privileges...") ] ;;
     run_as_admin (admin_again env) (launch_answer env) (keys_typed env)
   else
     path <- asked (log_file env) ;;
     say [ LogInfo (lit "pydism started with admin privileges");
           print (NL ++ lit "[OK] Running as Administrator");
           print (lit "[OK] Log file: " ++ path) ] ;;
     menu_loop lim dism_path utf8_ignore (dism_spawns env) (sfc_spawns env)
               (keys_typed env) 0 0 ;;
     mret None)%menu.

(* ================================================================= *)
(** ** The vocabulary of the menu *)

(** The session [s] after the entries [h]. *)
Definition before {A} (h : list console) (s : session A) : session A :=
  Session (ending s) (h ++ history s) (finish s).

(** The commands a session starts, in order. *)
Definition commands (h : list console) : list (list str) :=
  flat_map (fun x => match x with
                     | Tool (Exec argv) => [argv]
                     | _ => []
                     end) h.

(** The warnings a session logs, in order. *)
Definition warnings (h : list console) : list str :=
  flat_map (fun x => match x with
                     | LogWarning s => [s]
                     | _ => []
                     end) h.

(** How often a session asks for an elevated copy of the program. *)
Definition relaunches (h : list console) : nat :=
  length (filter (fun x => match x with Relaunch => true | _ => false end) h).

(** The arguments of the scan. *)
Definition scan_args : list str :=
  [lit "/Online"; lit "/Cleanup-Image"; lit "/ScanHealth"].

(** The answer chooses one of the four options that start a tool. *)
Definition tool_choice (answer : str) : bool :=
  str_eqb (strip answer) (lit "1") || str_eqb (strip answer) (lit "2")
  || str_eqb (strip answer) (lit "3") || str_eqb (strip answer) (lit "4").


(* ================================================================= *)
(** ** Scenarios of the menu *)

(** A scan that finds the store healthy and exits with the code 1. *)
Definition healthy_but_failed_scan : child str :=
  Child [ Data 1 (lit "No component store corruption detected." ++ NL) ] 1 1%Z.

(** A repair that exits with the code 2 after one line. *)
Definition failed_repair : child str :=
  Child [ Data 1 (lit "Error: 2" ++ NL) ] 1 2%Z.

(** The surroundings of a process to which [IsUserAnAdmin] answers
    [admin] and at whose input [keys] are typed: the shell refuses the
    elevated copy with the code 5, every run of the servicing tool is
    [failed_repair] and every file check [unrepaired_child]. *)
Definition desk (admin : Z) (keys : list typed) : surroundings :=
  {| admin_answer := Ok admin;
     admin_again := Ok admin;
     launch_answer := Ok 5%Z;
     log_file := Ok (lit "pydism_log_20240101_120000.txt");
     keys_typed := keys;
     dism_spawns := fun _ => Spawns failed_repair;
     sfc_spawns := fun _ => Spawns unrepaired_child |}.

(* ================================================================= *)
(** * Properties *)

(* ================================================================= *)
(** ** The progress interpreter *)

Lemma branch_pause (st : ProgressState) (p : Q) :
  branch st p = Some PauseExplained <->
  in_pause_range p = true /\ pause_notified st = false.
Proof.
  unfold branch, in_pause_range.
  destruct (Qle_bool 62 p && Qle_bool p 63), (pause_notified st); simpl;
    repeat match goal with
           | |- context [if ?b then _ else _] => destruct b
           end; intuition congruence.
Qed.

Lemma above65_not_pause (p : Q) : Qle_bool 65 p = true -> Qle_bool p 63 = false.
Proof.
  intros H65. apply not_true_is_false; intros H63.
  apply Qle_bool_iff in H65, H63.
  apply (Qle_trans _ _ _ H65) in H63.
  unfold Qle in H63; simpl in H63; lia.
Qed.

Lemma branch_passed65 (st : ProgressState) (p : Q) :
  branch st p = Some Passed65 <->
  Qle_bool 65 p = true /\ seen_below (last_progress st) 65 = true.
Proof.
  unfold branch.
  destruct (Qle_bool 65 p) eqn:H65.
  - rewrite (above65_not_pause _ H65), andb_false_r; simpl.
    destruct (seen_below (last_progress st) 65); simpl;
      repeat match goal with
             | |- context [if ?b then _ else _] => destruct b
             end; intuition congruence.
  - simpl.
    repeat match goal with
           | |- context [if ?b then _ else _] => destruct b
           end; intuition congruence.
Qed.

Lemma count_fired_cons (m : milestone) (x : option milestone) l :
  count_fired m (x :: l) = (if is_fired m x then 1 else 0) + count_fired m l.
Proof. unfold count_fired; simpl. now destruct (is_fired m x). Qed.

(** From any state, the pause is explained once when the flag is down
    and a value lands in the range, and not at all otherwise. *)
Lemma pause_count (ps : list Q) : forall st,
  count_fired PauseExplained (feed st ps) =
  if pause_notified st then 0 else if existsb in_pause_range ps then 1 else 0.
Proof.
  induction ps as [|p ps IH]; intros st.
  - simpl. now destruct (pause_notified st).
  - cbn [feed existsb]. rewrite count_fired_cons, IH.
    cbn [interpret fst snd pause_notified].
    destruct (branch st p) as [m|] eqn:Hb.
    + destruct m; cbn [is_fired milestone_eqb].
      * apply branch_pause in Hb as [-> ->]. reflexivity.
      * destruct (pause_notified st) eqn:Hn; [reflexivity|].
        destruct (in_pause_range p) eqn:Hr; [|reflexivity].
        assert (branch st p = Some PauseExplained) by now apply branch_pause.
        congruence.
      * destruct (pause_notified st) eqn:Hn; [reflexivity|].
        destruct (in_pause_range p) eqn:Hr; [|reflexivity].
        assert (branch st p = Some PauseExplained) by now apply branch_pause.
        congruence.
    + cbn [is_fired]. destruct (pause_notified st) eqn:Hn; [reflexivity|].
      destruct (in_pause_range p) eqn:Hr; [|reflexivity].
      assert (branch st p = Some PauseExplained) by now apply branch_pause.
      congruence.
Qed.

Lemma seen_below_ge (l t : Q) : (t <= l)%Q -> seen_below (Some l) t = false.
Proof.
  intros H. unfold seen_below, Qltb.
  apply Qle_bool_iff in H. rewrite H. apply andb_false_r.
Qed.

Lemma seen_below_spec (last : option Q) (t : Q) :
  seen_below last t = true <->
  exists l, last = Some l /\ ~ (l == 0)%Q /\ (l < t)%Q.
Proof.
  unfold seen_below, Qltb. destruct last as [l|].
  - rewrite andb_true_iff, !negb_true_iff. split.
    + intros [H0 Hlt]. exists l. split; [reflexivity|]. split.
      * intros E. apply Qeq_bool_iff in E. congruence.
      * apply Qnot_le_lt. intros Hle. apply Qle_bool_iff in Hle. congruence.
    + intros (l' & E & H0 & Hlt). injection E as <-. split.
      * apply not_true_is_false. intros E. apply Qeq_bool_iff in E. contradiction.
      * apply not_true_is_false. intros Hle. apply Qle_bool_iff in Hle.
        exact (Qlt_not_le _ _ Hlt Hle).
  - split; [discriminate|]. intros (l & E & _). discriminate.
Qed.

(** Once a value of 65 or more is stored, values that do not decrease
    never fire the message of 65 again. *)
Lemma passed65_after (ps : list Q) : forall st l,
  last_progress st = Some l -> (65 <= l)%Q -> nondecreasing (l :: ps) ->
  count_fired Passed65 (feed st ps) = 0.
Proof.
  induction ps as [|p ps IH]; intros st l Hl H65 Hnd; [reflexivity|].
  cbn [feed]. rewrite count_fired_cons.
  destruct Hnd as [Hlp Hnd].
  rewrite (IH (fst (interpret st p)) p);
    [| reflexivity | now apply Qle_trans with l | exact Hnd].
  cbn [interpret snd].
  destruct (branch st p) as [[]|] eqn:Hb; try reflexivity.
  apply branch_passed65 in Hb as [_ Hb].
  rewrite Hl, seen_below_ge in Hb; congruence.
Qed.

Lemma passed65_at_most_once (ps : list Q) : forall st,
  nondecreasing ps -> count_fired Passed65 (feed st ps) <= 1.
Proof.
  induction ps as [|p ps IH]; intros st Hnd; [unfold count_fired; simpl; lia|].
  cbn [feed]. rewrite count_fired_cons.
  assert (Hrest : nondecreasing ps) by (destruct ps; [exact I | apply Hnd]).
  cbn [interpret snd].
  destruct (is_fired Passed65 (branch st p)) eqn:Hf.
  - destruct (branch st p) as [[]|] eqn:Hb; try discriminate.
    apply branch_passed65 in Hb as [Hb _]. apply Qle_bool_iff in Hb.
    rewrite (@passed65_after ps _ p); [simpl; lia | reflexivity | exact Hb | ].
    destruct ps; [exact I|]. split; [apply Hnd | apply Hnd].
  - exact (IH (fst (interpret st p)) Hrest).
Qed.

(** C1, as the code has it.  The message of 65 fires only on an update
    whose value is at least 65 while the stored previous value is
    present and below 65, and it fires on every such update whose
    stored value is not zero; over values that do not decrease it fires
    at most once; the first update of a run, which has no stored value,
    never fires it. *)
Theorem passed65_rule (st : ProgressState) (p : Q) (ps : list Q) :
  (snd (interpret st p) = Some Passed65 ->
   (65 <= p)%Q /\ exists l, last_progress st = Some l /\ (l < 65)%Q)
  /\ (forall l, last_progress st = Some l -> ~ (l == 0)%Q -> (l < 65)%Q ->
                (65 <= p)%Q -> snd (interpret st p) = Some Passed65)
  /\ (nondecreasing ps -> count_fired Passed65 (feed st ps) <= 1)
  /\ snd (interpret initial_state p) <> Some Passed65.
Proof.
  cbn [interpret snd]. repeat split.
  - apply branch_passed65 in H as [H _]. now apply Qle_bool_iff.
  - apply branch_passed65 in H as [_ H].
    apply seen_below_spec in H as (l & E & _ & Hlt). now exists l.
  - intros l E H0 Hlt H65. apply branch_passed65. split.
    + now apply Qle_bool_iff.
    + apply seen_below_spec. now exists l.
  - apply passed65_at_most_once.
  - intros H. apply branch_passed65 in H as [_ H]. discriminate H.
Qed.

Lemma passed65_rule_witness :
  snd (interpret {| last_progress := Some 64%Q; pause_notified := true |} 66%Q)
  = Some Passed65
  /\ count_fired Passed65 (feed initial_state scenario) <= 1.
Proof.
  split.
  - refine (proj1 (proj2 (passed65_rule
                            {| last_progress := Some 64%Q; pause_notified := true |}
                            66%Q [])) 64%Q eq_refl _ _ _);
      [discriminate | reflexivity | discriminate].
  - refine (proj1 (proj2 (proj2 (passed65_rule initial_state 0%Q scenario))) _).
    cbn; repeat split; discriminate.
Defined.

(** C1, as stated, fails: a value that falls back below 65 and rises
    again fires the message a second time. *)
Lemma passed65_fires_twice :
  count_fired Passed65 (feed initial_state [60; 70; 60; 70]%Q) = 2.
Proof. reflexivity. Qed.

(** A stored value of zero counts as absent: the message does not fire
    on the step from 0 to 70. *)
Example passed65_after_zero :
  feed initial_state [0; 70]%Q = [None; None].
Proof. reflexivity. Qed.

(* ================================================================= *)
(** ** The loop and the run of the repair tool *)

Lemma bind_emit {B} (es : list effect) (k : unit -> io B) (t : nat) :
  bind (emit es) k t = prepend es (k tt t).
Proof. reflexivity. Qed.

Lemma bind_ret {A B} (a : A) (k : A -> io B) (t : nat) :
  bind (ret a) k t = prepend [] (k a t).
Proof. reflexivity. Qed.

Lemma bind_sleep {B} (d : nat) (k : unit -> io B) (t : nat) :
  bind (sleep d) k t = prepend [] (k tt (t + d)).
Proof. reflexivity. Qed.

Lemma bind_now {B} (k : nat -> io B) (t : nat) :
  bind now k t = prepend [] (k t t).
Proof. reflexivity. Qed.

Lemma bind_result {A B} (m : io A) (k : A -> io B) (t : nat) :
  bind m k t =
  match outcome (m t) with
  | Ok a => prepend (trace (m t)) (k a (clock (m t)))
  | Raise e => Result (Raise e) (trace (m t)) (clock (m t))
  end.
Proof. reflexivity. Qed.

Lemma prepend_nil {A} (r : result A) : prepend [] r = r.
Proof. now destruct r. Qed.

Lemma prepend_prepend {A} (a b : list effect) (r : result A) :
  prepend a (prepend b r) = prepend (a ++ b) r.
Proof. unfold prepend; cbn [outcome trace clock]. now rewrite app_assoc. Qed.

Lemma prepend_result {A} (es : list effect) (o : res A) tr c :
  prepend es (Result o tr c) = Result o (es ++ tr) c.
Proof. reflexivity. Qed.

Lemma poll_eq {A} (p : process A) (t : nat) :
  poll p t =
  Result (Ok (if has_exited p t then Some (exit_code (running p)) else None)) [] t.
Proof. reflexivity. Qed.

Lemma dism_loop_data r p w line rest st lines t : line <> [] ->
  dism_loop r p (Data w line :: rest) st lines t =
  prepend (print (strip line) :: snd (monitor r st (strip line)))
          (dism_loop r p rest (fst (monitor r st (strip line)))
                     (lines ++ [strip line]) (t + w)).
Proof.
  intros Hne. destruct line as [|c line]; [congruence|].
  cbn [dism_loop is_empty].
  rewrite bind_sleep, bind_ret, !bind_emit, !prepend_nil, prepend_prepend.
  reflexivity.
Qed.

Lemma dism_loop_end r p st lines t :
  dism_loop r p [] st lines t =
  Result (Ok (DismLocals st lines (Some (exit_code (running p))))) []
         (t + (started p + lifetime (running p) - t)).
Proof.
  cbn [dism_loop].
  rewrite bind_now, bind_sleep, bind_result, poll_eq, !prepend_nil.
  cbn [outcome trace clock]. unfold has_exited.
  replace (started p + lifetime (running p) <=? t + (started p + lifetime (running p) - t))
    with true by (symmetry; apply Nat.leb_le; lia).
  reflexivity.
Qed.

Lemma dism_loop_empty r p w rest st lines t :
  dism_loop r p (Data w [] :: rest) st lines t =
  if has_exited p (t + w)
  then Result (Ok (DismLocals st lines (Some (exit_code (running p))))) [] (t + w)
  else dism_loop r p rest st lines (t + w).
Proof.
  cbn [dism_loop is_empty].
  rewrite bind_sleep, bind_result, poll_eq, !prepend_nil.
  cbn [outcome trace clock].
  destruct (has_exited p (t + w)).
  - reflexivity.
  - apply prepend_nil.
Qed.

Lemma dism_loop_fault r p w e rest st lines t :
  dism_loop r p (Fault w e :: rest) st lines t = Result (Raise e) [] (t + w).
Proof. reflexivity. Qed.

(** The loop ends with the exit code known, or with the exception of a
    read. *)
Lemma dism_loop_outcome r p stream : forall st lines t,
  match outcome (dism_loop r p stream st lines t) with
  | Ok locals => returncode locals = Some (exit_code (running p))
  | Raise e => exists w, In (Fault w e) stream
  end.
Proof.
  induction stream as [|[w line|w e] rest IH]; intros st lines t.
  - rewrite dism_loop_end. reflexivity.
  - destruct line as [|c line].
    + rewrite dism_loop_empty. destruct (has_exited p (t + w)); [reflexivity|].
      specialize (IH st lines (t + w)).
      destruct (outcome (dism_loop r p rest st lines (t + w))); [exact IH|].
      destruct IH as [w' H]. exists w'. now right.
    + rewrite dism_loop_data by discriminate. cbn [prepend outcome].
      specialize (IH (fst (monitor r st (strip (c :: line))))
                     (lines ++ [strip (c :: line)]) (t + w)).
      destruct (outcome _); [exact IH|].
      destruct IH as [w' H]. exists w'. now right.
  - rewrite dism_loop_fault. exists w. now left.
Qed.

Lemma Popen_spawns {A} (argv : list str) (c : child A) (t : nat) :
  Popen argv (Spawns c) t = Result (Ok (spawned argv c t)) [Exec argv] t.
Proof. reflexivity. Qed.

Lemma Popen_fails {A} (argv : list str) (e : exn) (t : nat) :
  Popen argv (@SpawnFails A e) t = Result (Raise e) [Exec argv] t.
Proof. reflexivity. Qed.

Lemma dism_body_spawn_fails path args r cap e t :
  dism_body path args r cap (SpawnFails e) t =
  Result (Raise e) (dism_intro path args r) t.
Proof.
  unfold dism_body, dism_intro. cbv zeta.
  rewrite !bind_emit, bind_result, Popen_fails. cbn [outcome trace clock].
  rewrite !prepend_result. reflexivity.
Qed.

Lemma dism_body_spawns path args r cap c t :
  dism_body path args r cap (Spawns c) t =
  let L := dism_loop r (spawned (path :: args) c t) (output c) initial_state [] t in
  match outcome L with
  | Ok locals =>
      Result (Ok (returned cap (exit_code c =? 0)%Z (join NL (output_lines locals))))
             (dism_header path args r ++ trace L
                ++ dism_footer (exit_code c) (output_lines locals))
             (clock L)
  | Raise e => Result (Raise e) (dism_header path args r ++ trace L) (clock L)
  end.
Proof.
  unfold dism_body, dism_header, dism_intro, dism_footer. cbv zeta.
  rewrite !bind_emit, bind_result, Popen_spawns. cbn [outcome trace clock].
  rewrite bind_emit, bind_result. cbn [spawned stdout].
  fold (spawned (path :: args) c t).
  pose proof (dism_loop_outcome r (spawned (path :: args) c t) (output c)
                                initial_state [] t) as H.
  destruct (dism_loop r (spawned (path :: args) c t) (output c) initial_state [] t)
    as [[locals|e] tr k]; cbn [outcome trace clock] in *.
  - rewrite H. cbn [wait]. rewrite bind_ret, !bind_emit.
    unfold ret. rewrite !prepend_nil, !prepend_prepend, prepend_result.
    cbn [spawned running].
    f_equal; rewrite <- ?app_assoc, ?app_nil_r; reflexivity.
  - rewrite !prepend_prepend, prepend_result.
    f_equal; rewrite <- ?app_assoc, ?app_nil_r; reflexivity.
Qed.



Lemma run_dism_spawn_fails path args r cap e t :
  run_dism_command path args r cap (SpawnFails e) t =
  match dism_handler cap e with
  | Some h => prepend (dism_intro path args r) (h t)
  | None => Result (Raise e) (dism_intro path args r) t
  end.
Proof.
  unfold run_dism_command, try_except. rewrite dism_body_spawn_fails.
  cbn [outcome trace clock]. reflexivity.
Qed.

Lemma run_dism_spawns path args r cap c t :
  run_dism_command path args r cap (Spawns c) t =
  let L := dism_loop r (spawned (path :: args) c t) (output c) initial_state [] t in
  match outcome L with
  | Ok locals =>
      Result (Ok (returned cap (exit_code c =? 0)%Z (join NL (output_lines locals))))
             (dism_header path args r ++ trace L
                ++ dism_footer (exit_code c) (output_lines locals))
             (clock L)
  | Raise e =>
      match dism_handler cap e with
      | Some h => prepend (dism_header path args r ++ trace L) (h (clock L))
      | None => Result (Raise e) (dism_header path args r ++ trace L) (clock L)
      end
  end.
Proof.
  unfold run_dism_command, try_except. rewrite dism_body_spawns. cbv zeta.
  destruct (outcome (dism_loop r (spawned (path :: args) c t) (output c)
                               initial_state [] t)); reflexivity.
Qed.

(** What the handlers of [run_dism_command] do does not depend on the
    time. *)
Lemma dism_handler_eq cap e h :
  dism_handler cap e = Some h ->
  forall t,
    h t = Result (Ok (returned cap false
                               match e with
                               | TimeoutExpired _ _ => lit "Timeout"
                               | _ => exn_str e
                               end))
                 match e with
                 | TimeoutExpired _ _ =>
                     [ print (lit "[ERROR] Operation timed out after 1 hour");
                       LogError (lit "DISM timed out") ]
                 | _ => dism_failure e
                 end
                 t.
Proof.
  unfold dism_handler. destruct e; cbn [is_Exception]; intros H t;
    inversion H; reflexivity.
Qed.


Lemma all_data_no_fault {A} (stream : list (read_event (list A))) w e :
  all_data stream -> ~ In (Fault w e) stream.
Proof.
  intros H Hin. unfold all_data in H. rewrite Forall_forall in H.
  exact (H _ Hin).
Qed.

Lemma fired_app (a b : list (option milestone)) : fired (a ++ b) = fired a ++ fired b.
Proof.
  induction a as [|[m|] a IH]; simpl; [reflexivity | now rewrite IH | exact IH].
Qed.

Lemma notifications_app (a b : list effect) :
  notifications (a ++ b) = notifications a ++ notifications b.
Proof. unfold notifications. now rewrite map_app, fired_app. Qed.

Lemma notifications_notify (m : option milestone) : notifications (notify m) = fired [m].
Proof. destruct m as [[]|]; vm_compute; reflexivity. Qed.

Lemma notifications_print (s : str) (tr : list effect) :
  notifications (print s :: tr) = notifications tr.
Proof. reflexivity. Qed.

(** The notifications of the monitored loop are those of the
    interpreter over the values of the lines. *)
Lemma dism_loop_notifications p stream :
  all_data stream -> forall st lines t,
  notifications (trace (dism_loop true p stream st lines t)) =
  fired (feed st (progress_values (lines_of stream))).
Proof.
  induction 1 as [|[w line|w e] rest Hev Hrest IH]; intros st lines t.
  - rewrite dism_loop_end. reflexivity.
  - rewrite dism_loop_data by exact Hev. cbn [prepend trace].
    rewrite <- app_comm_cons, notifications_print, notifications_app, IH.
    cbn [lines_of progress_values]. unfold monitor. cbn [andb].
    destruct (contains [PERCENT] (strip line)); [|reflexivity].
    destruct (dism_progress (strip line)) as [v|]; [|reflexivity].
    cbn [feed]. destruct (interpret st v) as [st' m]. cbn [fst snd].
    rewrite notifications_notify. destruct m; reflexivity.
  - destruct Hev.
Qed.

Lemma notifications_header path args r : notifications (dism_header path args r) = [].
Proof. destruct r; vm_compute; reflexivity. Qed.

Lemma notifications_footer code lines : notifications (dism_footer code lines) = [].
Proof.
  unfold dism_footer. rewrite notifications_app.
  destruct (classify_dism (join NL lines)); reflexivity.
Qed.

(** A run of the repair tool whose reads all return text notifies as
    the interpreter does from its initial state. *)
Lemma run_dism_notifications path args cap (c : child str) t :
  all_data (output c) ->
  notifications (trace (run_dism_command path args true cap (Spawns c) t)) =
  fired (feed initial_state (progress_values (lines_of (output c)))).
Proof.
  intros Hd. rewrite run_dism_spawns. cbv zeta.
  pose proof (dism_loop_outcome true (spawned (path :: args) c t) (output c)
                                initial_state [] t) as Ho.
  pose proof (dism_loop_notifications (spawned (path :: args) c t) Hd
                                      initial_state [] t) as Hn.
  destruct (dism_loop true (spawned (path :: args) c t) (output c) initial_state [] t)
    as [[locals|e] tr k]; cbn [outcome trace clock] in *.
  - rewrite !notifications_app, notifications_header, notifications_footer, Hn.
    now rewrite app_nil_r.
  - destruct Ho as [w Hin]. now apply all_data_no_fault in Hin.
Qed.

Lemma count_exec_app (a b : list effect) :
  count_exec (a ++ b) = count_exec a + count_exec b.
Proof. unfold count_exec. now rewrite filter_app, length_app. Qed.

Lemma count_exec_monitor r st line : count_exec (snd (monitor r st line)) = 0.
Proof.
  unfold monitor. destruct (r && contains [PERCENT] line); [|reflexivity].
  destruct (dism_progress line) as [v|]; [|reflexivity].
  destruct (interpret st v) as [st' [[]|]]; reflexivity.
Qed.

Lemma dism_loop_no_exec r p stream : forall st lines t,
  count_exec (trace (dism_loop r p stream st lines t)) = 0.
Proof.
  induction stream as [|[w line|w e] rest IH]; intros st lines t.
  - rewrite dism_loop_end. reflexivity.
  - destruct line as [|c line].
    + rewrite dism_loop_empty. destruct (has_exited p (t + w)); [reflexivity | apply IH].
    + rewrite dism_loop_data by discriminate. cbn [prepend trace].
      change (print ?s :: ?l) with ([print s] ++ l).
      now rewrite !count_exec_app, count_exec_monitor, IH.
  - reflexivity.
Qed.

Lemma count_exec_intro path args r : count_exec (dism_intro path args r) = 1.
Proof. destruct r; reflexivity. Qed.

Lemma count_exec_footer code lines : count_exec (dism_footer code lines) = 0.
Proof.
  unfold dism_footer. rewrite count_exec_app.
  destruct (classify_dism (join NL lines)); reflexivity.
Qed.

(** Every run of the repair tool spawns one process. *)
Lemma run_dism_spawns_once path args r cap os t :
  count_exec (trace (run_dism_command path args r cap os t)) = 1.
Proof.
  destruct os as [e|c].
  - rewrite run_dism_spawn_fails. destruct (dism_handler cap e) as [h|] eqn:Hh.
    + rewrite (dism_handler_eq _ _ Hh). cbn [prepend trace].
      rewrite count_exec_app, count_exec_intro. destruct e; reflexivity.
    + apply count_exec_intro.
  - rewrite run_dism_spawns. cbv zeta.
    pose proof (dism_loop_no_exec r (spawned (path :: args) c t) (output c)
                                  initial_state [] t) as Hn.
    destruct (dism_loop r (spawned (path :: args) c t) (output c) initial_state [] t)
      as [[locals|e] tr k]; cbn [outcome trace clock] in *.
    + unfold dism_header.
      now rewrite !count_exec_app, count_exec_intro, count_exec_footer, Hn.
    + unfold dism_header.
      destruct (dism_handler cap e) as [h|] eqn:Hh.
      * rewrite (dism_handler_eq _ _ Hh). cbn [prepend trace].
        rewrite !count_exec_app, count_exec_intro, Hn. destruct e; reflexivity.
      * cbn [trace]. now rewrite !count_exec_app, count_exec_intro, Hn.
Qed.

(* ================================================================= *)
(** ** The loop and the run of the file checker *)

Lemma sfc_loop_end lim u p last buffer t :
  sfc_loop lim u p [] last buffer t =
  Result (Ok (SfcLocals last buffer (Some (exit_code (running p))))) []
         (t + (started p + lifetime (running p) - t)).
Proof.
  cbn [sfc_loop].
  rewrite bind_now, bind_sleep, bind_result, poll_eq, !prepend_nil.
  cbn [outcome trace clock]. unfold has_exited.
  replace (started p + lifetime (running p) <=? t + (started p + lifetime (running p) - t))
    with true by (symmetry; apply Nat.leb_le; lia).
  reflexivity.
Qed.

Lemma sfc_loop_empty lim u p w rest last buffer t :
  sfc_loop lim u p (Data w [] :: rest) last buffer t =
  if has_exited p (t + w)
  then Result (Ok (SfcLocals last buffer (Some (exit_code (running p))))) [] (t + w)
  else sfc_loop lim u p rest last buffer (t + w).
Proof.
  cbn [sfc_loop is_empty].
  rewrite bind_sleep, bind_result, poll_eq, !prepend_nil.
  cbn [outcome trace clock].
  destruct (has_exited p (t + w)).
  - reflexivity.
  - apply prepend_nil.
Qed.

Lemma sfc_loop_data lim u p w chunk rest last buffer t : chunk <> [] ->
  sfc_loop lim u p (Data w chunk :: rest) last buffer t =
  match sfc_chunk lim last buffer (read_text u chunk) with
  | Ok step =>
      prepend (snd step)
              (sfc_loop lim u p rest (fst (fst step)) (snd (fst step)) (t + w))
  | Raise e => Result (Raise e) [] (t + w)
  end.
Proof.
  intros Hne. destruct chunk as [|b chunk]; [congruence|].
  cbn [sfc_loop is_empty]. cbv zeta.
  rewrite bind_sleep, bind_ret, !prepend_nil.
  destruct (sfc_chunk lim last buffer (read_text u (b :: chunk))) as [step|e].
  - now rewrite bind_emit.
  - reflexivity.
Qed.

Lemma sfc_loop_fault lim u p w e rest last buffer t :
  sfc_loop lim u p (Fault w e :: rest) last buffer t = Result (Raise e) [] (t + w).
Proof. reflexivity. Qed.

(** A chunk raises only through the bar of its percentage. *)
Lemma sfc_chunk_raises lim last buffer text e :
  sfc_chunk lim last buffer text = Raise e ->
  exists percent, sfc_progress text = Some percent /\ progress_bar lim percent = Raise e.
Proof.
  unfold sfc_chunk. destruct (contains [PERCENT] text); [|discriminate].
  destruct (sfc_progress text) as [percent|]; [|discriminate].
  destruct (negb (Z.of_N percent =? last)%Z); [|discriminate].
  destruct (progress_bar lim percent) as [bar|e'] eqn:Hb; [discriminate|].
  intros H. inversion H; subst. now exists percent.
Qed.

Lemma bars_drawn_chunk lim u w chunk rest last buffer :
  bars_drawn lim u (Data w chunk :: rest) ->
  exists step, sfc_chunk lim last buffer (read_text u chunk) = Ok step.
Proof.
  intros H. inversion H as [|ev l Hc Hrest]; subst.
  destruct (sfc_chunk lim last buffer (read_text u chunk)) as [step|e] eqn:E;
    [now exists step|].
  apply sfc_chunk_raises in E. destruct E as (percent & Hp & Hb).
  destruct (Hc percent Hp) as [bar Hbar]. congruence.
Qed.

Lemma bars_drawn_tail lim u ev rest :
  bars_drawn lim u (ev :: rest) -> bars_drawn lim u rest.
Proof. intros H. now inversion H. Qed.

(** The loop ends with the exit code known, or with the exception of a
    read, or with that of a bar. *)
Lemma sfc_loop_outcome lim u p stream : forall last buffer t,
  match outcome (sfc_loop lim u p stream last buffer t) with
  | Ok locals => sfc_returncode locals = Some (exit_code (running p))
  | Raise e =>
      (exists w, In (Fault w e) stream)
      \/ (exists w chunk percent,
             In (Data w chunk) stream
             /\ sfc_progress (read_text u chunk) = Some percent
             /\ progress_bar lim percent = Raise e)
  end.
Proof.
  induction stream as [|[w chunk|w e] rest IH]; intros last buffer t.
  - rewrite sfc_loop_end. reflexivity.
  - destruct chunk as [|b chunk].
    + rewrite sfc_loop_empty. destruct (has_exited p (t + w)); [reflexivity|].
      specialize (IH last buffer (t + w)).
      destruct (outcome (sfc_loop lim u p rest last buffer (t + w))); [exact IH|].
      destruct IH as [[w' H]|(w' & ch & pc & H & Hp)].
      * left. exists w'. now right.
      * right. exists w', ch, pc. split; [now right | exact Hp].
    + rewrite sfc_loop_data by discriminate.
      destruct (sfc_chunk lim last buffer (read_text u (b :: chunk))) as [step|e] eqn:E.
      * cbn [prepend outcome].
        specialize (IH (fst (fst step)) (snd (fst step)) (t + w)).
        destruct (outcome _); [exact IH|].
        destruct IH as [[w' H]|(w' & ch & pc & H & Hp)].
        -- left. exists w'. now right.
        -- right. exists w', ch, pc. split; [now right | exact Hp].
      * cbn [outcome]. right. apply sfc_chunk_raises in E.
        destruct E as (percent & Hp & Hb).
        exists w, (b :: chunk), percent. split; [now left | now split].
  - rewrite sfc_loop_fault. left. exists w. now left.
Qed.

(** Without a fault and with bars that can be drawn the loop ends with
    the exit code. *)
Lemma sfc_loop_returns lim u p stream last buffer t :
  no_fault stream -> bars_drawn lim u stream ->
  exists locals,
    outcome (sfc_loop lim u p stream last buffer t) = Ok locals
    /\ sfc_returncode locals = Some (exit_code (running p)).
Proof.
  intros Hn Hb.
  pose proof (sfc_loop_outcome lim u p stream last buffer t) as H.
  destruct (outcome (sfc_loop lim u p stream last buffer t)) as [locals|e].
  - now exists locals.
  - exfalso. destruct H as [[w Hin]|(w & chunk & percent & Hin & Hp & He)].
    + unfold no_fault in Hn. rewrite Forall_forall in Hn. exact (Hn _ Hin).
    + unfold bars_drawn in Hb. rewrite Forall_forall in Hb.
      destruct (Hb _ Hin percent Hp) as [bar Hbar]. congruence.
Qed.

Lemma sfc_body_spawn_fails lim u e t :
  sfc_body lim u (SpawnFails e) t = Result (Raise e) [Exec sfc_command] t.
Proof. reflexivity. Qed.

Lemma sfc_body_spawns lim u c t :
  sfc_body lim u (Spawns c) t =
  let L := sfc_loop lim u (spawned sfc_command c t) (output c) (-1)%Z [] t in
  match outcome L with
  | Ok locals =>
      Result (Ok (exit_code c =? 0)%Z)
             (sfc_header ++ trace L ++ sfc_footer (exit_code c) (result_buffer locals))
             (clock L)
  | Raise e => Result (Raise e) (sfc_header ++ trace L) (clock L)
  end.
Proof.
  unfold sfc_body, sfc_header, sfc_footer. cbv zeta.
  rewrite bind_result, Popen_spawns. cbn [outcome trace clock].
  rewrite bind_emit, bind_result. cbn [spawned stdout].
  fold (spawned sfc_command c t).
  pose proof (sfc_loop_outcome lim u (spawned sfc_command c t) (output c) (-1)%Z [] t) as H.
  destruct (sfc_loop lim u (spawned sfc_command c t) (output c) (-1)%Z [] t)
    as [[locals|e] tr k]; cbn [outcome trace clock] in *.
  - rewrite !bind_emit, bind_result. rewrite H. cbn [wait].
    unfold ret at 1. cbn [outcome trace clock]. rewrite !bind_emit.
    unfold ret. rewrite !prepend_nil, !prepend_prepend, prepend_result.
    cbn [spawned running].
    f_equal; rewrite <- ?app_assoc, ?app_nil_r; reflexivity.
  - rewrite !prepend_prepend, prepend_result.
    f_equal; rewrite <- ?app_assoc, ?app_nil_r; reflexivity.
Qed.

Lemma run_sfc_eq lim u os t :
  run_sfc lim u os t =
  match outcome (sfc_body lim u os t) with
  | Ok b => prepend sfc_intro (sfc_body lim u os t)
  | Raise e =>
      if is_Exception e
      then Result (Ok false) (sfc_intro ++ trace (sfc_body lim u os t) ++ sfc_failure e)
                  (clock (sfc_body lim u os t))
      else prepend sfc_intro (sfc_body lim u os t)
  end.
Proof.
  unfold run_sfc. rewrite bind_emit. fold sfc_intro.
  unfold try_except, sfc_handler, sfc_failure.
  destruct (sfc_body lim u os t) as [[b|e] tr k]; cbn [outcome trace clock].
  - reflexivity.
  - destruct (is_Exception e); reflexivity.
Qed.

Lemma no_fault_In {A} (stream : list (read_event A)) w e :
  no_fault stream -> ~ In (Fault w e) stream.
Proof.
  intros H Hin. unfold no_fault in H. rewrite Forall_forall in H.
  exact (H _ Hin).
Qed.

(** When no read raises and every bar can be drawn, the flag of the
    file checker is the test of the exit code. *)
Lemma run_sfc_flag lim u c t :
  no_fault (output c) -> bars_drawn lim u (output c) ->
  outcome (run_sfc lim u (Spawns c) t) = Ok (exit_code c =? 0)%Z.
Proof.
  intros Hnf Hb. rewrite run_sfc_eq, sfc_body_spawns. cbv zeta.
  destruct (@sfc_loop_returns lim u (spawned sfc_command c t) (output c) (-1)%Z [] t
                              Hnf Hb) as (locals & Ho & _).
  destruct (sfc_loop lim u (spawned sfc_command c t) (output c) (-1)%Z [] t)
    as [o tr k]; cbn [outcome trace clock] in *. subst o. reflexivity.
Qed.

(* ================================================================= *)
(** ** The scenario, and runs that start afresh *)

(** C5. Fed 10, 40, 62.5, 64, 66 and 91, the interpreter explains the
    pause on 62.5, reports the passing of 65 on 66 and the approach of
    the end on 91, and notifies of nothing else; a repair that reads
    lines with these values prints and logs these three notifications,
    in this order. *)
Theorem scenario_notifications (dism_path : str) :
  feed initial_state scenario =
    [None; None; Some PauseExplained; None; Some Passed65; Some NearlyComplete]
  /\ progress_values (lines_of (output scenario_child)) = scenario
  /\ notifications (trace (restore_health dism_path (Spawns scenario_child) 0)) =
       [PauseExplained; Passed65; NearlyComplete].
Proof. repeat split; vm_compute; reflexivity. Qed.

Lemma scenario_all_data : all_data (output scenario_child).
Proof. repeat constructor; discriminate. Qed.



(* ================================================================= *)
(** ** The explanation of the pause in a run *)

Lemma fired_count (m : milestone) (l : list (option milestone)) :
  length (filter (milestone_eqb m) (fired l)) = count_fired m l.
Proof.
  unfold count_fired. induction l as [|[m'|] l IH]; [reflexivity| |exact IH].
  cbn [fired filter is_fired]. destruct (milestone_eqb m m'); cbn [length]; now rewrite IH.
Qed.

Lemma monitor_notifies r st line : exists m, snd (monitor r st line) = notify m.
Proof.
  unfold monitor. destruct (r && contains [PERCENT] line); [|now exists None].
  destruct (dism_progress line) as [v|]; [|now exists None].
  destruct (interpret st v) as [st' m]. now exists m.
Qed.

(** Where the monitored loop logs the pause, the whole block stands in
    its trace. *)
Lemma dism_loop_block p stream :
  all_data stream -> forall st lines t,
  In PauseExplained (notifications (trace (dism_loop true p stream st lines t))) ->
  exists pre post,
    trace (dism_loop true p stream st lines t)
    = pre ++ milestone_effects PauseExplained ++ post.
Proof.
  induction 1 as [|[w line|w e] rest Hev Hrest IH]; intros st lines t.
  - rewrite dism_loop_end. intros [].
  - rewrite dism_loop_data by exact Hev. cbn [prepend trace].
    rewrite <- app_comm_cons, notifications_print, notifications_app.
    destruct (monitor_notifies true st (strip line)) as [m Hm]. rewrite Hm.
    rewrite notifications_notify. intros Hin. apply in_app_or in Hin.
    destruct Hin as [Hin|Hin].
    + destruct m as [m|]; [|destruct Hin]. destruct Hin as [->|[]].
      exists [print (strip line)]. eexists. cbn [notify app]. reflexivity.
    + destruct (IH _ _ _ Hin) as (pre & post & E). rewrite E.
      exists (print (strip line) :: notify m ++ pre), post.
      cbn [app]. now rewrite <- !app_assoc.
  - destruct Hev.
Qed.

Lemma counted_in (m : milestone) (l : list milestone) :
  length (filter (milestone_eqb m) l) = 1 -> In m l.
Proof.
  induction l as [|x l IH]; [discriminate|]. cbn [filter].
  destruct (milestone_eqb m x) eqn:E.
  - intros _. left. destruct m, x; try discriminate; reflexivity.
  - intros H. right. now apply IH.
Qed.

(** C4. For every progress sequence whose consecutive values do not
    decrease, the pause notification fires exactly once when some value
    lies in the closed range from 62 to 63 and never when none does; in
    no case does it fire twice.  A repair whose lines carry these values
    logs the explanation as often, once or never, and where it logs it
    the whole block, its six printed lines and the log line, stands in
    what the run has written.  ([pause_count] shows that the order of
    the values plays no part.) *)
Theorem pause_fires_once (ps : list Q) :
  nondecreasing ps ->
  ((existsb in_pause_range ps = true ->
    count_fired PauseExplained (feed initial_state ps) = 1)
   /\ (existsb in_pause_range ps = false ->
       count_fired PauseExplained (feed initial_state ps) = 0)
   /\ count_fired PauseExplained (feed initial_state ps) <= 1)
  /\ (forall (dism_path : str) (command_args : list str) (capture_output : bool)
             (c : child str) (t : nat),
         all_data (output c) ->
         progress_values (lines_of (output c)) = ps ->
         let r := run_dism_command dism_path command_args true capture_output
                                   (Spawns c) t in
         (existsb in_pause_range ps = true ->
          count_notified PauseExplained (trace r) = 1
          /\ exists pre post, trace r = pre ++ explanatory_block ++ post)
         /\ (existsb in_pause_range ps = false ->
             count_notified PauseExplained (trace r) = 0)
         /\ count_notified PauseExplained (trace r) <= 1).
Proof.
  intros _.
  assert (Hi : (existsb in_pause_range ps = true ->
                count_fired PauseExplained (feed initial_state ps) = 1)
               /\ (existsb in_pause_range ps = false ->
                   count_fired PauseExplained (feed initial_state ps) = 0)
               /\ count_fired PauseExplained (feed initial_state ps) <= 1).
  { rewrite pause_count. cbn [initial_state pause_notified].
    destruct (existsb in_pause_range ps); repeat split; intros; try congruence; lia. }
  split; [exact Hi|].
  intros dism_path command_args capture_output c t Hd Hps r.
  assert (Hn : count_notified PauseExplained (trace r)
               = count_fired PauseExplained (feed initial_state ps)).
  { unfold count_notified, r.
    rewrite (@run_dism_notifications dism_path command_args capture_output c t Hd), Hps.
    apply fired_count. }
  destruct Hi as (H1 & H0 & Hle). rewrite Hn.
  split; [|split; [exact H0 | exact Hle]].
  intros Hex. split; [exact (H1 Hex)|].
  assert (Hin : In PauseExplained (notifications (trace r))).
  { apply counted_in. fold (count_notified PauseExplained (trace r)).
    rewrite Hn. exact (H1 Hex). }
  revert Hin. unfold r. rewrite run_dism_spawns. cbv zeta.
  pose proof (dism_loop_outcome true (spawned (dism_path :: command_args) c t) (output c)
                                initial_state [] t) as Ho.
  pose proof (@dism_loop_block (spawned (dism_path :: command_args) c t) (output c) Hd
                               initial_state [] t) as Hb.
  destruct (dism_loop true (spawned (dism_path :: command_args) c t) (output c)
                      initial_state [] t) as [[locals|e] tr k];
    cbn [outcome trace clock] in *.
  - rewrite !notifications_app, notifications_header, notifications_footer, app_nil_r.
    cbn [app]. intros Hin. destruct (Hb Hin) as (pre & post & ->).
    exists (dism_header dism_path command_args true ++ pre).
    exists (post ++ dism_footer (exit_code c) (output_lines locals)).
    change explanatory_block with (milestone_effects PauseExplained).
    now rewrite <- !app_assoc.
  - destruct Ho as [w Hf]. now apply all_data_no_fault in Hf.
Qed.

Lemma pause_fires_once_witness :
  nondecreasing scenario
  /\ all_data (output scenario_child)
  /\ progress_values (lines_of (output scenario_child)) = scenario
  /\ existsb in_pause_range scenario = true
  /\ count_fired PauseExplained (feed initial_state scenario) = 1
  /\ count_notified PauseExplained
       (trace (run_dism_command (lit "dism.exe") restore_args true false
                                (Spawns scenario_child) 0)) = 1.
Proof.
  assert (H : nondecreasing scenario).
  { cbn; repeat split; discriminate. }
  assert (Hv : progress_values (lines_of (output scenario_child)) = scenario)
    by (vm_compute; reflexivity).
  split; [exact H|]. split; [exact scenario_all_data|]. split; [exact Hv|].
  split; [reflexivity|].
  destruct (@pause_fires_once scenario H) as [(H1 & _) Hrun].
  split; [exact (H1 eq_refl)|].
  exact (proj1 (proj1 (Hrun (lit "dism.exe") restore_args false scenario_child 0
                            scenario_all_data Hv) eq_refl)).
Defined.


(* ================================================================= *)
(** ** Timeouts *)

(** When no read raises, the repair run ends normally and its flag is
    the test of the exit code, however long the reads block. *)
Lemma run_dism_flag path args r cap (c : child str) t :
  no_fault (output c) ->
  exists text,
    outcome (run_dism_command path args r cap (Spawns c) t) =
    Ok (returned cap (exit_code c =? 0)%Z text).
Proof.
  intros Hnf. rewrite run_dism_spawns. cbv zeta.
  pose proof (dism_loop_outcome r (spawned (path :: args) c t) (output c)
                                initial_state [] t) as H.
  destruct (dism_loop r (spawned (path :: args) c t) (output c) initial_state [] t)
    as [[locals|e] tr k]; cbn [outcome trace clock] in *.
  - now exists (join NL (output_lines locals)).
  - destruct H as [w Hin]. now apply no_fault_In in Hin.
Qed.

(** C3, where the code departs from it.  A repair that streams for 4000
    seconds and a file check that streams for 2000 seconds, both longer
    than their timeouts, end after that time with the flag up and no
    error logged: the timeout bounds only the wait after the loop, and
    the loop ends when the child has exited. *)
Theorem overrun_returns_success (dism_path : str) (utf8_ignore : bytes -> str) :
  let repair := run_dism_command dism_path restore_args true true
                                 (Spawns overrun_child) 0 in
  let check := run_sfc host64 utf8_ignore (Spawns overrun_sfc_child) 0 in
  (exists text, outcome repair = Ok (FlagText true text) /\ text <> lit "Timeout")
  /\ clock repair = 4000 /\ 3600 < clock repair
  /\ outcome check = Ok true
  /\ clock check = 2000 /\ 1800 < clock check
  /\ filter (fun e => match e with LogError _ => true | _ => false end)
            (trace repair ++ trace check) = [].
Proof.
  cbv zeta. split.
  - eexists. split; [vm_compute; reflexivity | vm_compute; discriminate].
  - repeat split; try (vm_compute; reflexivity); vm_compute; lia.
Qed.

(* ================================================================= *)
(** ** The flag and the result of the file checker *)

(** C8. The flag of a file check in which no read raises, and in which
    the bar of every percentage shown can be drawn, is the test of the
    exit code, whatever its text.  With exit code 0 and the text that
    says only that corrupt files could not be fixed, the run returns
    true and logs the result of unrepaired corrupt files; with exit
    code 1 and a text that reports no violation, it returns false and
    logs that no violation was found. *)
Theorem sfc_flag_ignores_result (lim : limits) (utf8_ignore : bytes -> str) :
  (forall (c : child bytes) (t : nat),
      no_fault (output c) -> bars_drawn lim utf8_ignore (output c) ->
      outcome (run_sfc lim utf8_ignore (Spawns c) t) = Ok (exit_code c =? 0)%Z)
  /\ outcome (run_sfc lim utf8_ignore (Spawns unrepaired_child) 0) = Ok true
  /\ classify_sfc
       (final_result_of (lit "found corrupt files but was unable to fix"))
     = UnrepairedCorruptFiles
  /\ logged (trace (run_sfc lim utf8_ignore (Spawns unrepaired_child) 0)) =
       [ LogInfo (lit "Starting SFC /scannow");
         LogInfo (lit "SFC completed with return code: 0");
         LogInfo (lit "SFC Result: Found corrupt files but could not repair") ]
  /\ outcome (run_sfc lim utf8_ignore (Spawns clean_but_failed_child) 0) = Ok false
  /\ logged (trace (run_sfc lim utf8_ignore (Spawns clean_but_failed_child) 0)) =
       [ LogInfo (lit "Starting SFC /scannow");
         LogInfo (lit "SFC completed with return code: 1");
         LogInfo (lit "SFC Result: No integrity violations found") ].
Proof.
  split; [intros c t; apply run_sfc_flag|].
  repeat split; vm_compute; reflexivity.
Qed.

Lemma sfc_flag_ignores_result_witness :
  no_fault (output unrepaired_child)
  /\ bars_drawn host64 (fun _ => []) (output unrepaired_child)
  /\ outcome (run_sfc host64 (fun _ => []) (Spawns unrepaired_child) 5) = Ok true.
Proof.
  assert (H : no_fault (output unrepaired_child)) by (repeat constructor).
  assert (Hb : bars_drawn host64 (fun _ => []) (output unrepaired_child)).
  { repeat constructor. intros percent Hp. vm_compute in Hp. discriminate. }
  split; [exact H|]. split; [exact Hb|].
  exact (proj1 (sfc_flag_ignores_result host64 (fun _ => [])) unrepaired_child 5 H Hb).
Defined.

(* ================================================================= *)
(** ** Exceptions *)

Lemma dism_loop_reaches_fault r p (pre : list (read_event str)) w e post :
  all_data pre -> forall st lines t,
  outcome (dism_loop r p (pre ++ Fault w e :: post) st lines t) = Raise e.
Proof.
  induction 1 as [|[w' line|w' e'] rest Hev Hrest IH]; intros st lines t.
  - reflexivity.
  - cbn [app]. rewrite dism_loop_data by exact Hev. cbn [prepend outcome]. apply IH.
  - destruct Hev.
Qed.

Lemma sfc_loop_reaches_fault lim u p (pre : list (read_event bytes)) w e post :
  all_data pre -> bars_drawn lim u pre -> forall last buffer t,
  outcome (sfc_loop lim u p (pre ++ Fault w e :: post) last buffer t) = Raise e.
Proof.
  induction 1 as [|[w' chunk|w' e'] rest Hev Hrest IH]; intros Hb last buffer t.
  - reflexivity.
  - cbn [app]. rewrite sfc_loop_data by exact Hev.
    destruct (@bars_drawn_chunk lim u w' chunk rest last buffer Hb) as [step ->].
    cbn [prepend outcome]. apply IH. exact (bars_drawn_tail Hb).
  - destruct Hev.
Qed.

Lemma count_exec_map_print (l : list str) : count_exec (map print l) = 0.
Proof. induction l; [reflexivity | exact IHl]. Qed.

Lemma count_exec_sfc_chunk lim last buffer text step :
  sfc_chunk lim last buffer text = Ok step -> count_exec (snd step) = 0.
Proof.
  unfold sfc_chunk. destruct (contains [PERCENT] text);
    [|intros H; inversion H; reflexivity].
  destruct (sfc_progress text) as [n|]; [|intros H; inversion H; reflexivity].
  destruct (negb (Z.of_N n =? last)%Z); [|intros H; inversion H; reflexivity].
  destruct (progress_bar lim n); intros H; inversion H; reflexivity.
Qed.

Lemma sfc_loop_no_exec lim u p stream : forall last buffer t,
  count_exec (trace (sfc_loop lim u p stream last buffer t)) = 0.
Proof.
  induction stream as [|[w chunk|w e] rest IH]; intros last buffer t.
  - rewrite sfc_loop_end. reflexivity.
  - destruct chunk as [|b chunk].
    + rewrite sfc_loop_empty. destruct (has_exited p (t + w)); [reflexivity | apply IH].
    + rewrite sfc_loop_data by discriminate.
      destruct (sfc_chunk lim last buffer (read_text u (b :: chunk))) as [step|e] eqn:E;
        [|reflexivity].
      cbn [prepend trace].
      now rewrite count_exec_app, (count_exec_sfc_chunk _ _ _ _ E), IH.
  - reflexivity.
Qed.

Lemma count_exec_sfc_footer code buffer : count_exec (sfc_footer code buffer) = 0.
Proof.
  unfold sfc_footer. rewrite !count_exec_app, count_exec_map_print.
  destruct (classify_sfc (final_result_of buffer)); reflexivity.
Qed.

(** Every run of the file checker spawns one process. *)
Lemma run_sfc_spawns_once lim u os t : count_exec (trace (run_sfc lim u os t)) = 1.
Proof.
  rewrite run_sfc_eq. destruct os as [e|c].
  - rewrite sfc_body_spawn_fails. cbn [outcome trace clock prepend].
    destruct (is_Exception e); reflexivity.
  - rewrite sfc_body_spawns. cbv zeta.
    pose proof (sfc_loop_no_exec lim u (spawned sfc_command c t) (output c) (-1)%Z [] t)
      as Hn.
    destruct (sfc_loop lim u (spawned sfc_command c t) (output c) (-1)%Z [] t)
      as [[locals|e] tr k]; cbn [outcome trace clock prepend] in *.
    + now rewrite !count_exec_app, Hn, count_exec_sfc_footer.
    + destruct (is_Exception e); cbn [trace prepend];
        rewrite !count_exec_app, Hn; reflexivity.
Qed.

(** C9, as amended.  An error of the operating system at the spawn, or
    at a read that follows reads of data whose bars can be drawn, does
    not leave the runner: the run returns the flag false, its last
    effects are the message printed and logged as an error, and in
    every run, failed or not, one process is spawned.  The message is
    part of what is returned only when the output of the repair tool is
    captured: without it, and from the file checker, the value returned
    is the same whatever the message. *)
Theorem os_errors_are_caught (dism_path : str) (command_args : list str)
        (is_restore capture_output : bool) (lim : limits)
        (utf8_ignore : bytes -> str) (msg : str) (t blocked life : nat) (code : Z)
        (lines after : list (read_event str))
        (chunks after' : list (read_event bytes)) :
  all_data lines -> all_data chunks -> bars_drawn lim utf8_ignore chunks ->
  let e := OSError msg in
  let run := run_dism_command dism_path command_args is_restore capture_output in
  run (SpawnFails e) t =
    Result (Ok (returned capture_output false msg))
           (dism_intro dism_path command_args is_restore ++ dism_failure e) t
  /\ (exists tr k,
         run (Spawns (Child (lines ++ Fault blocked e :: after) life code)) t =
         Result (Ok (returned capture_output false msg)) (tr ++ dism_failure e) k)
  /\ run_sfc lim utf8_ignore (SpawnFails e) t =
       Result (Ok false) (sfc_intro ++ [Exec sfc_command] ++ sfc_failure e) t
  /\ (exists tr k,
         run_sfc lim utf8_ignore
                 (Spawns (Child (chunks ++ Fault blocked e :: after') life code)) t =
         Result (Ok false) (tr ++ sfc_failure e) k)
  /\ (forall os, count_exec (trace (run os t)) = 1)
  /\ (forall os, count_exec (trace (run_sfc lim utf8_ignore os t)) = 1)
  /\ (capture_output = false ->
      forall msg', outcome (run (SpawnFails (OSError msg')) t)
                   = outcome (run (SpawnFails e) t))
  /\ (forall msg', outcome (run_sfc lim utf8_ignore (SpawnFails (OSError msg')) t)
                   = outcome (run_sfc lim utf8_ignore (SpawnFails e) t)).
Proof.
  intros Hl Hc Hb e run. subst e run.
  split; [|split; [|split; [|split; [|split; [|split; [|split]]]]]].
  - rewrite run_dism_spawn_fails. reflexivity.
  - rewrite run_dism_spawns. cbv zeta. cbn [output].
    match goal with
    | |- context [dism_loop ?r ?p ?s ?st ?l ?t'] =>
        pose proof (@dism_loop_reaches_fault r p lines blocked (OSError msg) after
                                             Hl st l t') as Ho;
        revert Ho; destruct (dism_loop r p s st l t') as [o tr k]
    end.
    cbn [outcome trace clock]. intros ->. cbn [dism_handler is_Exception].
    eexists. eexists. reflexivity.
  - rewrite run_sfc_eq, sfc_body_spawn_fails. reflexivity.
  - rewrite run_sfc_eq, sfc_body_spawns. cbv zeta. cbn [output].
    match goal with
    | |- context [sfc_loop lim ?u ?p ?s ?a ?b ?t'] =>
        pose proof (@sfc_loop_reaches_fault lim u p chunks blocked (OSError msg) after'
                                            Hc Hb a b t') as Ho;
        revert Ho; destruct (sfc_loop lim u p s a b t') as [o tr k]
    end.
    cbn [outcome trace clock]. intros ->. cbn [is_Exception outcome trace clock].
    eexists. eexists. rewrite app_assoc. reflexivity.
  - intros os. apply run_dism_spawns_once.
  - intros os. apply run_sfc_spawns_once.
  - intros -> msg'. rewrite !run_dism_spawn_fails. reflexivity.
  - intros msg'. rewrite !run_sfc_eq, !sfc_body_spawn_fails. reflexivity.
Qed.

Lemma os_errors_are_caught_witness :
  all_data [Data 1 (lit "Deployment Image Servicing and Management tool" ++ NL)]
  /\ all_data [Data 1 (utf16le_encode (lit "Beginning system scan."))]
  /\ bars_drawn host64 (fun _ => [])
                [Data 1 (utf16le_encode (lit "Beginning system scan."))]
  /\ outcome (run_dism_command
                (lit "dism.exe") restore_args true true
                (Spawns (failing_child
                           (lit "Deployment Image Servicing and Management tool" ++ NL)
                           (lit "Access is denied")))
                0)
     = Ok (FlagText false (lit "Access is denied")).
Proof.
  assert (Hl : all_data
                 [Data 1 (lit "Deployment Image Servicing and Management tool" ++ NL)])
    by (repeat constructor; discriminate).
  assert (Hc : all_data [Data 1 (utf16le_encode (lit "Beginning system scan."))])
    by (repeat constructor; discriminate).
  assert (Hb : bars_drawn host64 (fun _ => [])
                           [Data 1 (utf16le_encode (lit "Beginning system scan."))]).
  { repeat constructor. intros percent Hp. vm_compute in Hp. discriminate. }
  split; [exact Hl|]. split; [exact Hc|]. split; [exact Hb|].
  destruct (proj1 (proj2 (@os_errors_are_caught
                            (lit "dism.exe") restore_args true true host64 (fun _ => [])
                            (lit "Access is denied") 0 1 3 0%Z
                            _ [Data 1 (lit "Deployment Image Servicing and Management tool" ++ NL)]
                            _ [] Hl Hc Hb)))
    as (tr & k & E).
  exact (f_equal (@outcome dism_return) E).
Defined.

(** C9, where the claim departs from the code.  What the file checker
    returns on an error, and the repair tool when its output is not
    captured, is the bare flag: two errors with different messages give
    the same value, which carries neither of them. *)
Lemma failures_return_bare_flag :
  outcome (run_sfc host64 (fun _ => [])
                   (SpawnFails (OSError (lit "Access is denied"))) 0) = Ok false
  /\ outcome (run_sfc host64 (fun _ => [])
                      (SpawnFails (OSError (lit "The system cannot find the file specified")))
                      0) = Ok false
  /\ outcome (run_dism_command (lit "dism.exe") restore_args true false
                               (SpawnFails (OSError (lit "Access is denied"))) 0)
     = Ok (Flag false).
Proof.
  split; [vm_compute; reflexivity|]. split; [vm_compute; reflexivity|].
  vm_compute. reflexivity.
Qed.


(* ================================================================= *)
(** ** The chunk reader *)

Lemma in_range_true (lo hi c : N) :
  in_range lo hi c = true <-> (lo <= c /\ c <= hi)%N.
Proof.
  unfold in_range. rewrite andb_true_iff, !N.leb_le. reflexivity.
Qed.

Lemma in_range_false (lo hi c : N) :
  in_range lo hi c = false <-> (c < lo \/ hi < c)%N.
Proof.
  unfold in_range. rewrite andb_false_iff, !N.leb_gt. reflexivity.
Qed.

Lemma to_N_byte_of_N (n : N) : Byte.to_N (byte_of_N n) = (n mod 256)%N.
Proof.
  unfold byte_of_N.
  pose proof (Byte.to_of_N_option_map (n mod 256)) as H.
  assert (Hlt : (n mod 256 < 256)%N) by (apply N.mod_lt; discriminate).
  replace (N.leb (n mod 256) 255) with true in H
    by (symmetry; apply N.leb_le; lia).
  destruct (Byte.of_N (n mod 256)); cbn [option_map] in H; congruence.
Qed.

Lemma unit16_encode (u : N) :
  (u < 65536)%N -> unit16 (byte_of_N u) (byte_of_N (u / 256)) = u.
Proof.
  intros H. unfold unit16. rewrite !to_N_byte_of_N.
  rewrite (N.mod_small (u / 256) 256).
  - rewrite N.add_comm. symmetry. apply N.div_mod. discriminate.
  - apply N.Div0.div_lt_upper_bound. exact H.
Qed.

Lemma remove_nulls_clean (s : str) : ~ In 0%N (remove_nulls s).
Proof.
  unfold remove_nulls. intros H. apply filter_In in H as [_ H]. discriminate H.
Qed.

(** Decoding undoes encoding on the code points a text can hold. *)
Lemma utf16le_roundtrip (text : str) :
  Forall (fun c => is_scalar c = true) text ->
  utf16le_ignore (utf16le_encode text) = text.
Proof.
  induction 1 as [|c text Hc Htext IH]; [reflexivity|].
  unfold is_scalar in Hc. apply andb_true_iff in Hc as [Hmax Hsur].
  apply N.ltb_lt in Hmax. apply negb_true_iff, in_range_false in Hsur.
  cbn [utf16le_encode]. destruct (c <? 65536)%N eqn:Hbmp.
  - apply N.ltb_lt in Hbmp. cbn [utf16le_ignore].
    rewrite (unit16_encode Hbmp).
    replace (is_high_surrogate c) with false
      by (symmetry; apply in_range_false; lia).
    replace (is_low_surrogate c) with false
      by (symmetry; apply in_range_false; lia).
    now rewrite IH.
  - apply N.ltb_ge in Hbmp. cbv zeta.
    remember (c - 65536)%N as v eqn:Ev.
    assert (Hv : (v < 1048576)%N) by lia.
    assert (Hq : (v / 1024 < 1024)%N)
      by (apply N.Div0.div_lt_upper_bound; exact Hv).
    assert (Hr : (v mod 1024 < 1024)%N) by (apply N.mod_lt; discriminate).
    cbn [utf16le_ignore].
    rewrite !unit16_encode by lia.
    replace (is_high_surrogate (55296 + v / 1024)) with true
      by (symmetry; apply in_range_true; split; [apply N.le_add_r | lia]).
    replace (is_low_surrogate (56320 + v mod 1024)) with true
      by (symmetry; apply in_range_true; split; [apply N.le_add_r | lia]).
    rewrite IH. f_equal. unfold join_surrogates.
    pose proof (N.div_mod v 1024) as Hd.
    remember (v / 1024)%N as q. remember (v mod 1024)%N as m. lia.
Qed.

(** C6. The chunk reader gives a text without null characters for every
    chunk, whatever the second codec would do: the decoding as 16-bit
    little-endian text with errors ignored never fails, so the second
    codec is not reached.  On the bytes that encode a text it gives that
    text with its null characters removed and every other character,
    the digits of a percentage among them, in place. *)
Theorem chunk_reader_strips_nulls (utf8_ignore : bytes -> str)
        (chunk : bytes) (text : str) :
  Forall (fun c => is_scalar c = true) text ->
  ~ In 0%N (read_text utf8_ignore chunk)
  /\ read_text utf8_ignore chunk = remove_nulls (utf16le_ignore chunk)
  /\ read_text utf8_ignore (utf16le_encode text) = remove_nulls text
  /\ sfc_progress (read_text utf8_ignore (utf16le_encode text))
     = sfc_progress (remove_nulls text).
Proof.
  intros Htext. split; [apply remove_nulls_clean|]. split; [reflexivity|].
  assert (E : read_text utf8_ignore (utf16le_encode text) = remove_nulls text).
  { unfold read_text, decode_utf16le. now rewrite utf16le_roundtrip. }
  split; [exact E | now rewrite E].
Qed.

Lemma chunk_reader_strips_nulls_witness :
  Forall (fun c => is_scalar c = true) padded_line
  /\ read_text (fun _ => []) (utf16le_encode padded_line)
     = lit "Verification 12% complete."
  /\ sfc_progress (read_text (fun _ => []) (utf16le_encode padded_line)) = Some 12%N.
Proof.
  assert (H : Forall (fun c => is_scalar c = true) padded_line).
  { apply Forall_forall. intros c Hc.
    apply (proj1 (forallb_forall (fun c => is_scalar c) padded_line)); [|exact Hc].
    vm_compute. reflexivity. }
  split; [exact H|].
  pose proof (@chunk_reader_strips_nulls (fun _ => []) [] padded_line H)
    as (_ & _ & E & Ep).
  split.
  - rewrite E. vm_compute. reflexivity.
  - rewrite Ep. vm_compute. reflexivity.
Defined.

(* ================================================================= *)
(** ** The result classifier *)

Lemma starts_with_spec (p s : str) :
  starts_with p s = true <-> exists post, s = p ++ post.
Proof.
  revert s. induction p as [|x p IH]; intros s.
  - split; [intros _; now exists s | reflexivity].
  - destruct s as [|y s]; cbn [starts_with].
    + split; [discriminate | intros [post H]; discriminate H].
    + unfold char_eqb. rewrite andb_true_iff, N.eqb_eq, IH. split.
      * intros [-> [post ->]]. now exists post.
      * intros [post H]. injection H as -> ->. split; [reflexivity | now exists post].
Qed.

(** The test [p in s] holds exactly when [p] occurs in [s]. *)
Lemma contains_spec (p s : str) : contains p s = true <-> occurs p s.
Proof.
  unfold occurs. induction s as [|y s IH].
  - cbn [contains]. rewrite orb_false_r, starts_with_spec. split.
    + intros [post H]. now exists [], post.
    + intros (pre & post & H). destruct pre; [now exists post|discriminate H].
  - cbn [contains]. rewrite orb_true_iff, starts_with_spec, IH. split.
    + intros [[post H] | (pre & post & H)].
      * now exists [], post.
      * exists (y :: pre), post. now rewrite H.
    + intros (pre & post & H). destruct pre as [|z pre].
      * left. now exists post.
      * right. injection H as _ H. now exists pre, post.
Qed.

Lemma contains_false (p s : str) : contains p s = false <-> ~ occurs p s.
Proof.
  rewrite <- contains_spec. destruct (contains p s); intuition congruence.
Qed.

Lemma lower_app (a b : str) : lower (a ++ b) = lower a ++ lower b.
Proof. apply flat_map_app. Qed.

Lemma lower_case_variant (u phrase : str) : case_variant u phrase -> lower u = phrase.
Proof.
  induction 1 as [|a b u phrase Hab _ IH]; [reflexivity|].
  cbn [lower flat_map]. fold (lower u). now rewrite Hab, IH.
Qed.

(** A phrase written in any letter case is found in the lowered text. *)
Lemma occurs_any_case (u phrase text : str) :
  case_variant u phrase -> occurs u text -> contains phrase (lower text) = true.
Proof.
  intros Hv (pre & post & ->). apply contains_spec.
  exists (lower pre), (lower post).
  now rewrite !lower_app, (lower_case_variant Hv).
Qed.



(* ================================================================= *)
(** ** The matcher *)

Lemma greedy_sound cl k : forall s m r,
  greedy cl k s = Some (m, r) ->
  holds cl m /\ exists rest, s = m ++ rest /\ k rest = Some r.
Proof.
  assert (Hstop : forall s m r,
             option_map (pair []) (k s) = Some (m, r) ->
             holds cl m /\ exists rest, s = m ++ rest /\ k rest = Some r).
  { intros s m r H. destruct (k s) as [r'|] eqn:Hk; [|discriminate].
    injection H as <- <-. split; [constructor | now exists s]. }
  induction s as [|c s IH]; intros m r H; cbn [greedy] in H.
  - now apply Hstop.
  - destruct (cl c) eqn:Hc; [|now apply Hstop].
    destruct (greedy cl k s) as [[m' r']|] eqn:Hg; [|now apply Hstop].
    injection H as <- <-.
    destruct (IH m' r' eq_refl) as (Hm & rest & -> & Hk).
    split; [now constructor | now exists rest].
Qed.

Lemma greedy_complete cl k : forall m rest,
  holds cl m -> k rest <> None -> greedy cl k (m ++ rest) <> None.
Proof.
  assert (Hany : forall s, k s <> None -> greedy cl k s <> None).
  { intros s Hk. destruct s as [|c s]; cbn [greedy].
    - destruct (k []); [discriminate | congruence].
    - destruct (cl c); [destruct (greedy cl k s) as [[]|]; [discriminate|]|];
        destruct (k (c :: s)); try discriminate; congruence. }
  induction m as [|c m IH]; intros rest Hm Hk.
  - now apply Hany.
  - inversion Hm as [|? ? Hc Hm']; subst. cbn [app greedy]. rewrite Hc.
    specialize (IH rest Hm' Hk).
    destruct (greedy cl k (m ++ rest)) as [[]|]; [discriminate | congruence].
Qed.

Lemma option_map_some {A B} (f : A -> B) (o : option A) (b : B) :
  option_map f o = Some b -> exists a, o = Some a /\ b = f a.
Proof. destruct o as [a|]; [intros H; injection H as <-; now exists a | discriminate]. Qed.

Lemma take_one_sound cl k s caps :
  take_one cl k s = Some caps ->
  exists c s' r, s = c :: s' /\ cl c = true /\ k s' = Some r /\ caps = [c] :: r.
Proof.
  unfold take_one. destruct s as [|c s']; [discriminate|].
  destruct (cl c) eqn:Hc; [|discriminate].
  intros H. apply option_map_some in H as (r & Hk & ->). now exists c, s', r.
Qed.

(** What the matcher returns is a match. *)
Lemma match_items_sound (p : list item) : forall s caps,
  match_items p s = Some caps -> matches p s caps.
Proof.
  induction p as [|[cl q] p IH]; intros s caps H; cbn [match_items] in H.
  - injection H as <-. split; [constructor | now exists s].
  - cbn [qt cls] in H. destruct q.
    + apply take_one_sound in H as (c & s' & r & -> & Hc & Hk & ->).
      destruct (IH _ _ Hk) as (Hf & rest & ->).
      split; [constructor; [|exact Hf] | now exists rest].
      split; [now repeat constructor | reflexivity].
    + destruct (take_one cl (match_items p) s) as [r0|] eqn:Ht.
      * injection H as <-.
        apply take_one_sound in Ht as (c & s' & r & -> & Hc & Hk & ->).
        destruct (IH _ _ Hk) as (Hf & rest & ->).
        split; [constructor; [|exact Hf] | now exists rest].
        split; [now repeat constructor | cbn; lia].
      * apply option_map_some in H as (r & Hk & ->).
        destruct (IH _ _ Hk) as (Hf & rest & ->).
        split; [constructor; [|exact Hf] | now exists rest].
        split; [constructor | cbn; lia].
    + apply option_map_some in H as ([m r] & Hg & ->). cbn [fst snd].
      apply greedy_sound in Hg as (Hm & rest' & -> & Hk).
      destruct (IH _ _ Hk) as (Hf & rest & ->).
      split; [constructor; [|exact Hf] | exists rest; cbn [concat]; now rewrite app_assoc].
      split; [exact Hm | exact I].
    + destruct s as [|c s']; [discriminate|].
      destruct (cl c) eqn:Hc; [|discriminate].
      apply option_map_some in H as ([m r] & Hg & ->). cbn [fst snd].
      apply greedy_sound in Hg as (Hm & rest' & -> & Hk).
      destruct (IH _ _ Hk) as (Hf & rest & ->).
      split; [constructor; [|exact Hf] | exists rest; cbn [concat app]; now rewrite app_assoc].
      split; [now constructor | cbn; lia].
Qed.

(** Where there is a match, the matcher finds one. *)
Lemma match_items_complete (p : list item) : forall caps rest,
  Forall2 takes p caps -> match_items p (concat caps ++ rest) <> None.
Proof.
  induction p as [|[cl q] p IH]; intros caps rest H; cbn [match_items].
  - discriminate.
  - inversion H as [|? m ? caps' [Hm Hq] Hrest]; subst.
    cbn [cls qt] in *. specialize (IH caps' rest Hrest).
    cbn [concat]. rewrite <- app_assoc.
    destruct q.
    + destruct m as [|c [|? ?]]; try discriminate Hq.
      inversion Hm as [|? ? Hc _]; subst. cbn [app take_one]. rewrite Hc.
      destruct (match_items p (concat caps' ++ rest)); [discriminate | congruence].
    + destruct m as [|c [|? ?]]; [| |cbn in Hq; lia].
      * cbn [app].
        destruct (take_one cl (match_items p) (concat caps' ++ rest)); [discriminate|].
        destruct (match_items p (concat caps' ++ rest)); [discriminate | congruence].
      * inversion Hm as [|? ? Hc _]; subst. cbn [app take_one]. rewrite Hc.
        destruct (match_items p (concat caps' ++ rest)); [discriminate | congruence].
    + pose proof (@greedy_complete cl (match_items p) m (concat caps' ++ rest) Hm IH) as Hg.
      destruct (greedy cl (match_items p) (m ++ concat caps' ++ rest)); [discriminate | congruence].
    + destruct m as [|c m]; [cbn in Hq; lia|].
      inversion Hm as [|? ? Hc Hm']; subst. cbn [app]. rewrite Hc.
      pose proof (@greedy_complete cl (match_items p) m (concat caps' ++ rest) Hm' IH) as Hg.
      destruct (greedy cl (match_items p) (m ++ concat caps' ++ rest)); [discriminate | congruence].
Qed.

Lemma search_from_some (p : list item) : forall s i j caps,
  search_from p i s = Some (j, caps) ->
  exists k, j = i + k /\ k <= length s
            /\ match_items p (skipn k s) = Some caps
            /\ forall k', k' < k -> match_items p (skipn k' s) = None.
Proof.
  induction s as [|c s IH]; intros i j caps H; cbn [search_from] in H.
  - destruct (match_items p []) as [caps'|] eqn:Hm; [|discriminate].
    injection H as <- <-. exists 0. repeat split; [lia | lia | exact Hm | lia].
  - destruct (match_items p (c :: s)) as [caps'|] eqn:Hm.
    + injection H as <- <-. exists 0. repeat split; [lia | cbn; lia | exact Hm | lia].
    + destruct (IH _ _ _ H) as (k & -> & Hk & Hat & Hbefore).
      exists (S k). repeat split; [lia | cbn; lia | exact Hat |].
      intros [|k'] Hlt; [exact Hm | apply Hbefore; lia].
Qed.

Lemma search_from_none (p : list item) : forall s i,
  search_from p i s = None ->
  forall k, k <= length s -> match_items p (skipn k s) = None.
Proof.
  induction s as [|c s IH]; intros i H k Hk; cbn [search_from] in H.
  - destruct (match_items p []) eqn:Hm; [discriminate|].
    destruct k; [exact Hm | cbn in Hk; lia].
  - destruct (match_items p (c :: s)) eqn:Hm; [discriminate|].
    destruct k as [|k]; [exact Hm|]. cbn [skipn]. apply (IH _ H). cbn in Hk. lia.
Qed.

Lemma search_from_first (p : list item) : forall s i k caps,
  k <= length s ->
  match_items p (skipn k s) = Some caps ->
  (forall k', k' < k -> match_items p (skipn k' s) = None) ->
  search_from p i s = Some (i + k, caps).
Proof.
  induction s as [|c s IH]; intros i k caps Hk Hat Hbefore.
  - destruct k; [|cbn in Hk; lia]. cbn [skipn] in Hat. cbn [search_from].
    rewrite Hat. now rewrite Nat.add_0_r.
  - destruct k as [|k].
    + cbn [skipn] in Hat. cbn [search_from]. rewrite Hat. now rewrite Nat.add_0_r.
    + cbn [search_from].
      assert (H0 : match_items p (c :: s) = None) by (apply (Hbefore 0); lia).
      rewrite H0.
      rewrite (IH (S i) k caps); [f_equal; f_equal; lia | cbn in Hk; lia | exact Hat |].
      intros k' Hlt. apply (Hbefore (S k')). lia.
Qed.

Lemma app_inv_length {A} (a a' b b' : list A) :
  length a = length a' -> a ++ b = a' ++ b' -> a = a' /\ b = b'.
Proof.
  revert a'. induction a as [|x a IH]; intros [|x' a'] Hl H; try discriminate Hl.
  - now split.
  - injection H as -> H. injection Hl as Hl. destruct (IH _ Hl H) as [-> ->]. now split.
Qed.

Lemma split_position {A} (s : list A) (i : nat) :
  i <= length s -> s = firstn i s ++ skipn i s /\ length (firstn i s) = i.
Proof.
  intros H. split; [symmetry; apply firstn_skipn | now apply firstn_length_le].
Qed.

Lemma skipn_at {A} (pre rest : list A) : skipn (length pre) (pre ++ rest) = rest.
Proof. induction pre; [reflexivity | exact IHpre]. Qed.

(** Up to its first character outside a class, a text is split in one
    way only. *)
Lemma class_prefix_unique (cl : char -> bool) : forall g g' t t',
  holds cl g -> holds cl g' ->
  match t with [] => True | c :: _ => cl c = false end ->
  match t' with [] => True | c :: _ => cl c = false end ->
  g ++ t = g' ++ t' -> g = g'.
Proof.
  induction g as [|x g IH]; intros g' t t' Hg Hg' Ht Ht' H.
  - destruct g' as [|x' g']; [reflexivity|].
    cbn [app] in H. subst t. inversion Hg'; subst. congruence.
  - destruct g' as [|x' g'].
    + cbn [app] in H. subst t'. inversion Hg; subst. congruence.
    + injection H as -> H. inversion Hg; inversion Hg'; subst.
      f_equal. now apply (IH g' t t').
Qed.

Lemma digit_in_bounds (zeros : list N) (c : char) (d : N) :
  digit_in zeros c = Some d -> exists z, In z zeros /\ (z <= c /\ c <= z + 9)%N.
Proof.
  induction zeros as [|z zeros IH]; cbn [digit_in]; [discriminate|].
  destruct (in_range z (z + 9) c) eqn:Hr.
  - intros _. exists z. split; [now left | now apply in_range_true].
  - intros H. destruct (IH H) as (z' & Hin & Hb). exists z'. split; [now right | exact Hb].
Qed.

(** Where the decimal digits lie. *)
Lemma decimal_groups (c : char) :
  isdecimal c = true ->
  (48 <= c <= 57 \/ 1632 <= c <= 4249 \/ 6112 <= c <= 7257 \/ 42528 <= c)%N.
Proof.
  unfold isdecimal, digit_value.
  destruct (digit_in decimal_zeros c) as [d|] eqn:Hd; [intros _|discriminate].
  apply digit_in_bounds in Hd as (z & Hin & Hb).
  assert (Hall : forallb (fun z => (z =? 48)%N || in_range 1632 4240 z
                                   || in_range 6112 7248 z || (42528 <=? z)%N)
                         decimal_zeros = true) by (vm_compute; reflexivity).
  rewrite forallb_forall in Hall. specialize (Hall z Hin).
  rewrite !orb_true_iff, !in_range_true, N.eqb_eq, N.leb_le in Hall. lia.
Qed.

Lemma decimal_not_space (c : char) : isdecimal c = true -> isspace c = false.
Proof.
  intros H. apply decimal_groups in H. apply not_true_is_false. intros Hs.
  unfold isspace in Hs.
  rewrite !orb_true_iff, !in_range_true, !N.eqb_eq in Hs. lia.
Qed.

Lemma decimal_not_percent (c : char) : isdecimal c = true -> is_char PERCENT c = false.
Proof.
  intros H. apply decimal_groups in H. unfold is_char, PERCENT.
  apply N.eqb_neq. lia.
Qed.

Lemma is_char_eq (x c : char) : is_char x c = true <-> c = x.
Proof. unfold is_char. apply N.eqb_eq. Qed.

(** The search of a pattern, told by the places where it matches. *)
Section Leftmost.

Variable p : list item.
Variable n : nat.
Variable at_pos : str -> nat -> str -> Prop.

Hypothesis at_pos_sound : forall line i caps,
  i <= length line -> matches p (skipn i line) caps ->
  at_pos line i (group n caps).

Hypothesis at_pos_complete : forall line i g,
  at_pos line i g ->
  i <= length line /\
  exists caps rest, Forall2 takes p caps /\ skipn i line = concat caps ++ rest.

Hypothesis at_pos_unique : forall line i g g',
  at_pos line i g -> at_pos line i g' -> g = g'.

Lemma search_leftmost (line : str) (i : nat) (g : str) :
  at_pos line i g ->
  (forall j g', j < i -> ~ at_pos line j g') ->
  exists caps, re_search p line = Some (i, caps) /\ group n caps = g.
Proof.
  intros Hat Hfirst.
  destruct (at_pos_complete Hat) as (Hi & caps0 & rest & Hf & Hs).
  pose proof (@match_items_complete p caps0 rest Hf) as Hc. rewrite <- Hs in Hc.
  destruct (match_items p (skipn i line)) as [caps|] eqn:Hm; [|congruence].
  exists caps. split.
  - unfold re_search. change i with (0 + i). apply search_from_first; [exact Hi | exact Hm |].
    intros k Hk. destruct (match_items p (skipn k line)) as [caps'|] eqn:Hm'; [|reflexivity].
    exfalso. apply (Hfirst k (group n caps') Hk).
    apply at_pos_sound; [lia | now apply match_items_sound].
  - apply (at_pos_unique (line := line) (i := i)); [|exact Hat].
    apply at_pos_sound; [exact Hi | now apply match_items_sound].
Qed.

Lemma search_nowhere (line : str) :
  (forall j g', ~ at_pos line j g') -> re_search p line = None.
Proof.
  intros Hno. unfold re_search.
  destruct (search_from p 0 line) as [[j caps]|] eqn:Hs; [|reflexivity].
  apply search_from_some in Hs as (k & -> & Hk & Hm & _).
  exfalso. apply (Hno k (group n caps)).
  apply at_pos_sound; [exact Hk | now apply match_items_sound].
Qed.

Lemma search_found (line : str) (j : nat) (caps : list str) :
  re_search p line = Some (j, caps) ->
  at_pos line j (group n caps) /\ forall j' g', j' < j -> ~ at_pos line j' g'.
Proof.
  unfold re_search. intros Hs.
  apply search_from_some in Hs as (k & -> & Hk & Hm & Hbefore). cbn [Nat.add].
  split.
  - apply at_pos_sound; [exact Hk | now apply match_items_sound].
  - intros j' g' Hlt Hat.
    destruct (at_pos_complete Hat) as (Hj & caps0 & rest & Hf & Hsk).
    pose proof (@match_items_complete p caps0 rest Hf) as Hc. rewrite <- Hsk in Hc.
    now rewrite (Hbefore j' Hlt) in Hc.
Qed.

End Leftmost.

(* ================================================================= *)
(** ** The progress extractors *)

Lemma holds_char_short (x : char) (d : str) :
  holds (is_char x) d -> length d <= 1 -> d = [] \/ d = [x].
Proof.
  intros Hd Hl. destruct d as [|c [|? ?]]; [now left | right | cbn in Hl; lia].
  inversion Hd as [|? ? Hc _]; subst. apply is_char_eq in Hc. now subst.
Qed.

Lemma holds_char_one (x : char) (d : str) :
  holds (is_char x) d -> length d = 1 -> d = [x].
Proof.
  intros Hd Hl. destruct d as [|c [|? ?]]; try discriminate Hl.
  inversion Hd as [|? ? Hc _]; subst. apply is_char_eq in Hc. now subst.
Qed.

Lemma dism_at_sound (line : str) (i : nat) (caps : list str) :
  i <= length line -> matches dism_pattern (skipn i line) caps ->
  numeral_percent_at line i (group 3 caps).
Proof.
  intros Hi [Hf [rest Hs]]. unfold dism_pattern in Hf.
  inversion Hf as [|? a ? ? [Ha Hla] Hf1]; subst; clear Hf.
  inversion Hf1 as [|? d ? ? [Hd Hld] Hf2]; subst; clear Hf1.
  inversion Hf2 as [|? b ? ? [Hb _] Hf3]; subst; clear Hf2.
  inversion Hf3 as [|? pc ? ? [Hpc Hlpc] Hf4]; subst; clear Hf3.
  inversion Hf4; subst; clear Hf4. cbn [cls qt] in *.
  apply holds_char_one in Hpc; [subst pc | exact Hlpc].
  destruct (split_position line Hi) as [Hline Hlen].
  exists (firstn i line), rest. split; [|split; [exact Hlen|]].
  - rewrite Hline at 1. f_equal. rewrite Hs.
    cbn [group firstn concat]. rewrite ?app_nil_r, <- ?app_assoc. reflexivity.
  - exists a, d, b. cbn [group firstn concat]. rewrite app_nil_r.
    split; [reflexivity|]. split; [destruct a; [cbn in Hla; lia | discriminate]|].
    split; [exact Ha|]. split; [now apply holds_char_short | exact Hb].
Qed.

Lemma dism_at_complete (line : str) (i : nat) (g : str) :
  numeral_percent_at line i g ->
  i <= length line /\
  exists caps rest, Forall2 takes dism_pattern caps /\ skipn i line = concat caps ++ rest.
Proof.
  intros (pre & post & -> & <- & a & d & b & -> & Hne & Ha & Hd & Hb). split.
  - rewrite length_app. lia.
  - exists [a; d; b; [PERCENT]], post. split.
    + unfold dism_pattern.
      constructor; [split; cbn [cls qt]; [exact Ha | destruct a; [congruence | cbn; lia]]|].
      constructor;
        [split; cbn [cls qt]; destruct Hd as [-> | ->];
         [constructor | repeat constructor | cbn; lia | cbn; lia]|].
      constructor; [split; cbn [cls qt]; [exact Hb | exact I]|].
      constructor; [split; cbn [cls qt]; [repeat constructor | reflexivity]|].
      constructor.
    + rewrite skipn_at. cbn [concat]. rewrite ?app_nil_r, <- ?app_assoc. reflexivity.
Qed.

Lemma numeral_no_percent (g : str) :
  dism_numeral g -> holds (fun c => negb (is_char PERCENT c)) g.
Proof.
  intros (a & d & b & -> & _ & Ha & Hd & Hb). unfold holds.
  rewrite !Forall_app. repeat split.
  - eapply Forall_impl; [|exact Ha]. intros c Hc. cbv beta.
    now rewrite (decimal_not_percent _ Hc).
  - destruct Hd as [-> | ->]; repeat constructor.
  - eapply Forall_impl; [|exact Hb]. intros c Hc. cbv beta.
    now rewrite (decimal_not_percent _ Hc).
Qed.

Lemma dism_at_unique (line : str) (i : nat) (g g' : str) :
  numeral_percent_at line i g -> numeral_percent_at line i g' -> g = g'.
Proof.
  intros (pre & post & -> & <- & Hg) (pre' & post' & H & Hl & Hg').
  symmetry in Hl. destruct (app_inv_length _ _ _ _ Hl H) as [_ Ht].
  apply (@class_prefix_unique (fun c => negb (is_char PERCENT c))
                              g g' (PERCENT :: post) (PERCENT :: post'));
    [now apply numeral_no_percent | now apply numeral_no_percent
     | reflexivity | reflexivity | exact Ht].
Qed.

Lemma sfc_at_sound (text : str) (i : nat) (caps : list str) :
  i <= length text -> matches sfc_pattern (skipn i text) caps ->
  integer_percent_at text i (group 1 caps).
Proof.
  intros Hi [Hf [rest Hs]]. unfold sfc_pattern in Hf.
  inversion Hf as [|? a ? ? [Ha Hla] Hf1]; subst; clear Hf.
  inversion Hf1 as [|? ws ? ? [Hws _] Hf2]; subst; clear Hf1.
  inversion Hf2 as [|? pc ? ? [Hpc Hlpc] Hf3]; subst; clear Hf2.
  inversion Hf3; subst; clear Hf3. cbn [cls qt] in *.
  apply holds_char_one in Hpc; [subst pc | exact Hlpc].
  destruct (split_position text Hi) as [Htext Hlen].
  exists (firstn i text), ws, rest. cbn [group firstn concat]. rewrite app_nil_r.
  split; [|split; [exact Hlen|]].
  - rewrite Htext at 1. f_equal. rewrite Hs.
    cbn [concat]. rewrite ?app_nil_r, <- ?app_assoc. reflexivity.
  - split; [destruct a; [cbn in Hla; lia | discriminate]|]. split; [exact Ha | exact Hws].
Qed.

Lemma sfc_at_complete (text : str) (i : nat) (g : str) :
  integer_percent_at text i g ->
  i <= length text /\
  exists caps rest, Forall2 takes sfc_pattern caps /\ skipn i text = concat caps ++ rest.
Proof.
  intros (pre & ws & post & -> & <- & Hne & Hg & Hws). split.
  - rewrite length_app. lia.
  - exists [g; ws; [PERCENT]], post. split.
    + unfold sfc_pattern.
      constructor; [split; cbn [cls qt]; [exact Hg | destruct g; [congruence | cbn; lia]]|].
      constructor; [split; cbn [cls qt]; [exact Hws | exact I]|].
      constructor; [split; cbn [cls qt]; [repeat constructor | reflexivity]|].
      constructor.
    + rewrite skipn_at. cbn [concat]. rewrite ?app_nil_r, <- ?app_assoc. reflexivity.
Qed.

Lemma sfc_at_unique (text : str) (i : nat) (g g' : str) :
  integer_percent_at text i g -> integer_percent_at text i g' -> g = g'.
Proof.
  intros (pre & ws & post & -> & <- & _ & Hg & Hws)
         (pre' & ws' & post' & H & Hl & _ & Hg' & Hws').
  symmetry in Hl. destruct (app_inv_length _ _ _ _ Hl H) as [_ Ht].
  assert (Hhead : forall w p,
             holds isspace w ->
             match w ++ PERCENT :: p with [] => True | c :: _ => isdecimal c = false end).
  { intros w p Hw. destruct w as [|c w]; cbn [app]; [reflexivity|].
    inversion Hw as [|? ? Hc _]; subst.
    destruct (isdecimal c) eqn:Hd; [|reflexivity].
    apply decimal_not_space in Hd. congruence. }
  apply (@class_prefix_unique isdecimal g g' (ws ++ PERCENT :: post)
                              (ws' ++ PERCENT :: post'));
    [exact Hg | exact Hg' | now apply Hhead | now apply Hhead | exact Ht].
Qed.

(** C2, as the code has it.  Each extractor returns the number of the
    first match, the one that starts at the least position of the
    fragment, and nothing when the pattern matches nowhere.  For the
    repair tool a match is digits, at most one point and digits again,
    with a percent sign right after them; for the file checker it is
    digits, then white space or none, then a percent sign. *)
Theorem extractors_return_first_match (line : str) (i : nat) (g : str) :
  (numeral_percent_at line i g ->
   (forall j g', j < i -> ~ numeral_percent_at line j g') ->
   dism_progress line = Some (float_of_decimal g))
  /\ ((forall j g', ~ numeral_percent_at line j g') -> dism_progress line = None)
  /\ (forall v, dism_progress line = Some v ->
                exists j g', numeral_percent_at line j g' /\ v = float_of_decimal g')
  /\ (integer_percent_at line i g ->
      (forall j g', j < i -> ~ integer_percent_at line j g') ->
      sfc_progress line = Some (int_of_digits g))
  /\ ((forall j g', ~ integer_percent_at line j g') -> sfc_progress line = None)
  /\ (forall n, sfc_progress line = Some n ->
                exists j g', integer_percent_at line j g' /\ n = int_of_digits g').
Proof.
  unfold dism_progress, sfc_progress.
  split; [|split; [|split; [|split; [|split]]]].
  - intros Hat Hfirst.
    destruct (@search_leftmost dism_pattern 3 numeral_percent_at
                               dism_at_sound dism_at_complete dism_at_unique
                               line i g Hat Hfirst) as (caps & -> & <-).
    reflexivity.
  - intros Hno.
    now rewrite (@search_nowhere dism_pattern 3 numeral_percent_at dism_at_sound line Hno).
  - intros v H.
    destruct (re_search dism_pattern line) as [[j caps]|] eqn:Hs; [|discriminate].
    injection H as <-.
    destruct (@search_found dism_pattern 3 numeral_percent_at
                            dism_at_sound dism_at_complete line j caps Hs) as [Hat _].
    now exists j, (group 3 caps).
  - intros Hat Hfirst.
    destruct (@search_leftmost sfc_pattern 1 integer_percent_at
                               sfc_at_sound sfc_at_complete sfc_at_unique
                               line i g Hat Hfirst) as (caps & -> & <-).
    reflexivity.
  - intros Hno.
    now rewrite (@search_nowhere sfc_pattern 1 integer_percent_at sfc_at_sound line Hno).
  - intros v H.
    destruct (re_search sfc_pattern line) as [[j caps]|] eqn:Hs; [|discriminate].
    injection H as <-.
    destruct (@search_found sfc_pattern 1 integer_percent_at
                            sfc_at_sound sfc_at_complete line j caps Hs) as [Hat _].
    now exists j, (group 1 caps).
Qed.

Lemma two_percentages_first :
  numeral_percent_at (lit "10% 20%") 0 (lit "10")
  /\ integer_percent_at (lit "10% 20%") 0 (lit "10").
Proof.
  split.
  - exists [], (lit " 20%"). split; [reflexivity|]. split; [reflexivity|].
    exists (lit "10"), [], []. repeat split; try discriminate; repeat constructor.
  - exists [], [], (lit " 20%"). repeat split; try discriminate; repeat constructor.
Qed.

Lemma two_percentages_last :
  numeral_percent_at (lit "10% 20%") 4 (lit "20")
  /\ integer_percent_at (lit "10% 20%") 4 (lit "20").
Proof.
  split.
  - exists (lit "10% "), []. split; [reflexivity|]. split; [reflexivity|].
    exists (lit "20"), [], []. repeat split; try discriminate; repeat constructor.
  - exists (lit "10% "), [], []. repeat split; try discriminate; repeat constructor.
Qed.

Lemma extractors_return_first_match_witness :
  numeral_percent_at (lit "10% 20%") 0 (lit "10")
  /\ dism_progress (lit "10% 20%") = Some (float_of_decimal (lit "10"))
  /\ sfc_progress (lit "10% 20%") = Some (int_of_digits (lit "10")).
Proof.
  split; [exact (proj1 two_percentages_first)|]. split.
  - refine (proj1 (extractors_return_first_match (lit "10% 20%") 0 (lit "10"))
                  (proj1 two_percentages_first) _).
    intros j g' Hj. inversion Hj.
  - refine (proj1 (proj2 (proj2 (proj2
              (extractors_return_first_match (lit "10% 20%") 0 (lit "10")))))
                  (proj2 two_percentages_first) _).
    intros j g' Hj. inversion Hj.
Defined.

(** C2, as stated, fails: of the two percentages of a fragment the
    extractors return the first, 10, and not the last, 20. *)
Lemma extractors_return_first_not_last :
  dism_progress (lit "10% 20%") = Some 10%Q
  /\ numeral_percent_at (lit "10% 20%") 4 (lit "20")
  /\ float_of_decimal (lit "20") = 20%Q
  /\ sfc_progress (lit "10% 20%") = Some 10%N
  /\ integer_percent_at (lit "10% 20%") 4 (lit "20")
  /\ int_of_digits (lit "20") = 20%N.
Proof.
  pose proof two_percentages_last as [Hd Hs].
  split; [vm_compute; reflexivity|]. split; [exact Hd|].
  split; [vm_compute; reflexivity|]. split; [vm_compute; reflexivity|].
  split; [exact Hs | vm_compute; reflexivity].
Qed.

(** A line with a match holds a percent sign: the test that guards the
    search in the loops hides no match. *)
Lemma progress_has_percent (line : str) :
  (forall v, dism_progress line = Some v -> contains [PERCENT] line = true)
  /\ (forall n, sfc_progress line = Some n -> contains [PERCENT] line = true).
Proof.
  unfold dism_progress, sfc_progress. split.
  - intros v H.
    destruct (re_search dism_pattern line) as [[j caps]|] eqn:Hs; [|discriminate].
    destruct (@search_found dism_pattern 3 numeral_percent_at
                            dism_at_sound dism_at_complete line j caps Hs)
      as [(pre & post & -> & _) _].
    apply contains_spec. exists (pre ++ group 3 caps), post. now rewrite <- app_assoc.
  - intros n H.
    destruct (re_search sfc_pattern line) as [[j caps]|] eqn:Hs; [|discriminate].
    destruct (@search_found sfc_pattern 1 integer_percent_at
                            sfc_at_sound sfc_at_complete line j caps Hs)
      as [(pre & ws & post & -> & _) _].
    apply contains_spec. exists (pre ++ group 1 caps ++ ws), post.
    now rewrite <- !app_assoc.
Qed.

(* ================================================================= *)
(** * Further properties *)

(* ================================================================= *)
(** ** The message of 90 and the order of the notifications *)

Lemma above90_above65 (p : Q) : Qle_bool 90 p = true -> Qle_bool 65 p = true.
Proof.
  intros H. apply Qle_bool_iff in H. apply Qle_bool_iff.
  apply Qle_trans with (90%Q); [|exact H]. unfold Qle; simpl; lia.
Qed.

Lemma branch_nearly (st : ProgressState) (p : Q) :
  branch st p = Some NearlyComplete <->
  Qle_bool 90 p = true /\ seen_below (last_progress st) 90 = true
  /\ seen_below (last_progress st) 65 = false.
Proof.
  unfold branch.
  destruct (Qle_bool 90 p) eqn:H90.
  - pose proof (above90_above65 _ H90) as H65.
    rewrite H65, (above65_not_pause _ H65), andb_false_r. cbn [andb].
    destruct (seen_below (last_progress st) 65); cbn [andb];
      destruct (seen_below (last_progress st) 90); intuition congruence.
  - cbn [andb].
    repeat match goal with
           | |- context [if ?b then _ else _] => destruct b
           end; intuition congruence.
Qed.

Lemma not_seen_below (l t : Q) :
  seen_below (Some l) t = false -> ~ (l == 0)%Q -> (t <= l)%Q.
Proof.
  unfold seen_below, Qltb. intros H H0.
  apply andb_false_iff in H as [H|H].
  - apply negb_false_iff, Qeq_bool_iff in H. contradiction.
  - apply negb_false_iff in H. now apply Qle_bool_iff.
Qed.

Lemma branch_after (st : ProgressState) (p l t : Q) (m : milestone) :
  last_progress st = Some l -> (t <= l)%Q -> (l <= p)%Q ->
  branch st p = Some m ->
  match m with
  | PauseExplained => (t <= 63)%Q
  | Passed65 => (t < 65)%Q
  | NearlyComplete => (t < 90)%Q
  end.
Proof.
  intros Hl Htl Hlp Hb. destruct m.
  - apply branch_pause in Hb as [Hb _]. unfold in_pause_range in Hb.
    apply andb_true_iff in Hb as [_ Hb]. apply Qle_bool_iff in Hb.
    apply Qle_trans with l; [exact Htl|]. now apply Qle_trans with p.
  - apply branch_passed65 in Hb as [_ Hb]. rewrite Hl in Hb.
    apply seen_below_spec in Hb as (l' & E & _ & Hlt). injection E as <-.
    now apply Qle_lt_trans with l.
  - apply branch_nearly in Hb as (_ & Hb & _). rewrite Hl in Hb.
    apply seen_below_spec in Hb as (l' & E & _ & Hlt). injection E as <-.
    now apply Qle_lt_trans with l.
Qed.

(** Over values that do not decrease, every later notification belongs
    to a threshold above the stored value. *)
Lemma fired_after (ps : list Q) : forall st l m,
  last_progress st = Some l -> nondecreasing (l :: ps) ->
  In m (fired (feed st ps)) ->
  match m with
  | PauseExplained => (l <= 63)%Q
  | Passed65 => (l < 65)%Q
  | NearlyComplete => (l < 90)%Q
  end.
Proof.
  induction ps as [|p ps IH]; intros st l m Hl Hnd Hin; [destruct Hin|].
  destruct Hnd as [Hlp Hnd]. cbn [feed interpret fst snd] in Hin.
  assert (Hrest : In m (fired (feed (fst (interpret st p)) ps)) ->
                  match m with
                  | PauseExplained => (l <= 63)%Q
                  | Passed65 => (l < 65)%Q
                  | NearlyComplete => (l < 90)%Q
                  end).
  { intros H. specialize (IH (fst (interpret st p)) p m eq_refl Hnd H).
    destruct m; cbn beta iota in IH |- *;
      [exact (Qle_trans _ _ _ Hlp IH) | exact (Qle_lt_trans _ _ _ Hlp IH)
       | exact (Qle_lt_trans _ _ _ Hlp IH)]. }
  cbn [interpret fst] in Hrest.
  destruct (branch st p) as [m'|] eqn:Hb; cbn [fired] in Hin.
  - destruct Hin as [<- | Hin]; [|now apply Hrest].
    apply (branch_after st (p := p) (l := l) (t := l)); [exact Hl | apply Qle_refl | exact Hlp | exact Hb].
  - now apply Hrest.
Qed.

Lemma no_pause_when_notified (ps : list Q) : forall st,
  pause_notified st = true -> ~ In PauseExplained (fired (feed st ps)).
Proof.
  induction ps as [|p ps IH]; intros st Hn Hin; [destruct Hin|].
  cbn [feed interpret fst snd] in Hin.
  destruct (branch st p) as [m|] eqn:Hb; cbn [fired] in Hin.
  - destruct Hin as [-> | Hin].
    + apply branch_pause in Hb as [_ Hb]. congruence.
    + refine (IH _ _ Hin). cbn [pause_notified]. now destruct m.
  - refine (IH _ _ Hin). exact Hn.
Qed.

Lemma ascending_cons (a : milestone) (l : list milestone) :
  ascending l -> (forall b, In b l -> rank a < rank b) -> ascending (a :: l).
Proof.
  intros Hl Ha. destruct l as [|b l]; [exact I|].
  split; [apply Ha; now left | exact Hl].
Qed.

(** X2. Over progress values that do not decrease, whatever the state
    the interpreter starts in, the notifications come in the order of
    their thresholds, each at most once: the pause, then the passing of
    65, then the approach of the end. *)
Theorem notifications_ascend (st : ProgressState) (ps : list Q) :
  nondecreasing ps -> ascending (fired (feed st ps)).
Proof.
  revert st. induction ps as [|p ps IH]; intros st Hnd; [exact I|].
  assert (Hrest : nondecreasing ps) by (destruct ps; [exact I | apply Hnd]).
  assert (Hnd' : nondecreasing (p :: p :: ps)).
  { split; [apply Qle_refl | exact Hnd]. }
  cbn [feed]. specialize (IH (fst (interpret st p)) Hrest).
  pose proof (fun m => @fired_after ps (fst (interpret st p)) p m eq_refl Hnd) as Hafter.
  pose proof (@no_pause_when_notified ps (fst (interpret st p))) as Hflag.
  cbn [interpret fst snd] in *.
  destruct (branch st p) as [m|] eqn:Hb; cbn [fired]; [|exact IH].
  apply ascending_cons; [exact IH|].
  intros b Hin. specialize (Hafter b Hin). destruct m.
  - destruct b; cbn [rank]; [|lia|lia].
    exfalso. now apply Hflag.
  - apply branch_passed65 in Hb as [Hb _]. apply Qle_bool_iff in Hb.
    destruct b; cbn [rank]; [exfalso | exfalso | lia].
    + apply (Qle_trans _ _ _ Hb) in Hafter. unfold Qle in Hafter; simpl in Hafter; lia.
    + exact (Qlt_not_le _ _ Hafter Hb).
  - apply branch_nearly in Hb as [Hb _]. apply Qle_bool_iff in Hb.
    exfalso. destruct b.
    + apply (Qle_trans _ _ _ Hb) in Hafter. unfold Qle in Hafter; simpl in Hafter; lia.
    + apply (Qle_lt_trans _ _ _ Hb) in Hafter. unfold Qlt in Hafter; simpl in Hafter; lia.
    + exact (Qlt_not_le _ _ Hafter Hb).
Qed.

Lemma notifications_ascend_witness :
  nondecreasing scenario
  /\ ascending (fired (feed initial_state scenario)).
Proof.
  assert (H : nondecreasing scenario) by (cbn; repeat split; discriminate).
  split; [exact H | exact (notifications_ascend initial_state scenario H)].
Defined.

(** X1. The message of 90 fires exactly on an update of at least 90
    whose stored previous value is at least 65 and below 90: a step
    from below 65 to 90 or more is taken by the branch of 65.  After an
    update of at least 90, values that do not decrease never fire it,
    so such a step leaves the message of 90 out of the run. *)
Theorem nearly_complete_rule (st : ProgressState) (p : Q) (ps : list Q) :
  (snd (interpret st p) = Some NearlyComplete <->
   (90 <= p)%Q /\ exists l, last_progress st = Some l /\ (65 <= l)%Q /\ (l < 90)%Q)
  /\ (forall l, last_progress st = Some l -> ~ (l == 0)%Q -> (l < 65)%Q -> (90 <= p)%Q ->
                snd (interpret st p) = Some Passed65)
  /\ ((90 <= p)%Q -> nondecreasing (p :: ps) ->
      ~ In NearlyComplete (fired (feed (fst (interpret st p)) ps))).
Proof.
  cbn [interpret fst snd]. split; [split|split].
  - intros H. apply branch_nearly in H as (H90 & Hb & Hn).
    apply Qle_bool_iff in H90. split; [exact H90|].
    apply seen_below_spec in Hb as (l & E & H0 & Hlt). rewrite E in Hn.
    exists l. split; [exact E|]. split; [now apply not_seen_below | exact Hlt].
  - intros (H90 & l & E & H65 & Hlt). apply branch_nearly. rewrite E.
    split; [now apply Qle_bool_iff|]. split; [|now apply seen_below_ge].
    apply seen_below_spec. exists l. split; [reflexivity|]. split; [|exact Hlt].
    intros H0. rewrite H0 in H65. unfold Qle in H65; simpl in H65; lia.
  - intros l E H0 Hlt H90. apply branch_passed65. split.
    + apply above90_above65. now apply Qle_bool_iff.
    + rewrite E. apply seen_below_spec. now exists l.
  - intros H90 Hnd Hin.
    pose proof (@fired_after ps {| last_progress := Some p;
                                   pause_notified :=
                                     match branch st p with
                                     | Some PauseExplained => true
                                     | _ => pause_notified st
                                     end |} p NearlyComplete eq_refl Hnd Hin) as H.
    cbn beta iota in H. exact (Qlt_not_le _ _ H H90).
Qed.

Lemma nearly_complete_rule_witness :
  snd (interpret {| last_progress := Some 60%Q; pause_notified := true |} 95%Q)
  = Some Passed65
  /\ ~ In NearlyComplete
       (fired (feed (fst (interpret {| last_progress := Some 60%Q;
                                       pause_notified := true |} 95%Q))
                    [96; 100]%Q)).
Proof.
  pose proof (nearly_complete_rule {| last_progress := Some 60%Q; pause_notified := true |}
                                   95%Q [96; 100]%Q) as (_ & Hjump & Hnever).
  split.
  - apply (Hjump 60%Q eq_refl); [discriminate | reflexivity | discriminate].
  - apply Hnever; [discriminate | cbn; repeat split; discriminate].
Defined.

(* ================================================================= *)
(** ** What a run of the repair tool returns, prints and takes *)

Lemma monitor_off (st : ProgressState) (line : str) : monitor false st line = (st, []).
Proof. reflexivity. Qed.

(** The loop over reads of data: the lines it keeps, the time it ends. *)
Lemma dism_loop_lines r p (stream : list (read_event str)) :
  all_data stream -> forall st lines t,
  exists st',
    outcome (dism_loop r p stream st lines t) =
      Ok (DismLocals st' (lines ++ lines_of stream) (Some (exit_code (running p))))
    /\ clock (dism_loop r p stream st lines t) =
         t + blocked_total stream
         + (started p + lifetime (running p) - (t + blocked_total stream))
    /\ (r = false ->
        trace (dism_loop r p stream st lines t) = map print (lines_of stream)).
Proof.
  induction 1 as [|[w line|w e] rest Hev Hrest IH]; intros st lines t.
  - exists st. rewrite dism_loop_end. cbn [outcome trace clock lines_of blocked_total map].
    rewrite app_nil_r, Nat.add_0_r. repeat split.
  - rewrite dism_loop_data by exact Hev. cbn [prepend outcome trace clock].
    destruct (IH (fst (monitor r st (strip line))) (lines ++ [strip line]) (t + w))
      as (st' & Ho & Hc & Ht).
    exists st'. cbn [lines_of blocked_total map]. split; [|split].
    + rewrite Ho, <- app_assoc. reflexivity.
    + rewrite Hc. lia.
    + intros ->. rewrite (Ht eq_refl), monitor_off. reflexivity.
  - destruct Hev.
Qed.

(** X4. A run of the repair tool whose reads all return text ends when
    the last read has returned and the child has exited, not before;
    its flag is the test of the exit code, and the text it returns when
    the output is captured is the lines, stripped and joined by line
    feeds.  When progress is not monitored the run prints, between its
    heading and its footer, these lines and nothing else. *)
Theorem dism_run_result (dism_path : str) (command_args : list str)
        (is_restore capture_output : bool) (c : child str) (t : nat) :
  all_data (output c) ->
  let r := run_dism_command dism_path command_args is_restore capture_output
                            (Spawns c) t in
  let lines := lines_of (output c) in
  outcome r = Ok (returned capture_output (exit_code c =? 0)%Z (join NL lines))
  /\ clock r = t + Nat.max (blocked_total (output c)) (lifetime c)
  /\ (is_restore = false ->
      trace r = dism_header dism_path command_args false
                  ++ map print lines ++ dism_footer (exit_code c) lines).
Proof.
  intros Hd r lines. subst r lines. rewrite run_dism_spawns. cbv zeta.
  destruct (@dism_loop_lines is_restore (spawned (dism_path :: command_args) c t)
                             (output c) Hd initial_state [] t)
    as (st' & Ho & Hc & Ht).
  destruct (dism_loop is_restore (spawned (dism_path :: command_args) c t)
                      (output c) initial_state [] t) as [o tr k].
  cbn [outcome trace clock spawned started running app] in *. subst o.
  cbn [outcome trace clock output_lines]. split; [reflexivity|]. split.
  - subst k. lia.
  - intros ->. now rewrite (Ht eq_refl).
Qed.

Lemma dism_run_result_witness :
  all_data (output scenario_child)
  /\ outcome (run_dism_command (lit "dism.exe") restore_args false true
                               (Spawns scenario_child) 7)
     = Ok (FlagText true (join NL (lines_of (output scenario_child))))
  /\ clock (run_dism_command (lit "dism.exe") restore_args false true
                             (Spawns scenario_child) 7) = 13.
Proof.
  pose proof (@dism_run_result (lit "dism.exe") restore_args false true
                               scenario_child 7 scenario_all_data) as (Ho & Hc & _).
  split; [exact scenario_all_data|]. split; [exact Ho | exact Hc].
Defined.





(* ================================================================= *)
(** ** What a run of the file checker logs and takes *)

Lemma logged_app (a b : list effect) : logged (a ++ b) = logged a ++ logged b.
Proof. apply filter_app. Qed.

Lemma logged_map_print (l : list str) : logged (map print l) = [].
Proof. induction l; [reflexivity | exact IHl]. Qed.

Lemma sfc_chunk_result lim last buffer text step :
  sfc_chunk lim last buffer text = Ok step ->
  snd (fst step) = buffer ++ (if contains [PERCENT] text then [] else text)
  /\ logged (snd step) = [].
Proof.
  unfold sfc_chunk. destruct (contains [PERCENT] text).
  - destruct (sfc_progress text) as [n|];
      [destruct (negb (Z.of_N n =? last)%Z); [destruct (progress_bar lim n)|]|];
      intros H; inversion H; cbn [fst snd]; now rewrite app_nil_r.
  - intros H; inversion H. now split.
Qed.

Lemma logged_log_sfc_result (c : sfc_category) :
  logged (log_sfc_result c) = log_sfc_result c.
Proof. destruct c; reflexivity. Qed.

(** The loop over reads of data: the buffer it leaves, the time it
    ends; it logs nothing. *)
Lemma sfc_loop_result lim u p (stream : list (read_event bytes)) :
  all_data stream -> bars_drawn lim u stream -> forall last buffer t,
  exists last',
    outcome (sfc_loop lim u p stream last buffer t) =
      Ok (SfcLocals last' (buffer ++ result_text u stream)
                    (Some (exit_code (running p))))
    /\ clock (sfc_loop lim u p stream last buffer t) =
         t + blocked_total stream
         + (started p + lifetime (running p) - (t + blocked_total stream))
    /\ logged (trace (sfc_loop lim u p stream last buffer t)) = [].
Proof.
  induction 1 as [|[w chunk|w e] rest Hev Hrest IH]; intros Hdrawn last buffer t.
  - exists last. rewrite sfc_loop_end.
    cbn [outcome trace clock result_text blocked_total].
    rewrite app_nil_r, Nat.add_0_r. repeat split.
  - rewrite sfc_loop_data by exact Hev.
    destruct (@bars_drawn_chunk lim u w chunk rest last buffer Hdrawn) as [step E].
    rewrite E. cbn [prepend outcome trace clock].
    destruct (sfc_chunk_result _ _ _ _ E) as [Hb Hl].
    destruct (IH (bars_drawn_tail Hdrawn) (fst (fst step)) (snd (fst step)) (t + w))
      as (last' & Ho & Hc & Ht).
    exists last'. cbn [result_text blocked_total]. split; [|split].
    + rewrite Ho, Hb, <- app_assoc. reflexivity.
    + rewrite Hc. lia.
    + now rewrite logged_app, Hl, Ht.
  - destruct Hev.
Qed.

(** X5. A file check whose reads all return data, and in which the bar
    of every percentage shown can be drawn, ends when the last read has
    returned and the child has exited, not before.  Its result
    is read off the decoded chunks that hold no percent sign: a chunk
    with a percent sign adds nothing to it, whatever else the chunk
    holds.  The run logs its start, the exit code and the result of that
    text, in this order, and nothing else. *)
Theorem sfc_run_result (lim : limits) (utf8_ignore : bytes -> str)
        (c : child bytes) (t : nat) :
  all_data (output c) -> bars_drawn lim utf8_ignore (output c) ->
  let r := run_sfc lim utf8_ignore (Spawns c) t in
  clock r = t + Nat.max (blocked_total (output c)) (lifetime c)
  /\ logged (trace r) =
       [ LogInfo (lit "Starting SFC /scannow");
         LogInfo (lit "SFC completed with return code: " ++ str_of_Z (exit_code c)) ]
       ++ log_sfc_result
            (classify_sfc (final_result_of (result_text utf8_ignore (output c)))).
Proof.
  intros Hd Hb r. subst r. rewrite run_sfc_eq, sfc_body_spawns. cbv zeta.
  destruct (@sfc_loop_result lim utf8_ignore (spawned sfc_command c t) (output c) Hd Hb
                             (-1)%Z [] t) as (last' & Ho & Hc & Hl).
  destruct (sfc_loop lim utf8_ignore (spawned sfc_command c t) (output c) (-1)%Z [] t)
    as [o tr k].
  cbn [outcome trace clock spawned started running app] in *. subst o.
  cbn [outcome trace clock prepend result_buffer]. split.
  - subst k. lia.
  - unfold sfc_footer.
    rewrite !logged_app, Hl, logged_map_print, logged_log_sfc_result. reflexivity.
Qed.

Lemma sfc_run_result_witness :
  all_data (output result_with_progress_child)
  /\ bars_drawn host64 (fun _ => []) (output result_with_progress_child)
  /\ logged (trace (run_sfc host64 (fun _ => []) (Spawns result_with_progress_child) 0)) =
       [ LogInfo (lit "Starting SFC /scannow");
         LogInfo (lit "SFC completed with return code: 0") ].
Proof.
  assert (H : all_data (output result_with_progress_child))
    by (repeat constructor; discriminate).
  assert (Hb : bars_drawn host64 (fun _ => []) (output result_with_progress_child)).
  { repeat constructor. intros percent Hp. vm_compute in Hp. inversion Hp; subst.
    eexists. vm_compute. reflexivity. }
  split; [exact H|]. split; [exact Hb|].
  rewrite (proj2 (@sfc_run_result host64 (fun _ => []) result_with_progress_child 0
                                  H Hb)).
  vm_compute. reflexivity.
Defined.

(* ================================================================= *)
(** ** The result of the file checker *)



(* ================================================================= *)
(** ** The progress bar *)

Lemma progress_bar_widths :
  forallb (fun k => match progress_bar host64 (N.of_nat k) with
                    | Ok bar => length bar =? 58
                    | Raise _ => false
                    end) (seq 0 101) = true.
Proof. vm_compute. reflexivity. Qed.

(** Up to 100 the division of the bar is exact. *)
Lemma filled_small :
  forallb (fun k => match true_divide (50 * Z.of_nat k) 100 with
                    | Ok x => (int_of_float x =? Z.of_nat k / 2)%Z
                    | Raise _ => false
                    end) (seq 0 101) = true.
Proof. vm_compute. reflexivity. Qed.

Lemma str_times_small (lim : limits) (c : char) (n : Z) :
  (n <= 50)%Z -> (50 <= maxsize lim)%N -> (50 <= memory lim)%N ->
  str_times lim c n = Ok (repeat_char c (Z.to_nat n)).
Proof.
  intros Hn Hs Hm. unfold str_times.
  destruct (n <=? 0)%Z eqn:E0.
  - apply Z.leb_le in E0. now replace (Z.to_nat n) with 0 by lia.
  - replace (Z.of_N (maxsize lim) <? n)%Z with false by (symmetry; apply Z.ltb_ge; lia).
    replace (Z.of_N (memory lim) <? n)%Z with false by (symmetry; apply Z.ltb_ge; lia).
    reflexivity.
Qed.

(** The bar of a percentage up to 100, where fifty characters can be
    built. *)
Lemma progress_bar_small (lim : limits) (percent : N) :
  (percent <= 100)%N -> (50 <= maxsize lim)%N -> (50 <= memory lim)%N ->
  progress_bar lim percent =
  Ok (CR ++ lit "[" ++ repeat 61%N (N.to_nat (percent / 2))
         ++ repeat 32%N (50 - N.to_nat (percent / 2))
         ++ lit "] " ++ pad3 percent ++ lit "%").
Proof.
  intros H Hs Hm. unfold progress_bar. cbv zeta.
  pose proof filled_small as Hall. rewrite forallb_forall in Hall.
  specialize (Hall (N.to_nat percent)). rewrite N_nat_Z in Hall.
  assert (Hin : In (N.to_nat percent) (seq 0 101)) by (apply in_seq; lia).
  specialize (Hall Hin).
  destruct (true_divide (50 * Z.of_N percent) 100) as [x|e]; [|discriminate].
  apply Z.eqb_eq in Hall. rewrite Hall.
  assert (Hhalf : (Z.of_N percent / 2 = Z.of_N (percent / 2))%Z)
    by (now rewrite N2Z.inj_div).
  assert (Hle : (percent / 2 <= 50)%N).
  { apply N.Div0.div_le_upper_bound. exact H. }
  rewrite Hhalf. clear Hhalf Hall. remember (percent / 2)%N as q eqn:Hq. clear Hq.
  rewrite !str_times_small by lia. unfold repeat_char.
  replace (Z.to_nat (Z.of_N q)) with (N.to_nat q) by lia.
  replace (Z.to_nat (50 - Z.of_N q)) with (50 - N.to_nat q) by lia.
  now rewrite <- !app_assoc.
Qed.

(** X7. For every percentage up to 100, where fifty characters can be
    built, the progress line is drawn, and it is a carriage return and
    57 characters, so that each line covers the one before: between the
    brackets stand half the percentage in equal signs and blanks up to
    fifty columns, then the percentage in three columns. *)
Theorem progress_bar_shape (lim : limits) (percent : N) :
  (percent <= 100)%N -> (50 <= maxsize lim)%N -> (50 <= memory lim)%N ->
  exists bar,
    progress_bar lim percent = Ok bar
    /\ length bar = 58
    /\ bar = CR ++ lit "[" ++ repeat 61%N (N.to_nat (percent / 2))
             ++ repeat 32%N (50 - N.to_nat (percent / 2))
             ++ lit "] " ++ pad3 percent ++ lit "%".
Proof.
  intros H Hs Hm. eexists. split; [exact (@progress_bar_small lim percent H Hs Hm)|].
  split; [|reflexivity].
  pose proof progress_bar_widths as Hall. rewrite forallb_forall in Hall.
  specialize (Hall (N.to_nat percent)). rewrite N2Nat.id in Hall.
  assert (Hin : In (N.to_nat percent) (seq 0 101)) by (apply in_seq; lia).
  specialize (Hall Hin).
  rewrite (@progress_bar_small host64 percent H) in Hall by discriminate.
  now apply Nat.eqb_eq.
Qed.

Lemma progress_bar_shape_witness :
  (37 <= 100)%N /\ (50 <= maxsize host64)%N /\ (50 <= memory host64)%N
  /\ exists bar, progress_bar host64 37 = Ok bar /\ length bar = 58.
Proof.
  split; [discriminate|]. split; [discriminate|]. split; [discriminate|].
  destruct (@progress_bar_shape host64 37%N ltac:(discriminate) ltac:(discriminate)
                                ltac:(discriminate)) as (bar & Hb & Hl & _).
  exists bar. now split.
Defined.

(* ================================================================= *)
(** ** The decoder *)

Lemma unit16_bound (lo hi : Byte.byte) : (unit16 lo hi < 65536)%N.
Proof.
  unfold unit16. pose proof (Byte.to_N_bounded lo). pose proof (Byte.to_N_bounded hi). lia.
Qed.

Lemma utf16le_ignore_wellformed : forall n b,
  length b <= n ->
  Forall (fun c => is_scalar c = true) (utf16le_ignore b)
  /\ 2 * length (utf16le_ignore b) <= length b.
Proof.
  induction n as [|n IH]; intros b Hn.
  - destruct b; [split; [constructor | cbn; lia] | cbn in Hn; lia].
  - destruct b as [|lo [|hi rest]]; [split; [constructor | cbn; lia] ..|].
    cbn [utf16le_ignore]. pose proof (unit16_bound lo hi) as Hu.
    cbn [length] in Hn.
    destruct (is_high_surrogate (unit16 lo hi)) eqn:Hh.
    + destruct rest as [|lo2 [|hi2 rest2]]; [split; [constructor | cbn; lia] ..|].
      destruct (is_low_surrogate (unit16 lo2 hi2)) eqn:Hl.
      * destruct (IH rest2) as [Hf Hlen]; [cbn [length] in Hn; lia|].
        split; [constructor; [|exact Hf] | cbn [length] in *; lia].
        apply in_range_true in Hh, Hl. unfold is_scalar, join_surrogates.
        apply andb_true_iff. split; [apply N.ltb_lt; lia|].
        apply negb_true_iff, in_range_false. lia.
      * destruct (IH (lo2 :: hi2 :: rest2)) as [Hf Hlen]; [cbn [length] in *; lia|].
        split; [exact Hf | cbn [length] in *; lia].
    + destruct (is_low_surrogate (unit16 lo hi)) eqn:Hl.
      * destruct (IH rest) as [Hf Hlen]; [lia|].
        split; [exact Hf | cbn [length]; lia].
      * destruct (IH rest) as [Hf Hlen]; [lia|].
        split; [constructor; [|exact Hf] | cbn [length]; lia].
        apply in_range_false in Hh, Hl. unfold is_scalar.
        apply andb_true_iff. split; [apply N.ltb_lt; lia|].
        apply negb_true_iff, in_range_false. lia.
Qed.

(** X8. Whatever bytes a chunk holds, the text the reader makes of it
    is well formed: every character is a code point that a text can
    hold, none is a surrogate or the null character, and the text has at
    most half as many characters as the chunk has bytes. *)
Theorem read_text_wellformed (utf8_ignore : bytes -> str) (chunk : bytes) :
  Forall (fun c => is_scalar c = true /\ c <> 0%N) (read_text utf8_ignore chunk)
  /\ 2 * length (read_text utf8_ignore chunk) <= length chunk.
Proof.
  unfold read_text, decode_utf16le, remove_nulls. cbv beta iota.
  destruct (@utf16le_ignore_wellformed (length chunk) chunk (le_n _)) as [Hf Hlen].
  split.
  - apply Forall_forall. intros c Hc. apply filter_In in Hc as [Hin Hc].
    rewrite Forall_forall in Hf. split; [now apply Hf|].
    apply negb_true_iff, N.eqb_neq in Hc. exact Hc.
  - apply Nat.le_trans with (2 * length (utf16le_ignore chunk)); [|exact Hlen].
    apply Nat.mul_le_mono_l, filter_length_le.
Qed.

Lemma utf16le_ignore_odd : forall n b x,
  length b <= n -> Nat.even (length b) = true ->
  utf16le_ignore (b ++ [x]) = utf16le_ignore b.
Proof.
  induction n as [|n IH]; intros b x Hn He.
  - destruct b; [reflexivity | cbn in Hn; lia].
  - destruct b as [|lo [|hi rest]]; [reflexivity | discriminate He |].
    cbn [length] in Hn. change (Nat.even (length rest) = true) in He.
    cbn [app utf16le_ignore].
    destruct (is_high_surrogate (unit16 lo hi)).
    + destruct rest as [|lo2 [|hi2 rest2]]; [reflexivity | discriminate He |].
      cbn [app]. change (Nat.even (length rest2) = true) in He.
      destruct (is_low_surrogate (unit16 lo2 hi2)).
      * f_equal. apply IH; [cbn [length] in Hn; lia | exact He].
      * apply (IH (lo2 :: hi2 :: rest2) x); [cbn [length] in *; lia | exact He].
    + destruct (is_low_surrogate (unit16 lo hi)).
      * apply IH; [lia | exact He].
      * f_equal. apply IH; [lia | exact He].
Qed.

(** X9. A byte that follows an even number of bytes at the end of a
    chunk is dropped: the reader makes the same text with it as without
    it. *)
Theorem read_text_drops_odd_byte (utf8_ignore : bytes -> str)
        (chunk : bytes) (last : Byte.byte) :
  Nat.even (length chunk) = true ->
  read_text utf8_ignore (chunk ++ [last]) = read_text utf8_ignore chunk.
Proof.
  intros He. unfold read_text, decode_utf16le.
  now rewrite (@utf16le_ignore_odd (length chunk) chunk last (le_n _) He).
Qed.

Lemma read_text_drops_odd_byte_witness :
  Nat.even (length (utf16le_encode (lit "12%"))) = true
  /\ read_text (fun _ => []) (utf16le_encode (lit "12%") ++ [Byte.x31]) = lit "12%".
Proof.
  split; [reflexivity|].
  rewrite (@read_text_drops_odd_byte (fun _ => []) (utf16le_encode (lit "12%"))
                                     Byte.x31 eq_refl).
  vm_compute. reflexivity.
Defined.

(* ================================================================= *)
(** ** The lines kept for the result *)

Lemma lstrip_split (s : str) :
  exists pre, s = pre ++ lstrip s /\ Forall (fun c => isspace c = true) pre.
Proof.
  induction s as [|c s (pre & E & Hp)]; [now exists []|].
  cbn [lstrip]. destruct (isspace c) eqn:Hc.
  - exists (c :: pre). split; [cbn [app]; now rewrite <- E | now constructor].
  - now exists [].
Qed.

Lemma lstrip_head (s : str) :
  match lstrip s with
  | [] => True
  | c :: _ => isspace c = false
  end.
Proof.
  induction s as [|c s IH]; [exact I|].
  cbn [lstrip]. destruct (isspace c) eqn:Hc; [exact IH | exact Hc].
Qed.

Lemma lstrip_fixed (s : str) :
  match s with [] => True | c :: _ => isspace c = false end -> lstrip s = s.
Proof. destruct s as [|c s]; [reflexivity|]. cbn [lstrip]. now intros ->. Qed.

Lemma lstrip_idempotent (s : str) : lstrip (lstrip s) = lstrip s.
Proof. apply lstrip_fixed, lstrip_head. Qed.

(** [strip] leaves nothing to strip. *)
Lemma strip_idempotent (s : str) : strip (strip s) = strip s.
Proof.
  unfold strip, rstrip.
  destruct (lstrip_split (rev (lstrip s))) as (pre & E & _).
  assert (Hpre : lstrip s = rev (lstrip (rev (lstrip s))) ++ rev pre).
  { rewrite <- rev_app_distr, <- E. now rewrite rev_involutive. }
  assert (Hfix : lstrip (rev (lstrip (rev (lstrip s)))) = rev (lstrip (rev (lstrip s)))).
  { apply lstrip_fixed. pose proof (lstrip_head s) as Hh.
    destruct (rev (lstrip (rev (lstrip s)))) as [|c r]; [exact I|].
    rewrite Hpre in Hh. exact Hh. }
  rewrite Hfix, rev_involutive, lstrip_idempotent. reflexivity.
Qed.

Lemma lstrip_incl (s : str) (c : char) : In c (lstrip s) -> In c s.
Proof.
  destruct (lstrip_split s) as (pre & E & _). intros H.
  rewrite E. apply in_or_app. now right.
Qed.

Lemma strip_incl (s : str) (c : char) : In c (strip s) -> In c s.
Proof.
  unfold strip, rstrip. intros H. apply in_rev, lstrip_incl, in_rev in H.
  now apply lstrip_incl.
Qed.

Lemma split_lines_acc_no_feed (s cur : str) (line : str) :
  ~ In 10%N cur -> In line (split_lines_acc cur s) -> ~ In 10%N line.
Proof.
  revert cur. induction s as [|c s IH]; intros cur Hcur Hin.
  - destruct Hin as [<- | []]. intros H. now apply in_rev in H.
  - cbn [split_lines_acc] in Hin. destruct (c =? 10)%N eqn:Hc.
    + destruct Hin as [<- | Hin].
      * intros H. now apply in_rev in H.
      * apply (IH []); [intros [] | exact Hin].
    + apply (IH (c :: cur)); [|exact Hin].
      intros [H | H]; [|contradiction]. apply N.eqb_neq in Hc. congruence.
Qed.

(** X10. Every line kept for the result is not empty, has no white
    space around it and no line feed in it, and names neither
    "verification" nor "complete" in any letter case. *)
Theorem kept_lines_clean (buffer : str) (line : str) :
  In line (kept_lines buffer) ->
  line <> [] /\ strip line = line /\ ~ In 10%N line
  /\ forall u, case_variant u (lit "verification") \/ case_variant u (lit "complete") ->
               ~ occurs u line.
Proof.
  unfold kept_lines. destruct (is_empty buffer); [intros []|].
  intros H. apply filter_In in H as [Hin Hk].
  apply in_map_iff in Hin as (raw & <- & Hraw).
  unfold keep_line in Hk.
  apply andb_true_iff in Hk as [Hk Hc]. apply andb_true_iff in Hk as [He Hv].
  apply negb_true_iff in He, Hv, Hc.
  split; [|split; [|split]].
  - intros E. now rewrite E in He.
  - apply strip_idempotent.
  - intros H10. apply strip_incl in H10.
    revert H10. apply (@split_lines_acc_no_feed buffer [] raw); [intros [] | exact Hraw].
  - intros u [Hu | Hu] Ho.
    + now rewrite (occurs_any_case Hu Ho) in Hv.
    + now rewrite (occurs_any_case Hu Ho) in Hc.
Qed.

Lemma kept_lines_clean_witness :
  In (lit "Windows Resource Protection did not find any integrity violations.")
     (kept_lines (lit "Verification 100% Complete." ++ NL
                  ++ lit "  Windows Resource Protection did not find any integrity violations.  "
                  ++ NL))
  /\ ~ In 10%N (lit "Windows Resource Protection did not find any integrity violations.").
Proof.
  assert (H : In (lit "Windows Resource Protection did not find any integrity violations.")
     (kept_lines (lit "Verification 100% Complete." ++ NL
                  ++ lit "  Windows Resource Protection did not find any integrity violations.  "
                  ++ NL)))
    by (vm_compute; now left).
  split; [exact H|].
  exact (proj1 (proj2 (proj2 (kept_lines_clean _ _ H)))).
Defined.

(* ================================================================= *)
(** ** The menu: rewriting a session *)

Lemma mbind_say {B} (es : list effect) (k : unit -> menu B) (t : nat) :
  mbind (say es) k t = before (map Tool es) (k tt t).
Proof. reflexivity. Qed.

Lemma mbind_warn {B} (s : str) (k : unit -> menu B) (t : nat) :
  mbind (warn s) k t = before [LogWarning s] (k tt t).
Proof. reflexivity. Qed.

Lemma mbind_session {A B} (m : menu A) (k : A -> menu B) (t : nat) :
  mbind m k t =
  match ending (m t) with
  | Ok a => before (history (m t)) (k a (finish (m t)))
  | Raise e => Session (Raise e) (history (m t)) (finish (m t))
  end.
Proof. reflexivity. Qed.

Lemma mbind_perform {A B} (m : io A) (k : A -> menu B) (t : nat) :
  mbind (perform m) k t =
  match outcome (m t) with
  | Ok a => before (map Tool (trace (m t))) (k a (clock (m t)))
  | Raise e => Session (Raise e) (map Tool (trace (m t))) (clock (m t))
  end.
Proof. reflexivity. Qed.

Lemma before_nil {A} (s : session A) : before [] s = s.
Proof. now destruct s. Qed.

Lemma before_before {A} (a b : list console) (s : session A) :
  before a (before b s) = before (a ++ b) s.
Proof. unfold before; cbn [ending history finish]. now rewrite app_assoc. Qed.

Lemma input_eq {A} (prompt : str) (keys : list typed)
      (k : str -> list typed -> menu A) (t : nat) :
  input prompt keys k t =
  before [Tool (Stdout prompt)]
         match keys with
         | [] => Session (Raise EOFError) [] t
         | Interrupt :: _ => Session (Raise KeyboardInterrupt) [] t
         | Line s :: rest => k s rest t
         end.
Proof. unfold input. rewrite mbind_say. now destruct keys as [|[s|] rest]. Qed.

Lemma commands_app (a b : list console) : commands (a ++ b) = commands a ++ commands b.
Proof. apply flat_map_app. Qed.

Lemma warnings_app (a b : list console) : warnings (a ++ b) = warnings a ++ warnings b.
Proof. apply flat_map_app. Qed.

Lemma warnings_tools (tr : list effect) : warnings (map Tool tr) = [].
Proof. induction tr; [reflexivity | exact IHtr]. Qed.

Lemma commands_quiet (tr : list effect) :
  count_exec tr = 0 -> commands (map Tool tr) = [].
Proof.
  induction tr as [|e tr IH]; [reflexivity|].
  unfold count_exec in *. destruct e; cbn [filter length map commands flat_map app];
    try exact IH. discriminate.
Qed.

Lemma commands_tools_app (a b : list effect) :
  commands (map Tool (a ++ b)) = commands (map Tool a) ++ commands (map Tool b).
Proof. now rewrite map_app, commands_app. Qed.

(* ================================================================= *)
(** ** What the runs hand to the menu *)

(** A run of the repair tool returns what [returned] builds, or raises
    what is no [Exception]. *)
Lemma run_dism_outcome path args r cap os t :
  match outcome (run_dism_command path args r cap os t) with
  | Ok v => exists b text, v = returned cap b text
  | Raise e => is_Exception e = false
  end.
Proof.
  destruct os as [e|c].
  - rewrite run_dism_spawn_fails. destruct (dism_handler cap e) as [h|] eqn:Hh.
    + rewrite (dism_handler_eq _ _ Hh). cbn [prepend outcome]. eauto.
    + cbn [outcome]. destruct e; try discriminate. reflexivity.
  - rewrite run_dism_spawns. cbv zeta.
    destruct (dism_loop r (spawned (path :: args) c t) (output c) initial_state [] t)
      as [[locals|e] tr k]; cbn [outcome trace clock].
    + eauto.
    + destruct (dism_handler cap e) as [h|] eqn:Hh.
      * rewrite (dism_handler_eq _ _ Hh). cbn [prepend outcome]. eauto.
      * cbn [outcome]. destruct e; try discriminate. reflexivity.
Qed.

Lemma run_sfc_outcome lim u os t e :
  outcome (run_sfc lim u os t) = Raise e -> is_Exception e = false.
Proof.
  rewrite run_sfc_eq.
  destruct (sfc_body lim u os t) as [[b|e'] tr k]; cbn [outcome trace clock prepend].
  - discriminate.
  - destruct (is_Exception e') eqn:He; cbn [outcome]; [discriminate|].
    intros H. now inversion H; subst.
Qed.

(** The trace of a run of the repair tool begins with its introduction,
    which ends with the spawn. *)
Lemma run_dism_begins path args r cap os t :
  exists rest,
    trace (run_dism_command path args r cap os t) = dism_intro path args r ++ rest.
Proof.
  destruct os as [e|c].
  - rewrite run_dism_spawn_fails. destruct (dism_handler cap e) as [h|] eqn:Hh.
    + cbn [prepend trace]. eauto.
    + exists []. cbn [trace]. now rewrite app_nil_r.
  - rewrite run_dism_spawns. cbv zeta.
    destruct (dism_loop r (spawned (path :: args) c t) (output c) initial_state [] t)
      as [[locals|e] tr k]; cbn [outcome trace clock]; unfold dism_header.
    + rewrite <- app_assoc. eauto.
    + destruct (dism_handler cap e) as [h|]; cbn [prepend trace];
        rewrite <- !app_assoc; eauto.
Qed.

Lemma commands_intro path args r :
  commands (map Tool (dism_intro path args r)) = [path :: args].
Proof. destruct r; reflexivity. Qed.

(** A run of the repair tool starts its command and nothing else. *)
Lemma run_dism_commands path args r cap os t :
  commands (map Tool (trace (run_dism_command path args r cap os t))) = [path :: args].
Proof.
  pose proof (run_dism_spawns_once path args r cap os t) as Hn.
  destruct (run_dism_begins path args r cap os t) as [rest E].
  rewrite E in *. rewrite count_exec_app, count_exec_intro in Hn.
  rewrite commands_tools_app, commands_intro, commands_quiet; [reflexivity | lia].
Qed.

Lemma run_sfc_begins lim u os t :
  exists rest, trace (run_sfc lim u os t) = sfc_intro ++ Exec sfc_command :: rest.
Proof.
  rewrite run_sfc_eq. destruct os as [e|c].
  - rewrite sfc_body_spawn_fails. cbn [outcome trace clock prepend].
    destruct (is_Exception e); cbn [trace prepend app]; eauto.
  - rewrite sfc_body_spawns. cbv zeta.
    destruct (sfc_loop lim u (spawned sfc_command c t) (output c) (-1)%Z [] t)
      as [[locals|e] tr k]; cbn [outcome trace clock prepend].
    + unfold sfc_header. cbn [app]. eauto.
    + unfold sfc_header. destruct (is_Exception e); cbn [trace prepend app]; eauto.
Qed.

(** A run of the file checker starts its command and nothing else. *)
Lemma run_sfc_commands lim u os t :
  commands (map Tool (trace (run_sfc lim u os t))) = [sfc_command].
Proof.
  pose proof (run_sfc_spawns_once lim u os t) as Hn.
  destruct (run_sfc_begins lim u os t) as [rest E].
  rewrite E in *. rewrite count_exec_app in Hn.
  rewrite commands_tools_app. cbn [map commands flat_map app].
  change (flat_map _ (map Tool rest)) with (commands (map Tool rest)).
  assert (Hq : count_exec rest = 0).
  { change (count_exec (Exec sfc_command :: rest)) with (S (count_exec rest)) in Hn.
    change (count_exec sfc_intro) with 0 in Hn. lia. }
  now rewrite (commands_quiet _ Hq).
Qed.

Lemma scan_health_eq dp os t :
  scan_health dp os t =
  prepend [ print (NL ++ lit "[SCAN] Scanning Windows System Health...");
            print (lit "This checks for corruption but does not repair.") ]
          (run_dism_command dp scan_args false true os t).
Proof. reflexivity. Qed.

Lemma restore_health_eq dp os t :
  restore_health dp os t =
  prepend [ print (NL ++ lit "[REPAIR] Repairing Windows System Health...");
            print (lit "This will scan AND repair any corruption found.") ]
          (run_dism_command dp restore_args true false os t).
Proof. reflexivity. Qed.

(** [scan_health] returns a pair, and [restore_health] a flag. *)
Lemma scan_health_outcome dp os t :
  match outcome (scan_health dp os t) with
  | Ok v => exists b text, v = FlagText b text
  | Raise e => is_Exception e = false
  end.
Proof.
  rewrite scan_health_eq. cbn [prepend outcome].
  exact (run_dism_outcome dp scan_args false true os t).
Qed.

Lemma restore_health_outcome dp os t :
  match outcome (restore_health dp os t) with
  | Ok v => exists b, v = Flag b
  | Raise e => is_Exception e = false
  end.
Proof.
  rewrite restore_health_eq. cbn [prepend outcome].
  pose proof (run_dism_outcome dp restore_args true false os t) as H.
  destruct (outcome (run_dism_command dp restore_args true false os t)) as [v|e];
    [|exact H].
  destruct H as (b & text & ->). now exists b.
Qed.

Lemma scan_health_commands dp os t :
  commands (map Tool (trace (scan_health dp os t))) = [dp :: scan_args].
Proof.
  rewrite scan_health_eq. cbn [prepend trace].
  rewrite commands_tools_app, run_dism_commands. reflexivity.
Qed.

Lemma restore_health_commands dp os t :
  commands (map Tool (trace (restore_health dp os t))) = [dp :: restore_args].
Proof.
  rewrite restore_health_eq. cbn [prepend trace].
  rewrite commands_tools_app, run_dism_commands. reflexivity.
Qed.

(** The report of a scan ends normally, at once, and starts nothing. *)
Lemma scan_report_session success output t :
  exists h, scan_report success output t = Session (Ok tt) h t /\ commands h = [].
Proof.
  unfold scan_report.
  destruct (contains (lit "No component store corruption detected") output);
    [|destruct (contains (lit "repairable") (lower output)); [|destruct success]];
    eexists; split; reflexivity.
Qed.

(** What a run of the repair tool returns when every read returns
    text. *)
Lemma run_dism_text path args r cap (c : child str) t :
  all_data (output c) ->
  outcome (run_dism_command path args r cap (Spawns c) t) =
  Ok (returned cap (exit_code c =? 0)%Z (join NL (lines_of (output c)))).
Proof.
  intros Hd. rewrite run_dism_spawns. cbv zeta.
  destruct (@dism_loop_lines r (spawned (path :: args) c t) (output c) Hd
                             initial_state [] t) as (st' & Ho & _).
  destruct (dism_loop r (spawned (path :: args) c t) (output c) initial_state [] t)
    as [o tr k].
  cbn [outcome trace clock app] in *. subst o. reflexivity.
Qed.

Lemma before_say (h : list console) (es : list effect) (t : nat) :
  before h (say es t) = Session (Ok tt) (h ++ map Tool es) t.
Proof. reflexivity. Qed.

(* ================================================================= *)
(** ** The four options *)

(** X11. Option 1 on a scan whose reads all return text ends normally
    and has started the scan and nothing else.  Its report is chosen
    by the text before the flag: when the text holds the phrase of a
    healthy store the last entries are the message of a healthy system,
    printed and logged, and nothing is logged as a warning, whatever the
    exit code; a warning is logged only when the exit code is not zero
    and the text holds neither that phrase nor, in lower case,
    the word repairable. *)
Theorem scan_report_reads_text (dism_path : str) (c : child str) (t : nat) :
  all_data (output c) ->
  let text := join NL (lines_of (output c)) in
  let r := option_scan dism_path (Spawns c) t in
  ending r = Ok tt
  /\ commands (history r) = [dism_path :: scan_args]
  /\ (occurs healthy_phrase text ->
      warnings (history r) = []
      /\ exists h,
          history r =
          h ++ [ Tool (print (NL ++ lit "[SUCCESS] Scan complete - system is healthy!"));
                 Tool (LogInfo (lit "User action: Scan Health - system is healthy")) ])
  /\ (warnings (history r) <> [] <->
      exit_code c <> 0%Z /\ ~ occurs healthy_phrase text
      /\ ~ occurs (lit "repairable") (lower text)).
Proof.
  intros Hd text r. subst r. unfold option_scan. rewrite mbind_perform.
  pose proof (scan_health_commands dism_path (Spawns c) t) as Hc.
  revert Hc. rewrite scan_health_eq. cbn [prepend outcome trace clock].
  rewrite (run_dism_text dism_path scan_args false true c t Hd).
  cbn [returned]. fold text.
  match goal with
  | |- context [before (map Tool ?x) _] => set (tr := map Tool x)
  end.
  intros Hc.
  match goal with
  | |- context [clock ?x] => set (k := clock x)
  end.
  unfold scan_report.
  change (lit "No component store corruption detected") with healthy_phrase.
  destruct (contains healthy_phrase text) eqn:Hh.
  - rewrite before_say. cbn [ending history].
    apply contains_spec in Hh.
    split; [reflexivity|]. split; [|split; [|split]].
    + rewrite commands_app, Hc. reflexivity.
    + intros _. split.
      * rewrite warnings_app. unfold tr. rewrite !warnings_tools. reflexivity.
      * exists tr. reflexivity.
    + intros Hw. exfalso. apply Hw.
      rewrite warnings_app. unfold tr. rewrite !warnings_tools. reflexivity.
    + intros (_ & Hn & _). now destruct Hn.
  - apply contains_false in Hh.
    destruct (contains (lit "repairable") (lower text)) eqn:Hr.
    + rewrite before_say. cbn [ending history].
      apply contains_spec in Hr.
      split; [reflexivity|]. split; [|split; [|split]].
      * rewrite commands_app, Hc. reflexivity.
      * intros Ho. now destruct Hh.
      * intros Hw. exfalso. apply Hw.
        rewrite warnings_app. unfold tr. rewrite !warnings_tools. reflexivity.
      * intros (_ & _ & Hn). now destruct Hn.
    + apply contains_false in Hr.
      destruct (exit_code c =? 0)%Z eqn:He.
      * rewrite before_say. cbn [ending history].
        apply Z.eqb_eq in He.
        split; [reflexivity|]. split; [|split; [|split]].
        -- rewrite commands_app, Hc. reflexivity.
        -- intros Ho. now destruct Hh.
        -- intros Hw. exfalso. apply Hw.
           rewrite warnings_app. unfold tr. rewrite !warnings_tools. reflexivity.
        -- intros (Hn & _ & _). now destruct Hn.
      * rewrite mbind_say. unfold warn. cbn [before ending history finish].
        apply Z.eqb_neq in He.
        split; [reflexivity|]. split; [|split; [|split]].
        -- rewrite !commands_app, Hc. reflexivity.
        -- intros Ho. now destruct Hh.
        -- intros _. now repeat split.
        -- intros _. rewrite !warnings_app. unfold tr. rewrite !warnings_tools.
           discriminate.
Qed.

Lemma scan_report_reads_text_witness :
  all_data (output healthy_but_failed_scan)
  /\ occurs healthy_phrase (join NL (lines_of (output healthy_but_failed_scan)))
  /\ exit_code healthy_but_failed_scan = 1%Z
  /\ warnings (history (option_scan (lit "dism.exe") (Spawns healthy_but_failed_scan) 0))
     = [].
Proof.
  assert (H : all_data (output healthy_but_failed_scan))
    by (repeat constructor; discriminate).
  assert (Ho : occurs healthy_phrase (join NL (lines_of (output healthy_but_failed_scan))))
    by (apply contains_spec; vm_compute; reflexivity).
  split; [exact H|]. split; [exact Ho|]. split; [reflexivity|].
  exact (proj1 (proj1 (proj2 (proj2 (@scan_report_reads_text (lit "dism.exe") _ 0 H)))
                      Ho)).
Defined.



(** X13. Options 2 and 3 on runs in which no read raises and, for the
    file check, the bar of every percentage shown can be drawn: each
    ends normally, has started its own command and nothing else, and
    logs its warning exactly when the exit code of its child is not
    zero, whatever else the child has written. *)
Theorem reports_follow_exit_codes (lim : limits) (dism_path : str)
        (utf8_ignore : bytes -> str)
        (c : child str) (c' : child bytes) (t : nat) :
  no_fault (output c) -> no_fault (output c') ->
  bars_drawn lim utf8_ignore (output c') ->
  let repair := option_restore dism_path (Spawns c) t in
  let check := option_sfc lim utf8_ignore (Spawns c') t in
  (ending repair = Ok tt
   /\ commands (history repair) = [dism_path :: restore_args]
   /\ (warnings (history repair) = [] <-> exit_code c = 0%Z))
  /\ (ending check = Ok tt
      /\ commands (history check) = [sfc_command]
      /\ (warnings (history check) = [] <-> exit_code c' = 0%Z)).
Proof.
  intros Hn Hn' Hb repair check. subst repair check. split.
  - unfold option_restore. rewrite mbind_perform.
    pose proof (restore_health_commands dism_path (Spawns c) t) as Hc.
    revert Hc. rewrite restore_health_eq. cbn [prepend outcome trace clock].
    destruct (@run_dism_flag dism_path restore_args true false c t Hn) as [text ->].
    cbn [returned truth].
    match goal with
    | |- context [before (map Tool ?x) _] => set (tr := map Tool x)
    end.
    intros Hc. destruct (exit_code c =? 0)%Z eqn:He.
    + rewrite before_say. cbn [ending history]. apply Z.eqb_eq in He.
      split; [reflexivity|]. split.
      * rewrite commands_app, Hc. reflexivity.
      * split; [intros _; exact He|]. intros _.
        rewrite warnings_app. unfold tr. rewrite !warnings_tools. reflexivity.
    + rewrite mbind_say. unfold warn. cbn [before ending history finish].
      apply Z.eqb_neq in He.
      split; [reflexivity|]. split.
      * rewrite !commands_app, Hc. reflexivity.
      * split; [|intros H; now destruct He].
        rewrite !warnings_app. unfold tr. rewrite !warnings_tools. discriminate.
  - unfold option_sfc. rewrite mbind_perform.
    pose proof (run_sfc_commands lim utf8_ignore (Spawns c') t) as Hc.
    rewrite (@run_sfc_flag lim utf8_ignore c' t Hn' Hb).
    set (tr := map Tool _) in *.
    destruct (exit_code c' =? 0)%Z eqn:He.
    + rewrite before_say. cbn [ending history]. apply Z.eqb_eq in He.
      split; [reflexivity|]. split.
      * rewrite commands_app, Hc. reflexivity.
      * split; [intros _; exact He|]. intros _.
        rewrite warnings_app. unfold tr. rewrite !warnings_tools. reflexivity.
    + rewrite mbind_say. unfold warn. cbn [before ending history finish].
      apply Z.eqb_neq in He.
      split; [reflexivity|]. split.
      * rewrite !commands_app, Hc. reflexivity.
      * split; [|intros H; now destruct He].
        rewrite !warnings_app. unfold tr. rewrite !warnings_tools. discriminate.
Qed.

Lemma reports_follow_exit_codes_witness :
  no_fault (output failed_repair) /\ no_fault (output unrepaired_child)
  /\ bars_drawn host64 (fun _ => []) (output unrepaired_child)
  /\ warnings (history (option_sfc host64 (fun _ => []) (Spawns unrepaired_child) 0)) = [].
Proof.
  assert (H : no_fault (output failed_repair)) by (repeat constructor).
  assert (H' : no_fault (output unrepaired_child)) by (repeat constructor).
  assert (Hb : bars_drawn host64 (fun _ => []) (output unrepaired_child)).
  { repeat constructor. intros percent Hp. vm_compute in Hp. discriminate. }
  split; [exact H|]. split; [exact H'|]. split; [exact Hb|].
  destruct (@reports_follow_exit_codes host64 (lit "dism.exe") (fun _ => []) failed_repair
                                       unrepaired_child 0 H H' Hb)
    as (_ & _ & _ & Hw).
  exact (proj2 Hw eq_refl).
Defined.

(* ================================================================= *)
(** ** The loop of the menu *)

Lemma str_eqb_eq (a b : str) : str_eqb a b = true <-> a = b.
Proof.
  revert b. induction a as [|x a IH]; intros [|y b]; cbn [str_eqb];
    try (split; [discriminate | discriminate]); [tauto|].
  unfold char_eqb. rewrite andb_true_iff, N.eqb_eq, IH.
  split; [intros [-> ->]; reflexivity | intros H; now inversion H].
Qed.

Lemma ending_before {A} (h : list console) (s : session A) :
  ending (before h s) = ending s.
Proof. reflexivity. Qed.

Lemma history_before {A} (h : list console) (s : session A) :
  history (before h s) = h ++ history s.
Proof. reflexivity. Qed.

(** An option is left by an exception only when a run is interrupted. *)
Lemma option_scan_raises dp os t e :
  ending (option_scan dp os t) = Raise e -> is_Exception e = false.
Proof.
  unfold option_scan. rewrite mbind_perform.
  pose proof (scan_health_outcome dp os t) as H.
  destruct (scan_health dp os t) as [[v|e'] tr k]; cbn [outcome trace clock] in *.
  - destruct H as (b & text & ->). rewrite ending_before.
    destruct (scan_report_session b text k) as (h & -> & _). discriminate.
  - cbn [ending]. intros E. now inversion E; subst.
Qed.

Lemma option_restore_raises dp os t e :
  ending (option_restore dp os t) = Raise e -> is_Exception e = false.
Proof.
  unfold option_restore. rewrite mbind_perform.
  pose proof (restore_health_outcome dp os t) as H.
  destruct (restore_health dp os t) as [[v|e'] tr k]; cbn [outcome trace clock] in *.
  - rewrite ending_before. destruct (truth v); discriminate.
  - cbn [ending]. intros E. now inversion E; subst.
Qed.

Lemma option_sfc_raises lim u os t e :
  ending (option_sfc lim u os t) = Raise e -> is_Exception e = false.
Proof.
  unfold option_sfc. rewrite mbind_perform.
  pose proof (@run_sfc_outcome lim u os t) as H.
  destruct (run_sfc lim u os t) as [[v|e'] tr k]; cbn [outcome trace clock] in *.
  - rewrite ending_before. destruct v; discriminate.
  - cbn [ending]. intros E. inversion E; subst. now apply H.
Qed.

Lemma option_full_raises lim dp u os os' t e :
  ending (option_full lim dp u os os' t) = Raise e -> is_Exception e = false.
Proof.
  unfold option_full. rewrite mbind_say, mbind_perform, ending_before.
  pose proof (restore_health_outcome dp os t) as H.
  destruct (restore_health dp os t) as [[v|e'] tr k]; cbn [outcome trace clock] in *.
  - rewrite ending_before, mbind_say, ending_before, mbind_perform.
    pose proof (@run_sfc_outcome lim u os' k) as H'.
    destruct (run_sfc lim u os' k) as [[v'|e'] tr' k']; cbn [outcome trace clock] in *.
    + rewrite ending_before, mbind_say, ending_before.
      destruct (truth v && v'); discriminate.
    + cbn [ending]. intros E. inversion E; subst. now apply H'.
  - cbn [ending]. intros E. now inversion E; subst.
Qed.

(** What each option starts. *)
Lemma option_scan_commands dp os t :
  commands (history (option_scan dp os t)) = [dp :: scan_args].
Proof.
  unfold option_scan. rewrite mbind_perform.
  pose proof (scan_health_commands dp os t) as Hc.
  destruct (scan_health dp os t) as [[[b|b text]|e'] tr k]; cbn [outcome trace clock] in *.
  - rewrite history_before, commands_app, Hc. reflexivity.
  - rewrite history_before, commands_app, Hc.
    destruct (scan_report_session b text k) as (h & -> & Hh).
    cbn [history]. rewrite Hh. reflexivity.
  - exact Hc.
Qed.

Lemma option_restore_commands dp os t :
  commands (history (option_restore dp os t)) = [dp :: restore_args].
Proof.
  unfold option_restore. rewrite mbind_perform.
  pose proof (restore_health_commands dp os t) as Hc.
  destruct (restore_health dp os t) as [[v|e'] tr k]; cbn [outcome trace clock] in *.
  - rewrite history_before, commands_app, Hc. destruct (truth v); reflexivity.
  - exact Hc.
Qed.

Lemma option_sfc_commands lim u os t :
  commands (history (option_sfc lim u os t)) = [sfc_command].
Proof.
  unfold option_sfc. rewrite mbind_perform.
  pose proof (run_sfc_commands lim u os t) as Hc.
  destruct (run_sfc lim u os t) as [[v|e'] tr k]; cbn [outcome trace clock] in *.
  - rewrite history_before, commands_app, Hc. destruct v; reflexivity.
  - exact Hc.
Qed.

Lemma option_full_commands lim dp u os os' t :
  commands (history (option_full lim dp u os os' t)) = [dp :: restore_args]
  \/ commands (history (option_full lim dp u os os' t)) = [dp :: restore_args; sfc_command].
Proof.
  unfold option_full. rewrite mbind_say, mbind_perform, history_before, commands_app.
  pose proof (restore_health_commands dp os t) as Hc.
  destruct (restore_health dp os t) as [[v|e'] tr k]; cbn [outcome trace clock] in *.
  - right. rewrite history_before, mbind_say, history_before, mbind_perform.
    pose proof (run_sfc_commands lim u os' k) as Hc'.
    destruct (run_sfc lim u os' k) as [[v'|e'] tr' k']; cbn [outcome trace clock] in *.
    + rewrite history_before, mbind_say, history_before, !commands_app, Hc, Hc'.
      destruct (truth v && v'); reflexivity.
    + cbn [history]. rewrite !commands_app, Hc, Hc'. reflexivity.
  - left. cbn [history]. rewrite Hc. reflexivity.
Qed.

(** One turn of the loop. *)
Lemma continue_eq (m : menu unit) (prompt : str) (keys1 : list typed)
      (k : list typed -> menu unit) (t : nat) :
  mbind m (fun _ => input prompt keys1 (fun _ keys2 => k keys2)) t =
  match ending (m t) with
  | Ok _ =>
      before (history (m t) ++ [Tool (Stdout prompt)])
             match keys1 with
             | [] => Session (Raise EOFError) [] (finish (m t))
             | Interrupt :: _ => Session (Raise KeyboardInterrupt) [] (finish (m t))
             | Line _ :: keys2 => k keys2 (finish (m t))
             end
  | Raise e => Session (Raise e) (history (m t)) (finish (m t))
  end.
Proof.
  rewrite mbind_session. destruct (ending (m t)); [|reflexivity].
  now rewrite input_eq, before_before.
Qed.

(** The turn of the loop on the keys [keys]: the menu and the prompt
    are written, and the answer is taken apart. *)
Ltac loop_turn keys answer keys1 :=
  destruct keys as [|[answer|] keys1];
  cbn [menu_loop]; rewrite mbind_say, input_eq, before_before;
  [ | destruct (str_eqb (strip answer) (lit "0")) eqn:E0;
      [ | destruct (str_eqb (strip answer) (lit "1")) eqn:E1;
          [ | destruct (str_eqb (strip answer) (lit "2")) eqn:E2;
              [ | destruct (str_eqb (strip answer) (lit "3")) eqn:E3;
                  [ | destruct (str_eqb (strip answer) (lit "4")) eqn:E4 ]]]]
    | ].

(** The turn goes on after the option [m]: the session of the option is
    named, with the fact [H] about it, and the second prompt is
    answered. *)
Ltac option_turn H keys1 keys2 :=
  rewrite continue_eq;
  match goal with
  | |- context [ending (?m ?t)] =>
      let r := fresh "r" in
      let Er := fresh "Er" in
      pose proof (H t) as Hm;
      remember (m t) as r eqn:Er; clear Er;
      destruct r as [[[]|e'] h f]; cbn [ending history finish] in *;
      [ destruct keys1 as [|[?|] keys2] | ]
  end.

(** X14. The loop is left by an exception only when the input is
    closed or when the user, or what is no [Exception], interrupts it:
    no failure of a tool ends the session. *)
Theorem loop_survives_tools (lim : limits) (dism_path : str)
        (utf8_ignore : bytes -> str)
        (dism_runs : nat -> spawn str) (sfc_runs : nat -> spawn bytes)
        (keys : list typed) (nd ns t : nat) (e : exn) :
  ending (menu_loop lim dism_path utf8_ignore dism_runs sfc_runs keys nd ns t) = Raise e ->
  e = EOFError \/ is_Exception e = false.
Proof.
  remember (length keys) as n eqn:Hn.
  assert (Hle : length keys <= n) by lia. clear Hn.
  revert keys Hle nd ns t. induction n as [|n IH]; intros keys Hle nd ns t.
  - destruct keys; [|cbn in Hle; lia]. cbn [menu_loop].
    rewrite mbind_say, input_eq. cbn [before ending]. intros H. inversion H. now left.
  - loop_turn keys answer keys1; rewrite ?ending_before.
    + cbn [ending]. intros H. inversion H. now left.
    + discriminate.
    + option_turn (fun t => @option_scan_raises dism_path (dism_runs nd) t) keys1 keys2;
        rewrite ?ending_before; cbn [ending].
      * intros H. inversion H. now left.
      * apply IH. cbn [length] in Hle. lia.
      * intros H. inversion H. now right.
      * intros H. right. now apply Hm.
    + option_turn (fun t => @option_restore_raises dism_path (dism_runs nd) t) keys1 keys2;
        rewrite ?ending_before; cbn [ending].
      * intros H. inversion H. now left.
      * apply IH. cbn [length] in Hle. lia.
      * intros H. inversion H. now right.
      * intros H. right. now apply Hm.
    + option_turn (fun t => @option_sfc_raises lim utf8_ignore (sfc_runs ns) t) keys1 keys2;
        rewrite ?ending_before; cbn [ending].
      * intros H. inversion H. now left.
      * apply IH. cbn [length] in Hle. lia.
      * intros H. inversion H. now right.
      * intros H. right. now apply Hm.
    + option_turn (fun t => @option_full_raises lim dism_path utf8_ignore (dism_runs nd)
                                                (sfc_runs ns) t) keys1 keys2;
        rewrite ?ending_before; cbn [ending].
      * intros H. inversion H. now left.
      * apply IH. cbn [length] in Hle. lia.
      * intros H. inversion H. now right.
      * intros H. right. now apply Hm.
    + rewrite mbind_say, ending_before. apply IH. cbn [length] in Hle. lia.
    + cbn [ending]. intros H. inversion H. now right.
Qed.

Lemma loop_survives_tools_witness :
  ending (menu_loop host64 (lit "dism.exe") (fun _ => [])
                    (fun _ => SpawnFails (OSError (lit "Access is denied")))
                    (fun _ => Spawns unrepaired_child)
                    [Line (lit "2")] 0 0 0) = Raise EOFError
  /\ (EOFError = EOFError \/ is_Exception EOFError = false).
Proof.
  assert (H : ending (menu_loop host64 (lit "dism.exe") (fun _ => [])
                        (fun _ => SpawnFails (OSError (lit "Access is denied")))
                        (fun _ => Spawns unrepaired_child)
                        [Line (lit "2")] 0 0 0) = Raise EOFError)
    by (vm_compute; reflexivity).
  split; [exact H|].
  exact (@loop_survives_tools _ _ _ _ _ _ _ _ _ _ H).
Defined.

Lemma commands_menu (prompt : str) :
  commands (map Tool show_menu ++ [Tool (Stdout prompt)]) = [].
Proof. reflexivity. Qed.

Lemma warnings_menu (prompt : str) :
  warnings (map Tool show_menu ++ [Tool (Stdout prompt)]) = [].
Proof. reflexivity. Qed.

(** The goals on the commands of a turn, one for each part of its
    history. *)
Ltac turn_commands IH Hle :=
  rewrite ?history_before, ?commands_app, ?Forall_app;
  cbn [history commands flat_map app map print];
  repeat match goal with
         | |- _ /\ _ => split
         | |- Forall _ [] => apply Forall_nil
         | |- Forall _ (_ :: _) => apply Forall_cons; [auto|]
         | |- Forall _ (commands (history (menu_loop _ _ _ _ _ _ _ _ _))) =>
             apply IH; cbn [length] in Hle; lia
         end.

(** The three commands of the program. *)
Lemma loop_commands lim dp u dr sr : forall n keys, length keys <= n -> forall nd ns t,
  Forall (fun a => a = dp :: scan_args \/ a = dp :: restore_args \/ a = sfc_command)
         (commands (history (menu_loop lim dp u dr sr keys nd ns t))).
Proof.
  induction n as [|n IH]; intros keys Hle nd ns t.
  - destruct keys; [|cbn in Hle; lia]. cbn [menu_loop].
    rewrite mbind_say, input_eq. constructor.
  - loop_turn keys answer keys1; rewrite history_before, commands_app, commands_menu;
      cbn [app].
    + constructor.
    + constructor.
    + option_turn (fun t => @option_scan_commands dp (dr nd) t) keys1 keys2;
        turn_commands IH Hle; rewrite Hm; turn_commands IH Hle.
    + option_turn (fun t => @option_restore_commands dp (dr nd) t) keys1 keys2;
        turn_commands IH Hle; rewrite Hm; turn_commands IH Hle.
    + option_turn (fun t => @option_sfc_commands lim u (sr ns) t) keys1 keys2;
        turn_commands IH Hle; rewrite Hm; turn_commands IH Hle.
    + option_turn (fun t => @option_full_commands lim dp u (dr nd) (sr ns) t) keys1 keys2;
        destruct Hm as [Hm|Hm];
        turn_commands IH Hle; rewrite Hm; turn_commands IH Hle.
    + rewrite mbind_say. turn_commands IH Hle.
    + constructor.
Qed.

Lemma ends_before {A} (a tl : list console) (s : session A) :
  (exists h, history s = h ++ tl) -> exists h, history (before a s) = h ++ tl.
Proof.
  intros [h E]. exists (a ++ h). rewrite history_before, E. apply app_assoc.
Qed.

(** The loop ends normally only on the choice 0, and then with the
    farewell. *)
Lemma loop_exit lim dp u dr sr : forall n keys, length keys <= n -> forall nd ns t,
  ending (menu_loop lim dp u dr sr keys nd ns t) = Ok tt ->
  (exists answer, In (Line answer) keys /\ strip answer = lit "0")
  /\ exists h,
      history (menu_loop lim dp u dr sr keys nd ns t) =
      h ++ [ Tool (print (NL ++ lit "Exiting pydism..."));
             Tool (LogInfo (lit "pydism session ended")) ].
Proof.
  induction n as [|n IH]; intros keys Hle nd ns t.
  - destruct keys; [|cbn in Hle; lia]. cbn [menu_loop].
    rewrite mbind_say, input_eq. discriminate.
  - loop_turn keys answer keys1; rewrite ending_before.
    + discriminate.
    + intros _. split.
      * exists answer. split; [now left | now apply str_eqb_eq].
      * eexists. reflexivity.
    + option_turn (fun t : nat => I) keys1 keys2; rewrite ?ending_before;
        try discriminate.
      intros H. destruct (IH keys2 ltac:(cbn [length] in Hle; lia) _ _ _ H)
        as ((a & Ha & Hs) & Hh).
      split; [exists a; split; [now right; right | exact Hs]|].
      now apply ends_before, ends_before.
    + option_turn (fun t : nat => I) keys1 keys2; rewrite ?ending_before;
        try discriminate.
      intros H. destruct (IH keys2 ltac:(cbn [length] in Hle; lia) _ _ _ H)
        as ((a & Ha & Hs) & Hh).
      split; [exists a; split; [now right; right | exact Hs]|].
      now apply ends_before, ends_before.
    + option_turn (fun t : nat => I) keys1 keys2; rewrite ?ending_before;
        try discriminate.
      intros H. destruct (IH keys2 ltac:(cbn [length] in Hle; lia) _ _ _ H)
        as ((a & Ha & Hs) & Hh).
      split; [exists a; split; [now right; right | exact Hs]|].
      now apply ends_before, ends_before.
    + option_turn (fun t : nat => I) keys1 keys2; rewrite ?ending_before;
        try discriminate.
      intros H. destruct (IH keys2 ltac:(cbn [length] in Hle; lia) _ _ _ H)
        as ((a & Ha & Hs) & Hh).
      split; [exists a; split; [now right; right | exact Hs]|].
      now apply ends_before, ends_before.
    + rewrite mbind_say, ending_before. intros H.
      destruct (IH keys1 ltac:(cbn [length] in Hle; lia) _ _ _ H)
        as ((a & Ha & Hs) & Hh).
      split; [exists a; split; [now right | exact Hs]|].
      now apply ends_before, ends_before.
    + discriminate.
Qed.

Lemma tool_choice_false (answer : str) :
  tool_choice answer = false ->
  str_eqb (strip answer) (lit "1") = false /\ str_eqb (strip answer) (lit "2") = false
  /\ str_eqb (strip answer) (lit "3") = false /\ str_eqb (strip answer) (lit "4") = false.
Proof.
  unfold tool_choice. rewrite !orb_false_iff. tauto.
Qed.

(** A loop in which no option with a tool is chosen starts nothing and
    warns of nothing. *)
Lemma loop_idle lim dp u dr sr : forall keys nd ns t,
  (forall answer, In (Line answer) keys -> tool_choice answer = false) ->
  commands (history (menu_loop lim dp u dr sr keys nd ns t)) = []
  /\ warnings (history (menu_loop lim dp u dr sr keys nd ns t)) = [].
Proof.
  induction keys as [|key keys1 IH]; intros nd ns t Hk.
  - cbn [menu_loop]. rewrite mbind_say, input_eq. split; reflexivity.
  - assert (Hk1 : forall answer, In (Line answer) keys1 -> tool_choice answer = false)
      by (intros a Ha; apply Hk; now right).
    destruct key as [answer|]; cbn [menu_loop]; rewrite mbind_say, input_eq, before_before;
      [|split; reflexivity].
    destruct (tool_choice_false answer (Hk answer (or_introl eq_refl)))
      as (E1 & E2 & E3 & E4).
    rewrite E1, E2, E3, E4.
    destruct (str_eqb (strip answer) (lit "0")).
    + split; reflexivity.
    + rewrite mbind_say, !history_before.
      rewrite commands_app, warnings_app, commands_menu, warnings_menu,
        commands_app, warnings_app.
      destruct (IH nd ns t Hk1) as [-> ->]. split; reflexivity.
Qed.

(* ================================================================= *)
(** ** Without the rights of an administrator *)

Lemma not_Z_true (z : Z) : not_Z z = true <-> z = 0%Z.
Proof. apply Z.eqb_eq. Qed.

(** X15. [run_as_admin] in a process that is no administrator asks
    once, and first, for an elevated copy.  It ends the program with
    the code 0 exactly when the shell answers with more than 32, and
    otherwise with the code 1, also when the request raises an
    [Exception] or the input is closed at its prompt; it never returns
    to [main], and only an interrupt leaves it as an exception.  All it
    does beside the request is to print. *)
Theorem relaunch_exit_code (answer launch : res Z) (keys : list typed) (t : nat) :
  is_admin answer = 0%Z ->
  let r := run_as_admin answer launch keys t in
  (ending r = Ok (Some 0%Z) <-> exists z, launch = Ok z /\ (32 < z)%Z)
  /\ (ending r = Ok (Some 0%Z) \/ ending r = Ok (Some 1%Z)
      \/ exists e, ending r = Raise e /\ is_Exception e = false)
  /\ (exists h, history r = Relaunch :: h
                /\ forall x, In x h -> exists s, x = Tool (Stdout s)).
Proof.
  intros Ha r. subst r. unfold run_as_admin. apply not_Z_true in Ha. rewrite Ha.
  unfold mtry, ShellExecuteW. rewrite mbind_session. cbn [ending history finish].
  destruct launch as [z|e].
  - destruct (32 <? z)%Z eqn:Hz.
    + apply Z.ltb_lt in Hz. cbn [before mret ending history finish app].
      split; [split; [intros _; now exists z | reflexivity]|].
      split; [now left|].
      exists []. split; [reflexivity | intros x []].
    + apply Z.ltb_ge in Hz. rewrite mbind_say, input_eq.
      destruct keys as [|[s|] keys1];
        cbn [before mret mbind say ending history finish app map is_Exception EOFError].
      * split; [split; [discriminate | intros (z' & E & Hz'); inversion E; lia]|].
        split; [right; now left|].
        eexists. split; [reflexivity|].
        intros x Hx. cbn [In] in Hx.
        repeat (destruct Hx as [<-|Hx]; [eexists; reflexivity|]). destruct Hx.
      * split; [split; [discriminate | intros (z' & E & Hz'); inversion E; lia]|].
        split; [right; now left|].
        eexists. split; [reflexivity|].
        intros x Hx. cbn [In] in Hx.
        repeat (destruct Hx as [<-|Hx]; [eexists; reflexivity|]). destruct Hx.
      * split; [split; [discriminate | intros (z' & E & Hz'); inversion E; lia]|].
        split; [right; right; now exists KeyboardInterrupt|].
        eexists. split; [reflexivity|].
        intros x Hx. cbn [In] in Hx.
        repeat (destruct Hx as [<-|Hx]; [eexists; reflexivity|]). destruct Hx.
  - cbn [before ending history finish]. destruct (is_Exception e) eqn:He;
      cbn [before mret mbind say ending history finish app map].
    + split; [split; [discriminate | intros (z' & E & _); discriminate]|].
      split; [right; now left|].
      eexists. split; [reflexivity|].
      intros x Hx. cbn [In] in Hx.
      repeat (destruct Hx as [<-|Hx]; [eexists; reflexivity|]). destruct Hx.
    + split; [split; [discriminate | intros (z' & E & _); discriminate]|].
      split; [right; right; now exists e|].
      exists []. split; [reflexivity | intros x []].
Qed.

Lemma relaunch_exit_code_witness :
  is_admin (Raise (OSError (lit "function 'IsUserAnAdmin' not found"))) = 0%Z
  /\ ending (run_as_admin (Raise (OSError (lit "function 'IsUserAnAdmin' not found")))
                          (Ok 42%Z) [] 0) = Ok (Some 0%Z).
Proof.
  split; [reflexivity|].
  apply (proj1 (@relaunch_exit_code
                  (Raise (OSError (lit "function 'IsUserAnAdmin' not found")))
                  (Ok 42%Z) [] 0 eq_refl)).
  exists 42%Z. split; [reflexivity | reflexivity].
Defined.

(** Beside the request, [run_as_admin] only prints, and nothing it
    prints begins with the letter S. *)
Lemma run_as_admin_prints (answer launch : res Z) (keys : list typed) (t : nat) :
  finish (run_as_admin answer launch keys t) = t
  /\ Forall (fun x => x = Relaunch
                      \/ exists c s, x = Tool (Stdout (c :: s)) /\ c <> 83%N)
            (history (run_as_admin answer launch keys t)).
Proof.
  unfold run_as_admin, mtry, ShellExecuteW.
  destruct (not_Z (is_admin answer)); [|split; [reflexivity | constructor]].
  rewrite mbind_session. cbn [ending history finish].
  destruct launch as [z|e].
  - destruct (32 <? z)%Z.
    + split; [reflexivity|]. repeat constructor.
    + rewrite mbind_say, input_eq.
      destruct keys as [|[s|] keys1];
        cbn [before mret mbind say ending history finish app map is_Exception EOFError];
        (split; [reflexivity|]);
        repeat (apply Forall_cons;
                [first [now left
                       | right; eexists; eexists; split;
                         [reflexivity | vm_compute; discriminate]]|]);
        apply Forall_nil.
  - cbn [before ending history finish]. destruct (is_Exception e);
      cbn [before mret mbind say ending history finish app map];
      (split; [reflexivity|]);
      repeat (apply Forall_cons;
              [first [now left
                     | right; eexists; eexists; split;
                       [reflexivity | vm_compute; discriminate]]|]);
      apply Forall_nil.
Qed.

(** X16. In a process that is no administrator [main] never reaches the
    menu: beside the request for an elevated copy it only prints, so it
    logs nothing and starts no tool; it never writes the prompt of the
    menu, and it ends as [run_as_admin] ends. *)
Theorem non_admin_never_reaches_menu (lim : limits) (dism_path : str)
        (utf8_ignore : bytes -> str)
        (env : surroundings) (t : nat) :
  is_admin (admin_answer env) = 0%Z ->
  let r := main lim dism_path utf8_ignore env t in
  (forall x, In x (history r) -> x = Relaunch \/ exists s, x = Tool (Stdout s))
  /\ ~ In (Tool (Stdout (lit "Select option: "))) (history r)
  /\ ending r = ending (run_as_admin (admin_again env) (launch_answer env)
                                     (keys_typed env) t).
Proof.
  intros Ha r. subst r. unfold main. apply not_Z_true in Ha. rewrite Ha.
  rewrite !mbind_say, before_before.
  destruct (run_as_admin_prints (admin_again env) (launch_answer env) (keys_typed env) t)
    as [_ Hh].
  rewrite Forall_forall in Hh.
  rewrite history_before, ending_before.
  split; [|split; [|reflexivity]].
  - intros x Hx. apply in_app_or in Hx. destruct Hx as [Hx|Hx].
    + cbn [map app In] in Hx.
      repeat (destruct Hx as [<-|Hx]; [right; eexists; reflexivity|]). destruct Hx.
    + destruct (Hh x Hx) as [->|(c & s & -> & _)]; [now left | right; eauto].
  - intros Hx. apply in_app_or in Hx. destruct Hx as [Hx|Hx].
    + cbn [map app In] in Hx.
      repeat (destruct Hx as [Hx|Hx]; [vm_compute in Hx; discriminate|]). destruct Hx.
    + destruct (Hh _ Hx) as [E|(c & s & E & Hc)]; [discriminate|].
      vm_compute in E. inversion E. subst c. now apply Hc.
Qed.

Lemma non_admin_never_reaches_menu_witness :
  is_admin (admin_answer (desk 0 [Line (lit "1")])) = 0%Z
  /\ ~ In (Tool (Stdout (lit "Select option: ")))
          (history (main host64 (lit "dism.exe") (fun _ => []) (desk 0 [Line (lit "1")]) 0))
  /\ ending (main host64 (lit "dism.exe") (fun _ => []) (desk 0 [Line (lit "1")]) 0)
     = Ok (Some 1%Z).
Proof.
  split; [reflexivity|].
  destruct (@non_admin_never_reaches_menu host64 (lit "dism.exe") (fun _ => [])
                                          (desk 0 [Line (lit "1")]) 0 eq_refl)
    as (_ & Hp & He).
  split; [exact Hp|]. rewrite He. vm_compute. reflexivity.
Defined.

(* ================================================================= *)
(** ** The session of an administrator *)

Lemma mbind_mret {A B} (m : menu A) (b : B) (t : nat) :
  mbind m (fun _ => mret b) t =
  Session match ending (m t) with
          | Ok _ => Ok b
          | Raise e => Raise e
          end
          (history (m t)) (finish (m t)).
Proof.
  rewrite mbind_session. destruct (m t) as [[a|e] h f]; cbn [ending history finish];
    [|reflexivity].
  unfold before, mret. cbn [ending history finish]. now rewrite app_nil_r.
Qed.

Lemma relaunches_app (a b : list console) :
  relaunches (a ++ b) = relaunches a + relaunches b.
Proof. unfold relaunches. now rewrite filter_app, length_app. Qed.

Lemma relaunches_tools (tr : list effect) : relaunches (map Tool tr) = 0.
Proof. induction tr as [|e tr IH]; [reflexivity | exact IH]. Qed.

Lemma scan_report_relaunches success output t :
  relaunches (history (scan_report success output t)) = 0.
Proof.
  unfold scan_report.
  destruct (contains (lit "No component store corruption detected") output);
    [|destruct (contains (lit "repairable") (lower output)); [|destruct success]];
    reflexivity.
Qed.

(** No option asks for an elevated copy. *)
Lemma option_scan_relaunches dp os t : relaunches (history (option_scan dp os t)) = 0.
Proof.
  unfold option_scan. rewrite mbind_perform.
  destruct (scan_health dp os t) as [[[b|b text]|e'] tr k]; cbn [outcome trace clock].
  - rewrite history_before, relaunches_app, relaunches_tools. reflexivity.
  - now rewrite history_before, relaunches_app, relaunches_tools, scan_report_relaunches.
  - apply relaunches_tools.
Qed.

Lemma option_restore_relaunches dp os t :
  relaunches (history (option_restore dp os t)) = 0.
Proof.
  unfold option_restore. rewrite mbind_perform.
  destruct (restore_health dp os t) as [[v|e'] tr k]; cbn [outcome trace clock].
  - rewrite history_before, relaunches_app, relaunches_tools.
    destruct (truth v); reflexivity.
  - apply relaunches_tools.
Qed.

Lemma option_sfc_relaunches lim u os t :
  relaunches (history (option_sfc lim u os t)) = 0.
Proof.
  unfold option_sfc. rewrite mbind_perform.
  destruct (run_sfc lim u os t) as [[v|e'] tr k]; cbn [outcome trace clock].
  - rewrite history_before, relaunches_app, relaunches_tools. destruct v; reflexivity.
  - apply relaunches_tools.
Qed.

Lemma option_full_relaunches lim dp u os os' t :
  relaunches (history (option_full lim dp u os os' t)) = 0.
Proof.
  unfold option_full. rewrite mbind_say, mbind_perform, history_before, relaunches_app.
  destruct (restore_health dp os t) as [[v|e'] tr k]; cbn [outcome trace clock].
  - rewrite history_before, mbind_say, history_before, mbind_perform, !relaunches_app,
      !relaunches_tools.
    destruct (run_sfc lim u os' k) as [[v'|e'] tr' k']; cbn [outcome trace clock].
    + rewrite history_before, mbind_say, history_before, !relaunches_app,
        !relaunches_tools.
      destruct (truth v && v'); reflexivity.
    + cbn [history]. now rewrite ?relaunches_tools.
  - cbn [history]. now rewrite !relaunches_tools.
Qed.

(** The loop of the menu asks for no elevated copy. *)
Lemma loop_relaunches lim dp u dr sr : forall n keys, length keys <= n -> forall nd ns t,
  relaunches (history (menu_loop lim dp u dr sr keys nd ns t)) = 0.
Proof.
  induction n as [|n IH]; intros keys Hle nd ns t.
  - destruct keys; [|cbn in Hle; lia]. cbn [menu_loop].
    rewrite mbind_say, input_eq. reflexivity.
  - loop_turn keys answer keys1; rewrite history_before, relaunches_app;
      change (relaunches (map Tool show_menu ++ [Tool (Stdout (lit "Select option: "))]))
        with 0; cbn [Nat.add].
    + reflexivity.
    + reflexivity.
    + option_turn (fun t => @option_scan_relaunches dp (dr nd) t) keys1 keys2;
        rewrite ?history_before, ?relaunches_app, ?Hm; cbn [history];
        try reflexivity.
      apply IH. cbn [length] in Hle. lia.
    + option_turn (fun t => @option_restore_relaunches dp (dr nd) t) keys1 keys2;
        rewrite ?history_before, ?relaunches_app, ?Hm; cbn [history];
        try reflexivity.
      apply IH. cbn [length] in Hle. lia.
    + option_turn (fun t => @option_sfc_relaunches lim u (sr ns) t) keys1 keys2;
        rewrite ?history_before, ?relaunches_app, ?Hm; cbn [history];
        try reflexivity.
      apply IH. cbn [length] in Hle. lia.
    + option_turn (fun t => @option_full_relaunches lim dp u (dr nd) (sr ns) t)
                  keys1 keys2;
        rewrite ?history_before, ?relaunches_app, ?Hm; cbn [history];
        try reflexivity.
      apply IH. cbn [length] in Hle. lia.
    + rewrite mbind_say, history_before, relaunches_app. cbn [map].
      change (relaunches [Tool (print (NL ++ lit "Invalid option. Please try again."))])
        with 0.
      apply IH. cbn [length] in Hle. lia.
    + reflexivity.
Qed.

(** [run_as_admin] asks at most once. *)
Lemma run_as_admin_relaunches (answer launch : res Z) (keys : list typed) (t : nat) :
  relaunches (history (run_as_admin answer launch keys t)) <= 1.
Proof.
  unfold run_as_admin, mtry, ShellExecuteW.
  destruct (not_Z (is_admin answer)); [|cbn; lia].
  rewrite mbind_session. cbn [ending history finish].
  destruct launch as [z|e].
  - destruct (32 <? z)%Z.
    + cbn. lia.
    + rewrite mbind_say, input_eq.
      destruct keys as [|[s|] keys1];
        cbn [before mret mbind say ending history finish app map is_Exception EOFError];
        cbn; lia.
  - cbn [before ending history finish]. destruct (is_Exception e);
      cbn [before mret mbind say ending history finish app map]; cbn; lia.
Qed.

(** X17. Whatever the surroundings and whatever is typed, the processes
    [main] starts are three commands and no other: the scan and the
    repair of the store, and the file check; beside them it asks, at
    most once, for an elevated copy of itself, and only in a process
    that is no administrator, where it starts none of the three. *)
Theorem program_starts_three_commands (lim : limits) (dism_path : str)
        (utf8_ignore : bytes -> str)
        (env : surroundings) (t : nat) :
  let r := main lim dism_path utf8_ignore env t in
  Forall (fun argv => argv = dism_path :: scan_args
                      \/ argv = dism_path :: restore_args
                      \/ argv = sfc_command)
         (commands (history r))
  /\ relaunches (history r) <= 1
  /\ (0 < relaunches (history r) ->
      is_admin (admin_answer env) = 0%Z /\ commands (history r) = []).
Proof.
  cbv zeta. unfold main.
  rewrite mbind_say, history_before, commands_app, relaunches_app, relaunches_tools.
  cbn [map commands flat_map print app Nat.add].
  destruct (not_Z (is_admin (admin_answer env))) eqn:Ha.
  - apply not_Z_true in Ha.
    rewrite mbind_say, history_before, commands_app, relaunches_app, relaunches_tools.
    cbn [map commands flat_map print app Nat.add].
    destruct (run_as_admin_prints (admin_again env) (launch_answer env)
                                  (keys_typed env) t) as [_ Hh].
    assert (Hc : commands (history (run_as_admin (admin_again env) (launch_answer env)
                                                 (keys_typed env) t)) = []).
    { induction Hh as [|x h Hx _ IH]; [reflexivity|].
      destruct Hx as [->|(c & s & -> & _)]; exact IH. }
    pose proof (run_as_admin_relaunches (admin_again env) (launch_answer env)
                                        (keys_typed env) t) as Hr.
    rewrite Hc. split; [constructor|]. split; [exact Hr|]. intros _. now split.
  - rewrite mbind_session. unfold asked. cbn [ending history finish].
    destruct (log_file env) as [path|e];
      [|split; [constructor|]; split; [cbn; lia | cbn; lia]].
    rewrite before_nil, mbind_say, history_before, commands_app, relaunches_app,
      relaunches_tools.
    cbn [map commands flat_map print app Nat.add].
    rewrite mbind_mret. cbn [history].
    rewrite (@loop_relaunches lim dism_path utf8_ignore (dism_spawns env)
                              (sfc_spawns env) _ (keys_typed env) (le_n _) 0 0 t).
    split; [|split; [lia | lia]].
    exact (@loop_commands lim dism_path utf8_ignore (dism_spawns env) (sfc_spawns env)
                          _ (keys_typed env) (le_n _) 0 0 t).
Qed.

(** X18. The session of an administrator never ends through
    [sys.exit], and it ends normally only when some line typed is, once
    stripped, the choice 0; its last entries are then the farewell and
    the log line of the end of the session. *)
Theorem session_ends_on_zero (lim : limits) (dism_path : str)
        (utf8_ignore : bytes -> str)
        (env : surroundings) (t : nat) :
  is_admin (admin_answer env) <> 0%Z ->
  let r := main lim dism_path utf8_ignore env t in
  (forall code, ending r <> Ok (Some code))
  /\ (ending r = Ok None ->
      (exists answer, In (Line answer) (keys_typed env) /\ strip answer = lit "0")
      /\ exists h,
          history r =
          h ++ [ Tool (print (NL ++ lit "Exiting pydism..."));
                 Tool (LogInfo (lit "pydism session ended")) ]).
Proof.
  intros Ha r. subst r. unfold main.
  assert (Hn : not_Z (is_admin (admin_answer env)) = false) by now apply Z.eqb_neq.
  rewrite Hn, mbind_say, ending_before, mbind_session. unfold asked.
  cbn [ending history finish].
  destruct (log_file env) as [path|e];
    [|split; [intros code; discriminate | discriminate]].
  rewrite before_nil, mbind_say, mbind_mret.
  pose proof (@loop_exit lim dism_path utf8_ignore (dism_spawns env) (sfc_spawns env)
                         _ (keys_typed env) (le_n _) 0 0 t) as H.
  set (L := menu_loop lim dism_path utf8_ignore (dism_spawns env) (sfc_spawns env)
                      (keys_typed env) 0 0 t) in *.
  rewrite !ending_before. cbn [ending].
  destruct (ending L) as [[]|e]; [|split; [intros code; discriminate | discriminate]].
  split; [intros code; discriminate|]. intros _.
  destruct (H eq_refl) as (Hk & Hh). split; [exact Hk|].
  apply ends_before, ends_before. exact Hh.
Qed.

Lemma session_ends_on_zero_witness :
  is_admin (admin_answer (desk 1 [Line (lit "9"); Line (lit " 0 ")])) <> 0%Z
  /\ ending (main host64 (lit "dism.exe") (fun _ => [])
                  (desk 1 [Line (lit "9"); Line (lit " 0 ")]) 0) = Ok None
  /\ exists answer,
      In (Line answer) (keys_typed (desk 1 [Line (lit "9"); Line (lit " 0 ")]))
      /\ strip answer = lit "0".
Proof.
  assert (Ha : is_admin (admin_answer (desk 1 [Line (lit "9"); Line (lit " 0 ")])) <> 0%Z)
    by discriminate.
  assert (He : ending (main host64 (lit "dism.exe") (fun _ => [])
                            (desk 1 [Line (lit "9"); Line (lit " 0 ")]) 0) = Ok None)
    by (vm_compute; reflexivity).
  split; [exact Ha|]. split; [exact He|].
  exact (proj1 (proj2 (@session_ends_on_zero host64 (lit "dism.exe") (fun _ => []) _ 0 Ha) He)).
Defined.

(** X19. A session in which no line typed chooses one of the options 1
    to 4 starts no tool and logs no warning. *)
Theorem idle_session_starts_nothing (lim : limits) (dism_path : str)
        (utf8_ignore : bytes -> str)
        (env : surroundings) (t : nat) :
  (forall answer, In (Line answer) (keys_typed env) -> tool_choice answer = false) ->
  commands (history (main lim dism_path utf8_ignore env t)) = []
  /\ warnings (history (main lim dism_path utf8_ignore env t)) = [].
Proof.
  intros Hk. unfold main. rewrite mbind_say, history_before, commands_app, warnings_app.
  cbn [map commands warnings flat_map print app].
  destruct (not_Z (is_admin (admin_answer env))).
  - rewrite mbind_say, history_before, commands_app, warnings_app.
    cbn [map commands warnings flat_map print app].
    destruct (run_as_admin_prints (admin_again env) (launch_answer env)
                                  (keys_typed env) t) as [_ Hh].
    induction Hh as [|x h Hx _ IH]; [split; reflexivity|].
    destruct Hx as [->|(c & s & -> & _)]; exact IH.
  - rewrite mbind_session. unfold asked. cbn [ending history finish].
    destruct (log_file env) as [path|e]; [|split; reflexivity].
    rewrite before_nil, mbind_say, history_before, commands_app, warnings_app.
    cbn [map commands warnings flat_map print app].
    rewrite mbind_session.
    destruct (@loop_idle lim dism_path utf8_ignore (dism_spawns env) (sfc_spawns env)
                         (keys_typed env) 0 0 t Hk) as [Hc Hw].
    destruct (menu_loop lim dism_path utf8_ignore (dism_spawns env) (sfc_spawns env)
                        (keys_typed env) 0 0 t) as [[[]|e] h f];
      cbn [ending history finish before mret] in *.
    + rewrite app_nil_r. now split.
    + now split.
Qed.

Lemma idle_session_starts_nothing_witness :
  (forall answer,
      In (Line answer) (keys_typed (desk 1 [Line (lit "scan"); Line (lit "0")])) ->
      tool_choice answer = false)
  /\ commands (history (main host64 (lit "dism.exe") (fun _ => [])
                             (desk 1 [Line (lit "scan"); Line (lit "0")]) 0)) = [].
Proof.
  assert (H : forall answer,
             In (Line answer) (keys_typed (desk 1 [Line (lit "scan"); Line (lit "0")])) ->
             tool_choice answer = false).
  { intros answer [E|[E|[]]]; inversion E; vm_compute; reflexivity. }
  split; [exact H|].
  exact (proj1 (@idle_session_starts_nothing host64 (lit "dism.exe") (fun _ => []) _ 0 H)).
Defined.

(** X20. After an option that starts a tool the loop waits for the
    enter key, and the line typed there is discarded whatever it holds:
    it is not read as a choice, so that a 0 typed at that prompt does
    not end the session. *)
Theorem enter_line_is_discarded (lim : limits) (dism_path : str)
        (utf8_ignore : bytes -> str)
        (dism_runs : nat -> spawn str) (sfc_runs : nat -> spawn bytes)
        (answer line line' : str) (keys : list typed) (nd ns t : nat) :
  tool_choice answer = true ->
  menu_loop lim dism_path utf8_ignore dism_runs sfc_runs
            (Line answer :: Line line :: keys) nd ns t
  = menu_loop lim dism_path utf8_ignore dism_runs sfc_runs
              (Line answer :: Line line' :: keys) nd ns t.
Proof.
  intros Hc. cbn [menu_loop]. rewrite !mbind_say, !input_eq. f_equal. f_equal.
  destruct (str_eqb (strip answer) (lit "0")); [reflexivity|].
  unfold tool_choice in Hc.
  destruct (str_eqb (strip answer) (lit "1")); [now rewrite !continue_eq|].
  destruct (str_eqb (strip answer) (lit "2")); [now rewrite !continue_eq|].
  destruct (str_eqb (strip answer) (lit "3")); [now rewrite !continue_eq|].
  destruct (str_eqb (strip answer) (lit "4")); [now rewrite !continue_eq|].
  discriminate.
Qed.

Lemma enter_line_is_discarded_witness :
  tool_choice (lit "3") = true
  /\ ending (menu_loop host64 (lit "dism.exe") (fun _ => [])
                       (fun _ => Spawns failed_repair) (fun _ => Spawns unrepaired_child)
                       [Line (lit "3"); Line (lit "0")] 0 0 0)
     = Raise EOFError.
Proof.
  split; [reflexivity|].
  rewrite (@enter_line_is_discarded host64 (lit "dism.exe") (fun _ => [])
             (fun _ => Spawns failed_repair) (fun _ => Spawns unrepaired_child)
             (lit "3") (lit "0") [] [] 0 0 0 eq_refl).
  vm_compute. reflexivity.
Defined.

(** X21. Option 1 on a scan that cannot be started: the message of the
    error is the text the menu reads, so that, when the message holds
    neither phrase, the failure is logged once as an error by the run
    and once as a warning by the menu, and the option ends normally, at
    once. *)
Theorem failed_scan_is_reported (dism_path msg : str) (t : nat) :
  ~ occurs healthy_phrase msg -> ~ occurs (lit "repairable") (lower msg) ->
  let r := option_scan dism_path (SpawnFails (OSError msg)) t in
  ending r = Ok tt
  /\ finish r = t
  /\ In (Tool (LogError (lit "DISM failed: " ++ msg))) (history r)
  /\ warnings (history r) = [lit "User action: Scan Health completed with errors"].
Proof.
  intros Hh Hr r. subst r. unfold option_scan. rewrite mbind_perform.
  rewrite scan_health_eq, run_dism_spawn_fails.
  cbn [dism_handler is_Exception prepend outcome trace clock bind emit ret returned
       exn_str].
  unfold scan_report. change (lit "No component store corruption detected") with healthy_phrase.
  apply contains_false in Hh. apply contains_false in Hr. rewrite Hh, Hr.
  rewrite mbind_say. unfold warn. cbn [before ending history finish].
  split; [reflexivity|]. split; [reflexivity|]. split.
  - rewrite !map_app, !in_app_iff. left. right. right. cbn [map In]. tauto.
  - rewrite !warnings_app, !warnings_tools. reflexivity.
Qed.

Lemma failed_scan_is_reported_witness :
  ~ occurs healthy_phrase (lit "Access is denied")
  /\ ~ occurs (lit "repairable") (lower (lit "Access is denied"))
  /\ warnings (history (option_scan (lit "dism.exe")
                                    (SpawnFails (OSError (lit "Access is denied"))) 0))
     = [lit "User action: Scan Health completed with errors"].
Proof.
  assert (Hh : ~ occurs healthy_phrase (lit "Access is denied"))
    by (apply contains_false; vm_compute; reflexivity).
  assert (Hr : ~ occurs (lit "repairable") (lower (lit "Access is denied")))
    by (apply contains_false; vm_compute; reflexivity).
  split; [exact Hh|]. split; [exact Hr|].
  exact (proj2 (proj2 (proj2 (@failed_scan_is_reported (lit "dism.exe") _ 0 Hh Hr)))).
Defined.

(* ================================================================= *)
(** ** The rounding of [float] *)

(** A tenth is no binary64 number: [float] gives the nearest one. *)
Example float_rounds_to_nearest :
  float_of_decimal (lit "0.1") = Qmake 3602879701896397 36028797018963968.
Proof. vm_compute. reflexivity. Qed.

(** A numeral just above 63 is read as 63, which lies in the range of
    the pause. *)
Example float_rounds_into_the_range :
  float_of_decimal (lit "63.00000000000000000001") = Qmake 63 1
  /\ in_pause_range (float_of_decimal (lit "63.00000000000000000001")) = true.
Proof. split; vm_compute; reflexivity. Qed.

(** Between two binary64 numbers the even one is taken. *)
Example float_ties_to_even :
  float_of_decimal (lit "9007199254740993") = Qmake 9007199254740992 1
  /\ float_of_decimal (lit "9007199254740995") = Qmake 9007199254740996 1.
Proof. split; vm_compute; reflexivity. Qed.

(** A numeral that is small enough is read as zero, and one that is
    large enough as [inf]. *)
Example float_underflows_and_overflows :
  float_of_decimal (lit "0.0000000000000000000000000000000000000000000000000000000000000000000000000000000000000000000000000000000000000000000000000000000000000000000000000000000000000000000000000000000000000000000000000000000000000000000000000000000000000000000000000000000000000000000000000000000000000000000000000000000000000000000000000000000000000000001") = 0%Q
  /\ float_of_decimal (lit "10000000000000000000000000000000000000000000000000000000000000000000000000000000000000000000000000000000000000000000000000000000000000000000000000000000000000000000000000000000000000000000000000000000000000000000000000000000000000000000000000000000000000000000000000000000000000000000000000000000000000000000000000000000000000000000000000000000000000000000000000000000000000000000000000000000000000000") = inf64.
Proof. split; vm_compute; reflexivity. Qed.

(* ================================================================= *)
(** ** A bar that cannot be drawn *)

(** What the bar raises is an [Exception]. *)
Lemma progress_bar_raises lim percent e :
  progress_bar lim percent = Raise e -> is_Exception e = true.
Proof.
  unfold progress_bar, true_divide, str_times. cbv zeta.
  repeat match goal with
         | |- context [if ?b then _ else _] => destruct b
         | |- context [match (match ?x with _ => _ end) with _ => _ end] => fail
         end;
    intros H; inversion H; reflexivity.
Qed.

(** The percentage seen last is one whose bar was drawn. *)
Lemma sfc_chunk_last lim last buffer text step :
  (last = (-1)%Z \/ exists p bar, last = Z.of_N p /\ progress_bar lim p = Ok bar) ->
  sfc_chunk lim last buffer text = Ok step ->
  fst (fst step) = (-1)%Z
  \/ exists p bar, fst (fst step) = Z.of_N p /\ progress_bar lim p = Ok bar.
Proof.
  intros Hl. unfold sfc_chunk. destruct (contains [PERCENT] text);
    [|intros H; inversion H; exact Hl].
  destruct (sfc_progress text) as [n|]; [|intros H; inversion H; exact Hl].
  destruct (negb (Z.of_N n =? last)%Z); [|intros H; inversion H; exact Hl].
  destruct (progress_bar lim n) as [bar|e] eqn:Hb; intros H; inversion H.
  right. now exists n, bar.
Qed.

(** The loop reaches the chunk whose bar cannot be drawn, and ends
    there. *)
Lemma sfc_loop_reaches_bar lim u p (pre : list (read_event bytes)) w chunk percent e post :
  all_data pre -> bars_drawn lim u pre -> chunk <> [] ->
  sfc_progress (read_text u chunk) = Some percent ->
  progress_bar lim percent = Raise e ->
  forall last buffer t,
    (last = (-1)%Z \/ exists q bar, last = Z.of_N q /\ progress_bar lim q = Ok bar) ->
    outcome (sfc_loop lim u p (pre ++ Data w chunk :: post) last buffer t) = Raise e.
Proof.
  intros Hd. revert Hd.
  induction 1 as [|[w' chunk'|w' e'] rest Hev Hrest IH];
    intros Hb Hne Hp He last buffer t Hl.
  - cbn [app]. rewrite sfc_loop_data by exact Hne. unfold sfc_chunk.
    rewrite (proj2 (progress_has_percent (read_text u chunk)) percent Hp), Hp.
    replace (Z.of_N percent =? last)%Z with false.
    + cbn [negb]. rewrite He. reflexivity.
    + symmetry. apply Z.eqb_neq. intros E.
      destruct Hl as [->|(q & bar & -> & Hq)]; [lia|].
      apply N2Z.inj in E. subst q. congruence.
  - cbn [app]. rewrite sfc_loop_data by exact Hev.
    destruct (@bars_drawn_chunk lim u w' chunk' rest last buffer Hb) as [step E].
    rewrite E. cbn [prepend outcome].
    apply IH; try assumption.
    + exact (bars_drawn_tail Hb).
    + exact (@sfc_chunk_last lim last buffer _ step Hl E).
  - destruct Hev.
Qed.

(** The loop of the file checker logs nothing, however it ends. *)
Lemma sfc_loop_logs_nothing lim u p stream : forall last buffer t,
  logged (trace (sfc_loop lim u p stream last buffer t)) = [].
Proof.
  induction stream as [|[w chunk|w e] rest IH]; intros last buffer t.
  - rewrite sfc_loop_end. reflexivity.
  - destruct chunk as [|b chunk].
    + rewrite sfc_loop_empty. destruct (has_exited p (t + w)); [reflexivity | apply IH].
    + rewrite sfc_loop_data by discriminate.
      destruct (sfc_chunk lim last buffer (read_text u (b :: chunk))) as [step|e] eqn:E;
        [|reflexivity].
      cbn [prepend trace].
      now rewrite logged_app, (proj2 (sfc_chunk_result _ _ _ _ E)), IH.
  - reflexivity.
Qed.

(** X22. A chunk that shows a percentage whose bar cannot be drawn,
    after reads of data whose bars were drawn, ends the file check
    there: the exception of the bar is taken by the handler of the run,
    which returns the flag false whatever the exit code of the child
    and whatever it writes afterwards; its last effects are the message
    of the exception printed and logged as an error, and beside its
    start the run logs nothing else, neither exit code nor result. *)
Theorem undrawable_bar_fails_check (lim : limits) (utf8_ignore : bytes -> str)
        (pre post : list (read_event bytes)) (w : nat) (chunk : bytes)
        (percent : N) (e : exn) (life : nat) (code : Z) (t : nat) :
  all_data pre -> bars_drawn lim utf8_ignore pre -> chunk <> [] ->
  sfc_progress (read_text utf8_ignore chunk) = Some percent ->
  progress_bar lim percent = Raise e ->
  let r := run_sfc lim utf8_ignore
                   (Spawns (Child (pre ++ Data w chunk :: post) life code)) t in
  outcome r = Ok false
  /\ (exists tr, trace r = tr ++ sfc_failure e)
  /\ logged (trace r) = [ LogInfo (lit "Starting SFC /scannow");
                          LogError (lit "SFC failed: " ++ exn_str e) ].
Proof.
  intros Hd Hb Hne Hp He r. subst r.
  rewrite run_sfc_eq, sfc_body_spawns. cbv zeta. cbn [output].
  match goal with
  | |- context [sfc_loop lim ?u ?p ?s ?a ?b ?t'] =>
      assert (Ho : outcome (sfc_loop lim u p s a b t') = Raise e)
        by exact (@sfc_loop_reaches_bar lim u p pre w chunk percent e post
                                        Hd Hb Hne Hp He a b t' (or_introl eq_refl));
      pose proof (sfc_loop_logs_nothing lim u p s a b t') as Hlog;
      revert Ho Hlog; destruct (sfc_loop lim u p s a b t') as [o tr k]
  end.
  cbn [outcome trace clock]. intros -> Hlog. cbn [outcome trace clock].
  rewrite (progress_bar_raises _ _ He).
  cbn [outcome trace clock].
  split; [reflexivity|]. split; [eexists; now rewrite !app_assoc|].
  rewrite !logged_app, Hlog. reflexivity.
Qed.

Lemma undrawable_bar_fails_check_witness :
  all_data [Data 1 (utf16le_encode (lit "Beginning system scan."))]
  /\ bars_drawn host64 (fun _ => [])
                [Data 1 (utf16le_encode (lit "Beginning system scan."))]
  /\ progress_bar host64 99999999999999999999
     = Raise (OverflowError (lit "cannot fit 'int' into an index-sized integer"))
  /\ exit_code overflowing_child = 0%Z
  /\ outcome (run_sfc host64 (fun _ => []) (Spawns overflowing_child) 0) = Ok false.
Proof.
  assert (Hd : all_data [Data 1 (utf16le_encode (lit "Beginning system scan."))])
    by (repeat constructor; discriminate).
  assert (Hb : bars_drawn host64 (fun _ => [])
                          [Data 1 (utf16le_encode (lit "Beginning system scan."))]).
  { repeat constructor. intros percent Hp. vm_compute in Hp. discriminate. }
  assert (He : progress_bar host64 99999999999999999999
               = Raise (OverflowError
                          (lit "cannot fit 'int' into an index-sized integer")))
    by (vm_compute; reflexivity).
  split; [exact Hd|]. split; [exact Hb|]. split; [exact He|]. split; [reflexivity|].
  refine (proj1 (@undrawable_bar_fails_check
                   host64 (fun _ => [])
                   [Data 1 (utf16le_encode (lit "Beginning system scan."))]
                   [Data 1 (utf16le_encode
                              (lit "Windows Resource Protection did not find any integrity violations."))]
                   1 (utf16le_encode (lit "Verification 99999999999999999999% complete."))
                   99999999999999999999 _ 3 0%Z 0 Hd Hb _ _ He)).
  - discriminate.
  - vm_compute. reflexivity.
Defined.
